(** * picotls command-line driver (t/cli.c): the I/O pump, verified

    A shallow embedding of the connection-handling code of [t/cli.c]:
    [write_all], [run_handshake], [decrypt_and_print], [handle_connection],
    [run_server] and [run_client], and of the command line as [main] and
    [resolve_address] read it.

    The program talks to two collaborators, the operating system
    (read, write, select, socket, ...) and the TLS engine
    (ptls_handshake, ptls_receive, ptls_send, ...).  Both are modelled by
    a [World]: for every call a script of the answers the collaborator
    will give, the global [errno], and a log of every call made together
    with its answer.  The C functions become state-passing functions over
    the world; loops take fuel. *)

From Stdlib Require Import String ZArith List Bool Lia.
Import ListNotations.
Local Open Scope Z_scope.

Definition byte : Set := Byte.byte.

(** ** Machine integers *)

(** [size_t] arithmetic is modulo 2^64; [ssize_t] and [int] values are kept
    as mathematical integers (the code never overflows them). *)
Definition size_t (z : Z) : Z := z mod 2 ^ 64.

Definition len_of {A} (l : list A) : Z := Z.of_nat (length l).

(** ** Buffers *)

(** Modelled from the spec: [ptls_buffer_t] of picotls.h, a growable byte
    buffer with a logical write offset: the bytes at [base] and the number
    [off] of them that are pending. *)
Record ptls_buffer_t := mk_buffer { base : list byte; off : Z }.

Definition set_off (b : ptls_buffer_t) (o : Z) : ptls_buffer_t :=
  {| base := base b; off := o |}.

(** A stack array of [n] bytes before anything is stored in it. *)
Definition uninit (n : nat) : list byte := repeat Byte.x00 n.

(** Modelled from the spec: [ptls_buffer_init] of picotls.h, an empty
    buffer on the given array. *)
Definition ptls_buffer_init (smallbuf : list byte) : ptls_buffer_t :=
  {| base := smallbuf; off := 0 |}.

(** Storing [data] at the start of the array [buf]. *)
Definition blit (buf data : list byte) : list byte :=
  data ++ skipn (length data) buf.

(** The [n] bytes at [p], for a pointer [p] modelled by the bytes from it
    on (all of them when there are fewer than [n]). *)
Definition span (p : list byte) (n : Z) : list byte :=
  firstn (Z.to_nat (Z.min n (len_of p))) p.

(** Pointer arithmetic [p + n]. *)
Definition advance (p : list byte) (n : Z) : list byte :=
  skipn (Z.to_nat (Z.min n (len_of p))) p.

(** The bytes a buffer holds pending. *)
Definition pending (b : ptls_buffer_t) : list byte := span (base b) (off b).

(** Modelled from the spec: what the engine does to an output buffer, the
    produced bytes are appended after the pending ones. *)
Definition buffer_push (b : ptls_buffer_t) (out : list byte) : ptls_buffer_t :=
  {| base := pending b ++ out;
     off := off b + len_of out |}.

(** ** The world *)

(** Modelled from the spec: the engine instance [ptls_t] returned by
    [ptls_new], opaque but for the name it was created with. *)
Inductive ptls_t := Tls (server_name : option string).

(** Scripted answers.  A descriptor answers a write by accepting at most
    [n] bytes of what it is offered, or by failing with an errno; it
    answers a read by delivering data (none at end of file) or failing. *)
Inductive write_answer := WAccept (n : nat) | WFail (e : Z).
Inductive read_answer := RData (d : list byte) | RFail (e : Z).
Inductive select_answer := SelReady (ready : list Z) | SelFail (e : Z).
Record handshake_answer :=
  { hs_ret : Z; hs_out : list byte; hs_consumed : Z }.
Record receive_answer :=
  { rc_ret : Z; rc_out : list byte; rc_consumed : Z }.
Record send_answer := { sd_ret : Z; sd_out : list byte }.

(** Every call to a collaborator, with its arguments and its answer. *)
Inductive event :=
| EvWrite (fd : Z) (buf : list byte) (ret err : Z)
| EvRead (fd cap ret err : Z) (data : list byte)
| EvSelect (nfds : Z) (readfds : list Z) (ret err : Z) (ready : list Z)
| EvMemmove (src n : Z)
| EvNew (tls : ptls_t)
| EvHandshake (buf_off : Z) (input : list byte) (ret : Z) (out : list byte)
              (consumed : Z)
| EvReceive (buf_off : Z) (input : list byte) (ret : Z) (out : list byte)
            (consumed : Z)
| EvSend (buf_off : Z) (input : list byte) (len ret : Z) (out : list byte)
| EvDispose
| EvFree (tls : ptls_t)
| EvFprintf (msg : string) (code : Z)
| EvPerror (msg : string)
| EvSocket (ret : Z)
| EvSetsockopt (fd ret : Z)
| EvBind (fd ret : Z)
| EvListen (fd ret : Z)
| EvAccept (fd ret : Z)
| EvConnect (fd ret : Z)
| EvClose (fd : Z).

Record World := mk_world
  { errno : Z;
    writes : list write_answer;
    reads : list read_answer;
    selects : list select_answer;
    handshakes : list handshake_answer;
    receives : list receive_answer;
    sends : list send_answer;
    sockets : list Z;
    setups : list Z;
    accepts : list Z;
    connects : list Z;
    log : list event }.

Definition emit (e : event) (w : World) : World :=
  mk_world (errno w) (writes w) (reads w) (selects w) (handshakes w)
    (receives w) (sends w) (sockets w) (setups w) (accepts w) (connects w)
    (log w ++ [e]).

Definition set_errno (e : Z) (w : World) : World :=
  mk_world e (writes w) (reads w) (selects w) (handshakes w)
    (receives w) (sends w) (sockets w) (setups w) (accepts w) (connects w)
    (log w).

Definition set_writes (x : list write_answer) (w : World) : World :=
  mk_world (errno w) x (reads w) (selects w) (handshakes w)
    (receives w) (sends w) (sockets w) (setups w) (accepts w) (connects w)
    (log w).

Definition set_reads (x : list read_answer) (w : World) : World :=
  mk_world (errno w) (writes w) x (selects w) (handshakes w)
    (receives w) (sends w) (sockets w) (setups w) (accepts w) (connects w)
    (log w).

Definition set_selects (x : list select_answer) (w : World) : World :=
  mk_world (errno w) (writes w) (reads w) x (handshakes w)
    (receives w) (sends w) (sockets w) (setups w) (accepts w) (connects w)
    (log w).

Definition set_handshakes (x : list handshake_answer) (w : World) : World :=
  mk_world (errno w) (writes w) (reads w) (selects w) x
    (receives w) (sends w) (sockets w) (setups w) (accepts w) (connects w)
    (log w).

Definition set_receives (x : list receive_answer) (w : World) : World :=
  mk_world (errno w) (writes w) (reads w) (selects w) (handshakes w)
    x (sends w) (sockets w) (setups w) (accepts w) (connects w)
    (log w).

Definition set_sends (x : list send_answer) (w : World) : World :=
  mk_world (errno w) (writes w) (reads w) (selects w) (handshakes w)
    (receives w) x (sockets w) (setups w) (accepts w) (connects w)
    (log w).

Definition set_sockets (x : list Z) (w : World) : World :=
  mk_world (errno w) (writes w) (reads w) (selects w) (handshakes w)
    (receives w) (sends w) x (setups w) (accepts w) (connects w)
    (log w).

Definition set_setups (x : list Z) (w : World) : World :=
  mk_world (errno w) (writes w) (reads w) (selects w) (handshakes w)
    (receives w) (sends w) (sockets w) x (accepts w) (connects w)
    (log w).

Definition set_accepts (x : list Z) (w : World) : World :=
  mk_world (errno w) (writes w) (reads w) (selects w) (handshakes w)
    (receives w) (sends w) (sockets w) (setups w) x (connects w)
    (log w).

Definition set_connects (x : list Z) (w : World) : World :=
  mk_world (errno w) (writes w) (reads w) (selects w) (handshakes w)
    (receives w) (sends w) (sockets w) (setups w) (accepts w) x
    (log w).

(** A world in which nothing is scripted and nothing has happened. *)
Definition quiet : World := mk_world 0 [] [] [] [] [] [] [] [] [] [] [].

(** ** Computations *)

(** A computation either finishes with a value, or does not: a call found
    no scripted answer ([Starved]: a blocking call that never returns), or
    a loop used up its fuel. *)
Inductive stuck := Starved | OutOfFuel.

Inductive outcome (A : Type) :=
| Done (a : A) (w : World)
| Stuck (why : stuck) (w : World).
Arguments Done {A} a w.
Arguments Stuck {A} why w.

Definition M (A : Type) : Type := World -> outcome A.

Definition ret {A} (a : A) : M A := fun w => Done a w.

Definition bind {A B} (m : M A) (k : A -> M B) : M B :=
  fun w => match m w with
           | Done a w' => k a w'
           | Stuck y w' => Stuck y w'
           end.

Declare Scope io_scope.
Delimit Scope io_scope with io.
Notation "x <- m ;; k" := (bind m (fun x => k))
  (at level 61, m at next level, right associativity) : io_scope.
Notation "' p <- m ;; k" := (bind m (fun x => match x with p => k end))
  (at level 61, p pattern, m at next level, right associativity) : io_scope.
Notation "m ;; k" := (bind m (fun _ => k))
  (at level 61, right associativity) : io_scope.
Local Open Scope io_scope.

(** The world an outcome ends in. *)
Definition world_of {A} (o : outcome A) : World :=
  match o with Done _ w => w | Stuck _ w => w end.

(** A loop: the body either continues with a new state or leaves the loop
    with a result ([return], [break], [goto]). *)
Definition continue {S R} (s : S) : M (S + R) := ret (inl s).
Definition break {S R} (r : R) : M (S + R) := ret (inr r).

Fixpoint loop {S R} (fuel : nat) (body : S -> M (S + R)) (s : S) : M R :=
  match fuel with
  | O => fun w => Stuck OutOfFuel w
  | Datatypes.S fuel' =>
      x <- body s ;;
      match x with
      | inl s' => loop fuel' body s'
      | inr r => ret r
      end
  end.

(** ** System calls *)

Definition Zmem (x : Z) (l : list Z) : bool := existsb (Z.eqb x) l.

Definition get_errno : M Z := fun w => Done (errno w) w.

(** [write(fd, data, len)].  Once the scripted answers are used up the
    descriptor accepts whatever it is offered. *)
Definition sys_write (fd : Z) (data : list byte) (len : Z) : M Z :=
  fun w =>
    match writes w with
    | [] => Done len (emit (EvWrite fd (span data len) len (errno w)) w)
    | WAccept n :: rest =>
        let r := Z.min (Z.of_nat n) len in
        Done r (emit (EvWrite fd (span data len) r (errno w))
                  (set_writes rest w))
    | WFail e :: rest =>
        Done (-1) (emit (EvWrite fd (span data len) (-1) e)
                     (set_errno e (set_writes rest w)))
    end.

(** [read(fd, buf, cap)]: returns the count and the array as the call
    leaves it. *)
Definition sys_read (fd : Z) (buf : list byte) (cap : Z)
  : M (Z * list byte) :=
  fun w =>
    match reads w with
    | [] => Stuck Starved w
    | RData d :: rest =>
        let d' := span d cap in
        Done (len_of d', blit buf d')
          (emit (EvRead fd cap (len_of d') (errno w) d') (set_reads rest w))
    | RFail e :: rest =>
        Done (-1, buf)
          (emit (EvRead fd cap (-1) e []) (set_errno e (set_reads rest w)))
    end.

(** Descriptor sets. *)
Definition fd_set := list Z.
Definition FD_ZERO : fd_set := [].
Definition FD_SET (fd : Z) (s : fd_set) : fd_set := fd :: s.
Definition FD_ISSET (fd : Z) (s : fd_set) : bool := Zmem fd s.

(** [select(nfds, readfds, NULL, NULL, NULL)]: returns the count and the
    set with the descriptors that are not ready removed. *)
Definition sys_select (nfds : Z) (readfds : fd_set) : M (Z * fd_set) :=
  fun w =>
    match selects w with
    | [] => Stuck Starved w
    | SelReady ready :: rest =>
        let s := filter (fun x => Zmem x ready) readfds in
        let n := len_of (nodup Z.eq_dec s) in
        Done (n, s)
          (emit (EvSelect nfds readfds n (errno w) s) (set_selects rest w))
    | SelFail e :: rest =>
        Done (-1, readfds)
          (emit (EvSelect nfds readfds (-1) e readfds)
             (set_errno e (set_selects rest w)))
    end.

(** [memmove(p, p + src, n)] on the array [p], for a source span that lies
    within the array: [0 <= src], [0 <= n] and [src + n] at most its
    length.  The event records the arguments as the call was given them.
    With a span that runs past the end of the array the C call is
    undefined, and what is returned here is only what a copy cut off at
    the end of the array would leave. *)
Definition memmove (p : list byte) (src n : Z) : M (list byte) :=
  fun w => Done (blit p (span (advance p src) n)) (emit (EvMemmove src n) w).

Definition fprintf (msg : string) (code : Z) : M unit :=
  fun w => Done tt (emit (EvFprintf msg code) w).

Definition perror (msg : string) : M unit :=
  fun w => Done tt (emit (EvPerror msg) w).

Definition sys_socket : M Z :=
  fun w =>
    match sockets w with
    | [] => Stuck Starved w
    | r :: rest => Done r (emit (EvSocket r) (set_sockets rest w))
    end.

(** setsockopt, bind and listen share one script. *)
Definition sys_setup (ev : Z -> Z -> event) (fd : Z) : M Z :=
  fun w =>
    match setups w with
    | [] => Stuck Starved w
    | r :: rest => Done r (emit (ev fd r) (set_setups rest w))
    end.

Definition sys_accept (fd : Z) : M Z :=
  fun w =>
    match accepts w with
    | [] => Stuck Starved w
    | r :: rest => Done r (emit (EvAccept fd r) (set_accepts rest w))
    end.

Definition sys_connect (fd : Z) : M Z :=
  fun w =>
    match connects w with
    | [] => Stuck Starved w
    | r :: rest => Done r (emit (EvConnect fd r) (set_connects rest w))
    end.

Definition sys_close (fd : Z) : M unit :=
  fun w => Done tt (emit (EvClose fd) w).

(** ** The TLS engine

    The engine is the library the program is linked with; its functions are
    modelled at the boundary the spec gives for them, their answers being
    scripted. *)

(** Modelled from the spec: [ptls_new], creating the per-connection state
    with an optional peer name. *)
Definition ptls_new (server_name : option string) : M ptls_t :=
  fun w => Done (Tls server_name) (emit (EvNew (Tls server_name)) w).

(** Modelled from the spec: [ptls_free], disposing of the instance. *)
Definition ptls_free (tls : ptls_t) : M unit :=
  fun w => Done tt (emit (EvFree tls) w).

(** Modelled from the spec: [ptls_buffer_dispose], releasing a buffer. *)
Definition ptls_buffer_dispose (b : ptls_buffer_t) : M unit :=
  fun w => Done tt (emit EvDispose w).

(** Modelled from the spec: [ptls_handshake(tls, wbuf, input, &inlen)], the
    handshake step.  It returns the status, the output buffer with what
    the engine appended, and the new value of [inlen], the bytes
    consumed. *)
Definition ptls_handshake (tls : ptls_t) (wbuf : ptls_buffer_t)
    (input : list byte) (inlen : Z) : M (Z * ptls_buffer_t * Z) :=
  fun w =>
    match handshakes w with
    | [] => Stuck Starved w
    | a :: rest =>
        Done (hs_ret a, buffer_push wbuf (hs_out a), hs_consumed a)
          (emit (EvHandshake (off wbuf) (span input inlen) (hs_ret a)
                   (hs_out a) (hs_consumed a))
             (set_handshakes rest w))
    end.

(** Modelled from the spec: [ptls_receive(tls, buf, input, &inlen)], the
    unsealing operation.  It returns the status, the output buffer with the
    plaintext appended, and the new value of [inlen], the bytes consumed. *)
Definition ptls_receive (tls : ptls_t) (buf : ptls_buffer_t)
    (input : list byte) (inlen : Z) : M (Z * ptls_buffer_t * Z) :=
  fun w =>
    match receives w with
    | [] => Stuck Starved w
    | a :: rest =>
        Done (rc_ret a, buffer_push buf (rc_out a), rc_consumed a)
          (emit (EvReceive (off buf) (span input inlen) (rc_ret a)
                   (rc_out a) (rc_consumed a))
             (set_receives rest w))
    end.

(** Modelled from the spec: [ptls_send(tls, wbuf, input, inlen)], the
    sealing operation, which appends ciphertext to the output buffer. *)
Definition ptls_send (tls : ptls_t) (wbuf : ptls_buffer_t)
    (input : list byte) (inlen : Z) : M (Z * ptls_buffer_t) :=
  fun w =>
    match sends w with
    | [] => Stuck Starved w
    | a :: rest =>
        Done (sd_ret a, buffer_push wbuf (sd_out a))
          (emit (EvSend (off wbuf) (span input inlen) inlen (sd_ret a)
                   (sd_out a))
             (set_sends rest w))
    end.

(** ** The program *)

Section Cli.

(** Constants of headers that are not part of this file: [EINTR] of
    errno.h and [PTLS_ERROR_HANDSHAKE_IN_PROGRESS] of picotls.h. *)
Variable EINTR : Z.
Variable PTLS_ERROR_HANDSHAKE_IN_PROGRESS : Z.

(** [while ((r = write(fd, data, len)) == -1 && errno == EINTR) ;] *)
Definition write_retry_body (fd : Z) (data : list byte) (len : Z) (_ : unit)
  : M (unit + Z) :=
  wret <- sys_write fd data len ;;
  e <- get_errno ;;
  if (wret =? -1) && (e =? EINTR) then continue tt else break wret.

Definition write_retry (fuel : nat) (fd : Z) (data : list byte) (len : Z)
  : M Z :=
  loop fuel (write_retry_body fd data len) tt.

Definition write_all_body (fuel : nat) (fd : Z) (st : list byte * Z)
  : M (list byte * Z + Z) :=
  let '(data, len) := st in
  if len =? 0 then break 0
  else
    wret <- write_retry fuel fd data len ;;
    if wret <=? 0 then break (-1)
    else continue (advance data wret, size_t (len - wret)).

Definition write_all (fuel : nat) (fd : Z) (data : list byte) (len : Z)
  : M Z :=
  loop fuel (write_all_body fuel fd) (data, len).

(** [while ((r = read(fd, buf, cap)) == sentinel && errno == EINTR) ;]
    The source has three such loops.  The one of [run_handshake] compares
    the result with -1, the two of [handle_connection] compare it with 1. *)
Definition read_retry_body (sentinel : Z) (fd : Z) (cap : Z) (buf : list byte)
  : M (list byte + Z * list byte) :=
  '(rret, buf) <- sys_read fd buf cap ;;
  e <- get_errno ;;
  if (rret =? sentinel) && (e =? EINTR) then continue buf
  else break (rret, buf).

Definition read_retry (sentinel : Z) (fuel : nat) (fd : Z) (buf : list byte)
    (cap : Z) : M (Z * list byte) :=
  loop fuel (read_retry_body sentinel fd cap) buf.

(** The state of the handshake loop: the output buffer, the input array,
    [*pending_input_len] and [rret]. *)
Definition hs_state : Type := ptls_buffer_t * list byte * Z * Z.

(** What [run_handshake] leaves behind: its result, the output buffer, the
    input array and [*pending_input_len]. *)
Definition hs_result : Type := Z * ptls_buffer_t * list byte * Z.

Definition run_handshake_body (fuel : nat) (fd : Z) (tls : ptls_t)
    (pending_input_bufsz : Z) (st : hs_state) : M (hs_state + hs_result) :=
  let '(wbuf, pending_input, pending_input_len, rret) := st in
  '(r, wbuf, pending_input_len) <-
     ptls_handshake tls wbuf pending_input pending_input_len ;;
  if r =? PTLS_ERROR_HANDSHAKE_IN_PROGRESS then
    (* write to socket *)
    wr <- write_all fuel fd (base wbuf) (off wbuf) ;;
    if negb (wr =? 0) then break (-1, wbuf, pending_input, pending_input_len)
    else
      let wbuf := set_off wbuf 0 in
      (* read from socket *)
      '(rret, pending_input) <-
         read_retry (-1) fuel fd pending_input pending_input_bufsz ;;
      if rret <=? 0 then break (-1, wbuf, pending_input, pending_input_len)
      else continue (wbuf, pending_input, size_t rret, rret)
  else if negb (r =? 0) then
    fprintf "ptls_handshake" r ;;
    break (-1, wbuf, pending_input, pending_input_len)
  else
    pending_input <-
      (if negb (size_t rret =? pending_input_len)
       then memmove pending_input pending_input_len
              (size_t (rret - pending_input_len))
       else ret pending_input) ;;
    break (0, wbuf, pending_input, size_t (rret - pending_input_len)).

Definition run_handshake (fuel : nat) (fd : Z) (tls : ptls_t)
    (wbuf : ptls_buffer_t) (pending_input : list byte)
    (pending_input_len : Z) : M hs_result :=
  let pending_input_bufsz := pending_input_len in
  loop fuel (run_handshake_body fuel fd tls pending_input_bufsz)
    (wbuf, pending_input, 0, 0).

(** The state of the pump: the input cursor, the length left and the
    output buffer. *)
Definition dp_state : Type := list byte * Z * ptls_buffer_t.

Definition decrypt_and_print_body (fuel : nat) (tls : ptls_t) (st : dp_state)
  : M (dp_state + Z) :=
  let '(input, inlen, decryptbuf) := st in
  if inlen =? 0 then break 0
  else
    let consumed := inlen in
    '(r, decryptbuf, consumed) <-
       ptls_receive tls decryptbuf input consumed ;;
    if negb (r =? 0) then fprintf "ptls_receive" r ;; break (-1)
    else
      let input := advance input consumed in
      let inlen := size_t (inlen - consumed) in
      if negb (off decryptbuf =? 0) then
        wr <- write_all fuel 1 (base decryptbuf) (off decryptbuf) ;;
        if negb (wr =? 0) then break (-1)
        else continue (input, inlen, set_off decryptbuf 0)
      else continue (input, inlen, decryptbuf).

Definition decrypt_and_print (fuel : nat) (tls : ptls_t) (input : list byte)
    (inlen : Z) : M Z :=
  let decryptbuf := ptls_buffer_init (uninit 1024) in
  loop fuel (decrypt_and_print_body fuel tls) (input, inlen, decryptbuf).

(** The two arrays of [handle_connection] that outlive a loop iteration. *)
Definition hc_state : Type := ptls_buffer_t * list byte.

(** [if (FD_ISSET(0, &readfds)) { ... }]; [None] is [goto Exit]. *)
Definition input_ready_branch (fuel : nat) (fd : Z) (tls : ptls_t)
    (st : hc_state) : M (option hc_state) :=
  let '(wbuf, rbuf) := st in
  (* read from stdin, encrypt and send *)
  '(rret, rbuf) <- read_retry 1 fuel 0 rbuf 1024 ;;
  '(r, wbuf) <- ptls_send tls wbuf rbuf (size_t rret) ;;
  if negb (r =? 0) then fprintf "ptls_send" r ;; ret None
  else
    wr <- write_all fuel fd (base wbuf) (off wbuf) ;;
    if negb (wr =? 0) then ret None
    else ret (Some (set_off wbuf 0, rbuf)).

(** [if (FD_ISSET(fd, &readfds)) { ... }]; [None] is [goto Exit]. *)
Definition socket_ready_branch (fuel : nat) (fd : Z) (tls : ptls_t)
    (st : hc_state) : M (option hc_state) :=
  let '(wbuf, rbuf) := st in
  (* read from socket, decrypt and print *)
  '(rret, rbuf) <- read_retry 1 fuel fd rbuf 1024 ;;
  if rret <=? 0 then ret None
  else
    r <- decrypt_and_print fuel tls rbuf (size_t rret) ;;
    if negb (r =? 0) then ret None
    else ret (Some (wbuf, rbuf)).

(** The two [if (FD_ISSET(...))] blocks of a turn, the one for standard
    input first; leaving the loop is [goto Exit]. *)
Definition serve_ready (fuel : nat) (fd : Z) (tls : ptls_t) (st : hc_state)
    (readfds : fd_set) : M (hc_state + unit) :=
  r1 <- (if FD_ISSET 0 readfds then input_ready_branch fuel fd tls st
         else ret (Some st)) ;;
  match r1 with
  | None => break tt
  | Some st =>
      r2 <- (if FD_ISSET fd readfds then socket_ready_branch fuel fd tls st
             else ret (Some st)) ;;
      match r2 with
      | None => break tt
      | Some st => continue st
      end
  end.

(** One turn of [while (1)]. *)
Definition streaming_body (fuel : nat) (fd : Z) (tls : ptls_t)
    (st : hc_state) : M (hc_state + unit) :=
  (* wait for either of STDIN or read-side of the socket *)
  let readfds := FD_SET fd (FD_SET 0 FD_ZERO) in
  '(n, readfds) <- sys_select (fd + 1) readfds ;;
  if n <=? 0 then continue st
  else serve_ready fuel fd tls st readfds.

(** [handle_connection] from its first statement to the label [Exit]:
    it is left by [goto Exit] only. *)
Definition session (fuel : nat) (fd : Z) (tls : ptls_t)
    (wbuf : ptls_buffer_t) (rbuf : list byte) : M unit :=
  let roff := 1024 in
  '(r, wbuf, rbuf, roff) <- run_handshake fuel fd tls wbuf rbuf roff ;;
  if negb (r =? 0) then ret tt
  else
    wr <- write_all fuel fd (base wbuf) (off wbuf) ;;
    if negb (wr =? 0) then ret tt
    else
      let wbuf := set_off wbuf 0 in
      (* process pending post-handshake data (if any) *)
      r <- decrypt_and_print fuel tls rbuf roff ;;
      if negb (r =? 0) then ret tt
      else
        (* do the communication *)
        loop fuel (streaming_body fuel fd tls) (wbuf, rbuf).

Definition handle_connection (fuel : nat) (fd : Z)
    (server_name : option string) : M Z :=
  tls <- ptls_new server_name ;;
  let rbuf := uninit 1024 in
  let wbuf_small := uninit 1024 in
  let wbuf := ptls_buffer_init wbuf_small in
  session fuel fd tls wbuf rbuf ;;
  (* Exit: *)
  ptls_buffer_dispose wbuf ;;
  ptls_free tls ;;
  ret 0.

Definition run_server_body (fuel : nat) (listen_fd : Z) (_ : unit)
  : M (unit + Z) :=
  conn_fd <- sys_accept listen_fd ;;
  if negb (conn_fd =? -1) then
    handle_connection fuel conn_fd None ;;
    sys_close conn_fd ;;
    continue tt
  else continue tt.

Definition run_server (fuel : nat) : M Z :=
  listen_fd <- sys_socket ;;
  if listen_fd =? -1 then perror "socket(2) failed" ;; ret 1
  else
    r <- sys_setup EvSetsockopt listen_fd ;;
    if negb (r =? 0) then perror "setsockopt(SO_REUSEADDR) failed" ;; ret 1
    else
      r <- sys_setup EvBind listen_fd ;;
      if negb (r =? 0) then perror "bind(2) failed" ;; ret 1
      else
        r <- sys_setup EvListen listen_fd ;;
        if negb (r =? 0) then perror "listen(2) failed" ;; ret 1
        else loop fuel (run_server_body fuel listen_fd) tt.

Definition run_client (fuel : nat) : M Z :=
  fd <- sys_socket ;;
  if fd =? 1 then perror "socket(2) failed" ;; ret 1
  else
    r <- sys_connect fd ;;
    if negb (r =? 0) then perror "connect(2) failed" ;; ret 1
    else handle_connection fuel fd (Some "example.com"%string).

(** The last statement of [main]:
    [return (certs != NULL ? run_server : run_client)(...)]. *)
Definition main_dispatch (certs_given : bool) (fuel : nat) : M Z :=
  (if certs_given then run_server else run_client) fuel.

(** ** The command line

    [main] up to its last statement: the options, the two positional
    arguments and the resolution of the address.  What it consults is the
    C library and OpenSSL: [getopt], whose answers are the list of options
    it returns and the arguments it leaves; [fopen] with the PEM readers,
    whose answer for a path is what the file holds; and [getaddrinfo]. *)

(** What [getopt(argc, argv, "c:k:")] returns for one option: ['c'] or
    ['k'] with [optarg], or anything else. *)
Inductive option_t :=
| OptC (optarg : string)
| OptK (optarg : string)
| OptOther.

(** A file [fopen] could open: the number of certificates [PEM_read_X509]
    yields before it returns NULL, and whether [PEM_read_PrivateKey]
    yields a key. *)
Record pem_file := { pem_certs : nat; pem_key : bool }.

(** What [main] and [resolve_address] print on standard error. *)
Inductive diagnostic :=
| FailedToOpen (path : string)
| FailedToLoadChain (path : string)
| FailedToLoadKey (path : string)
| UsedTogether
| FailedToResolve (host port : string).

(** How [main] goes on: it leaves with a status, having printed at most
    one diagnostic, or it runs the server or the client on an address. *)
Inductive plan :=
| Exit (status : Z) (said : option diagnostic)
| Run (server : bool) (host port : string).

Section Main.

Variable fopen : string -> option pem_file.

(** [getaddrinfo(host, port, &hints, &res)]: the error code and whether
    [res] is not NULL. *)
Variable getaddrinfo : string -> string -> Z * bool.

(** The [while ((ch = getopt(...)) != -1) switch (ch)] loop on the
    variables [certs] (NULL, or a stack of so many certificates) and
    [pkey] (NULL or not); [inl] is leaving [main] from inside the loop. *)
Fixpoint main_options (opts : list option_t) (certs : option nat)
    (pkey : bool) : plan + option nat * bool :=
  match opts with
  | [] => inr (certs, pkey)
  | OptC optarg :: opts' =>
      match fopen optarg with
      | None => inl (Exit 1 (Some (FailedToOpen optarg)))
      | Some fp =>
          let certs := pem_certs fp in
          if (certs =? 0)%nat
          then inl (Exit 1 (Some (FailedToLoadChain optarg)))
          else main_options opts' (Some certs) pkey
      end
  | OptK optarg :: opts' =>
      match fopen optarg with
      | None => inl (Exit 1 (Some (FailedToOpen optarg)))
      | Some fp =>
          let pkey := pem_key fp in
          if negb pkey then inl (Exit 1 (Some (FailedToLoadKey optarg)))
          else main_options opts' certs pkey
      end
  | OptOther :: _ =>
      (* usage(argv[0]); exit(1); *)
      inl (Exit 1 None)
  end.

Definition is_null {A} (p : option A) : bool :=
  match p with None => true | Some _ => false end.

Definition resolve_address (host port : string) : Z * option diagnostic :=
  let '(err, res) := getaddrinfo host port in
  if negb (err =? 0) || negb res
  then (-1, Some (FailedToResolve host port))
  else (0, None).

(** [main] from the option loop to the call of [resolve_address]. *)
Definition main_plan (opts : list option_t) (argv : list string) : plan :=
  match main_options opts None false with
  | inl leave => leave
  | inr (certs, pkey) =>
      let mismatch :=
        if negb (is_null certs) || pkey then is_null certs || negb pkey
        else false in
      if mismatch then Exit 1 (Some UsedTogether)
      else
        let '(host, argv) :=
          match argv with
          | a :: argv' => (a, argv')
          | [] => (if negb (is_null certs) then "0.0.0.0"%string
                   else "127.0.0.1"%string, argv)
          end in
        let port :=
          match argv with
          | a :: _ => a
          | [] => "8443"%string
          end in
        let '(r, said) := resolve_address host port in
        if negb (r =? 0) then Exit 1 said
        else Run (negb (is_null certs)) host port
  end.

Definition main (fuel : nat) (opts : list option_t) (argv : list string)
  : M Z :=
  match main_plan opts argv with
  | Exit status _ => ret status
  | Run server _ _ => main_dispatch server fuel
  end.

End Main.

(** Whether the options have a [-c], and a [-k]. *)
Definition has_c (opts : list option_t) : bool :=
  existsb (fun o => match o with OptC _ => true | _ => false end) opts.

Definition has_k (opts : list option_t) : bool :=
  existsb (fun o => match o with OptK _ => true | _ => false end) opts.

(** ** What the log tells *)

(** The bytes the descriptor [fd] took over, as the log tells: a write
    that returned [r > 0] took the first [r] bytes it was offered. *)
Fixpoint accepted (fd : Z) (evs : list event) : list byte :=
  match evs with
  | [] => []
  | EvWrite fd' buf r _ :: evs' =>
      (if (fd' =? fd) && (0 <? r) then span buf r else [])
        ++ accepted fd evs'
  | _ :: evs' => accepted fd evs'
  end.

(** A call of [write] on [fd]. *)
Definition is_write (fd : Z) (e : event) : Prop :=
  match e with EvWrite fd' _ _ _ => fd' = fd | _ => False end.

(** A write that a signal interrupted. *)
Definition interrupted (e : event) : Prop :=
  match e with EvWrite _ _ r err => r = -1 /\ err = EINTR | _ => False end.

(** A write that failed for good: a non-positive result that is not an
    interrupt. *)
Definition fatal (e : event) : Prop :=
  match e with
  | EvWrite _ _ r err => r <= 0 /\ ~ (r = -1 /\ err = EINTR)
  | _ => False
  end.

Definition only {A} (P : event -> Prop) (m : M A) : Prop :=
  forall w, exists evs,
    log (world_of (m w)) = log w ++ evs /\ Forall P evs.

(** A call of [read] on [fd]. *)
Definition is_read (fd : Z) (e : event) : Prop :=
  match e with EvRead fd' _ _ _ _ => fd' = fd | _ => False end.

(** The data of every read, of every handshake step the count consumed,
    and every shift, in the order of the log. *)
Definition read_data (e : event) : list (list byte) :=
  match e with EvRead _ _ _ _ d => [d] | _ => [] end.

Definition step_consumed (e : event) : list Z :=
  match e with EvHandshake _ _ _ _ c => [c] | _ => [] end.

Definition shift_of (e : event) : list (Z * Z) :=
  match e with EvMemmove src n => [(src, n)] | _ => [] end.

Definition last_of {A} (l : list A) : option A := last (map Some l) None.

Definition last_read (evs : list event) : option (list byte) :=
  last_of (flat_map read_data evs).

Definition last_consumed (evs : list event) : option Z :=
  last_of (flat_map step_consumed evs).

Definition shifts (evs : list event) : list (Z * Z) := flat_map shift_of evs.

(** An unsealing call the engine refused. *)
Definition refused (e : event) : Prop :=
  match e with EvReceive _ _ r _ _ => r <> 0 | _ => False end.

(** An unsealing call. *)
Definition is_receive (e : event) : Prop :=
  match e with EvReceive _ _ _ _ _ => True | _ => False end.

(** Every unsealing call in the log is offered exactly the bytes from the
    cursor on, of which some are left, the cursor starting at [input] with
    [inlen] bytes and moving past what each call consumed. *)
Fixpoint cursor_chain (input : list byte) (inlen : Z) (evs : list event)
  : Prop :=
  match evs with
  | [] => True
  | EvReceive _ sp _ _ c :: evs' =>
      inlen <> 0 /\ sp = span input inlen /\
      cursor_chain (advance input c) (inlen - c) evs'
  | _ :: evs' => cursor_chain input inlen evs'
  end.

(** Where the cursor is after the calls of the log. *)
Fixpoint cursor_after (input : list byte) (inlen : Z) (evs : list event)
  : list byte * Z :=
  match evs with
  | [] => (input, inlen)
  | EvReceive _ _ _ _ c :: evs' =>
      cursor_after (advance input c) (inlen - c) evs'
  | _ :: evs' => cursor_after input inlen evs'
  end.

(** The bytes the unsealing calls of the log consumed, together. *)
Fixpoint consumed_total (evs : list event) : Z :=
  match evs with
  | [] => 0
  | EvReceive _ _ _ _ c :: evs' => c + consumed_total evs'
  | _ :: evs' => consumed_total evs'
  end.

(** An engine that, offered [inlen] bytes, consumes at least one and at
    most all of them in every call it accepts. *)
Fixpoint well_behaved (inlen : Z) (rs : list receive_answer) : Prop :=
  match rs with
  | [] => True
  | a :: rs' =>
      inlen = 0 \/ rc_ret a <> 0 \/
      (1 <= rc_consumed a <= inlen /\
       well_behaved (inlen - rc_consumed a) rs')
  end.

(** The answers the unsealing calls of the log were given, in order. *)
Definition answer_of (e : event) : list receive_answer :=
  match e with
  | EvReceive _ _ r out c =>
      [{| rc_ret := r; rc_out := out; rc_consumed := c |}]
  | _ => []
  end.

Definition answers (evs : list event) : list receive_answer :=
  flat_map answer_of evs.

(** A script of the engine that lasts for [inlen] bytes: its answers go
    on until what the accepted calls consumed adds up to [inlen], or
    until one refuses. *)
Fixpoint suffices (inlen : Z) (rs : list receive_answer) : Prop :=
  match rs with
  | [] => inlen = 0
  | a :: rs' =>
      inlen = 0 \/ rc_ret a <> 0 \/ suffices (inlen - rc_consumed a) rs'
  end.





Definition is_select (e : event) : Prop :=
  match e with EvSelect _ _ _ _ _ => True | _ => False end.

(** Releasing the output buffer or the engine instance. *)
Definition is_release (e : event) : Prop :=
  match e with EvDispose | EvFree _ => True | _ => False end.

(** What the pump does: unsealing calls, writes to standard output and a
    diagnostic. *)
Definition pump_event (e : event) : Prop :=
  match e with
  | EvReceive _ _ _ _ _ | EvFprintf _ _ => True
  | EvWrite fd _ _ _ => fd = 1
  | _ => False
  end.

(** What the handshake driver does. *)
Definition handshake_event (fd : Z) (e : event) : Prop :=
  match e with
  | EvHandshake _ _ _ _ _ | EvFprintf _ _ | EvMemmove _ _ => True
  | EvWrite fd' _ _ _ | EvRead fd' _ _ _ _ => fd' = fd
  | _ => False
  end.

(** What the input-ready branch does: reads of standard input, the
    sealing call, writes to the socket and a diagnostic. *)
Definition input_event (fd : Z) (e : event) : Prop :=
  match e with
  | EvRead fd' _ _ _ _ => fd' = 0
  | EvSend _ _ _ _ _ | EvFprintf _ _ => True
  | EvWrite fd' _ _ _ => fd' = fd
  | _ => False
  end.

(** What the socket-ready branch does: reads of the socket and the pump. *)
Definition socket_event (fd : Z) (e : event) : Prop :=
  match e with
  | EvRead fd' _ _ _ _ => fd' = fd
  | _ => pump_event e
  end.

(** What happens between [ptls_new] and the label [Exit]. *)
Definition session_event (fd : Z) (e : event) : Prop :=
  handshake_event fd e \/ is_select e \/ input_event fd e \/ socket_event fd e.

(** The release events of a log, in order. *)
Definition releases (evs : list event) : list event :=
  filter (fun e => match e with EvDispose | EvFree _ => true | _ => false end)
    evs.

(** A read that returns a non-positive result: end of file or a failure. *)
Definition nonpositive (r : read_answer) : Prop :=
  match r with RData d => d = [] | RFail _ => True end.

(** What [handle_connection] does: the session between [ptls_new] and
    the two releases. *)
Definition connection_event (fd : Z) (e : event) : Prop :=
  match e with
  | EvNew _ | EvDispose | EvFree _ => True
  | _ => session_event fd e
  end.

(** A sealing call the engine accepted. *)
Definition sealed (e : event) : Prop :=
  match e with EvSend _ _ _ r _ => r = 0 | _ => False end.

(** A read of [fd] that delivered data. *)
Definition got_data (fd : Z) (e : event) : Prop :=
  match e with EvRead fd' _ r _ _ => fd' = fd /\ 0 < r | _ => False end.

(** ** Further vocabulary *)

(** ** Further vocabulary *)

(** A scripted answer to a write that is no failure for good: an interrupt,
    or at least one byte accepted. *)
Definition benign (a : write_answer) : Prop :=
  match a with WAccept n => (0 < n)%nat | WFail e => e = EINTR end.

(** A read answer that delivers exactly one byte when [cap] are asked for. *)
Definition one_byte (cap : Z) (a : read_answer) : Prop :=
  match a with RData d => len_of (span d cap) = 1 | RFail _ => False end.

(** An answer of [select] that reports neither standard input nor [fd]
    ready: a failure, whatever the errno, or a set without the two. *)
Definition idle (fd : Z) (a : select_answer) : Prop :=
  match a with
  | SelFail _ => True
  | SelReady ready => Zmem 0 ready = false /\ Zmem fd ready = false
  end.

(** A computation that emits only events of a kind and, when it finishes,
    does so with a result of a kind. *)
Definition emits {A} (P : event -> Prop) (Q : A -> Prop) (m : M A) : Prop :=
  forall w, exists evs,
    log (world_of (m w)) = log w ++ evs /\ Forall P evs /\
    match m w with Done a _ => Q a | Stuck _ _ => True end.

(** An engine call that appends to the outbound buffer and finds it
    empty (any other event counts as such). *)
Definition drained (e : event) : Prop :=
  match e with
  | EvHandshake o _ _ _ _ | EvSend o _ _ _ _ => o = 0
  | _ => True
  end.

(** A read that stores within an array of [size] bytes: it asks for no
    more than the array holds and returns no more than it asked for. *)
Definition read_fits (size : Z) (e : event) : Prop :=
  match e with
  | EvRead _ cap r _ d => 0 <= cap <= size /\ r <= cap /\ len_of d <= cap
  | _ => True
  end.

(** A shift [memmove(p, p + src, n)] whose source span lies within an
    array of [size] bytes. *)
Definition shift_fits (size : Z) (e : event) : Prop :=
  match e with
  | EvMemmove src n => 0 <= src /\ 0 <= n /\ src + n <= size
  | _ => True
  end.

(** A handshake step that consumed no more than it was offered. *)
Definition within (e : event) : Prop :=
  match e with
  | EvHandshake _ inp _ _ c => 0 <= c <= len_of inp
  | _ => True
  end.

(** A sealing call. *)
Definition is_seal (e : event) : Prop :=
  match e with EvSend _ _ _ _ _ => True | _ => False end.

(** A property [R] of every event of a log and what precedes it. *)
Definition at_each (R : list event -> event -> Prop) (evs : list event)
  : Prop :=
  forall pre e post, evs = pre ++ e :: post -> R pre e.

(** Every handshake step of the log is offered exactly the data of the
    latest read before it, [cur] when there is none. *)
Fixpoint fed (cur : list byte) (evs : list event) : Prop :=
  match evs with
  | [] => True
  | EvHandshake _ inp _ _ _ :: evs' => inp = cur /\ fed cur evs'
  | EvRead _ _ _ _ d :: evs' => fed d evs'
  | _ :: evs' => fed cur evs'
  end.

(** The data of the latest read of the log, [cur] when there is none. *)
Fixpoint latest (cur : list byte) (evs : list event) : list byte :=
  match evs with
  | [] => cur
  | EvRead _ _ _ _ d :: evs' => latest d evs'
  | _ :: evs' => latest cur evs'
  end.

(** What the handshake steps of the log produced, together. *)
Fixpoint hs_output (evs : list event) : list byte :=
  match evs with
  | [] => []
  | EvHandshake _ _ _ out _ :: evs' => out ++ hs_output evs'
  | _ :: evs' => hs_output evs'
  end.

(** A read of [fd] that finds everything the handshake steps produced
    before it already taken over by [fd]. *)
Definition reads_after_flush (fd : Z) (pre : list event) (e : event) : Prop :=
  is_read fd e -> accepted fd pre = hs_output pre.

(** Engine answers whose output fits a [size_t] offset. *)
Definition steps_fit (hs : list handshake_answer) : Prop :=
  Forall (fun a => len_of (hs_out a) < 2 ^ 64) hs.

(** A computation that leaves the component [f] of the world alone. *)
Definition keeps {A X} (f : World -> X) (m : M A) : Prop :=
  forall w, f (world_of (m w)) = f w.

(** What sends a session to [Exit]: a write that failed for good, a read
    that returned a non-positive result, or a diagnostic with the status
    the engine refused with. *)
Definition exit_cause (e : event) : Prop :=
  match e with
  | EvWrite _ _ _ _ => fatal e
  | EvRead _ _ r _ _ => r <= 0
  | EvFprintf _ c => c <> 0
  | _ => False
  end.

(** The log of [w'] is that of [w] and more, ending in a cause. *)
Definition ends_with_cause (w w' : World) : Prop :=
  exists pre e, log w' = log w ++ pre ++ [e] /\ exit_cause e.

(** The log of [w'] is that of [w] and more. *)
Definition extends (w w' : World) : Prop :=
  exists evs, log w' = log w ++ evs.

(** The connections the log shows accepted, and those it shows closed. *)
Definition conn_of (e : event) : list Z :=
  match e with EvAccept _ r => if r =? -1 then [] else [r] | _ => [] end.

Definition close_of (e : event) : list Z :=
  match e with EvClose fd => [fd] | _ => [] end.

Definition conns (evs : list event) : list Z := flat_map conn_of evs.
Definition closed (evs : list event) : list Z := flat_map close_of evs.

(** The engine instances of the log are created without a peer name. *)
Definition unnamed (e : event) : Prop :=
  match e with EvNew t => t = Tls None | _ => True end.

(** The four ways the set-up of the server fails, as the log shows them:
    the calls made, the last of which failed, and the report. *)
Definition setup_failure (evs : list event) : Prop :=
  evs = [EvSocket (-1); EvPerror "socket(2) failed"] \/
  (exists s r, s <> -1 /\ r <> 0 /\
     evs = [EvSocket s; EvSetsockopt s r;
            EvPerror "setsockopt(SO_REUSEADDR) failed"]) \/
  (exists s r, s <> -1 /\ r <> 0 /\
     evs = [EvSocket s; EvSetsockopt s 0; EvBind s r;
            EvPerror "bind(2) failed"]) \/
  (exists s r, s <> -1 /\ r <> 0 /\
     evs = [EvSocket s; EvSetsockopt s 0; EvBind s 0; EvListen s r;
            EvPerror "listen(2) failed"]).

(** ** Worlds for concrete runs *)

Definition hi : list byte := list_byte_of_string "hi".
Definition hello : list byte := list_byte_of_string "hello".
Definition abcdefg : list byte := list_byte_of_string "abcdefg".

(** A descriptor that is interrupted twice and writes short. *)
Definition w_short : World :=
  set_writes [WFail 4; WAccept 2; WFail 4; WAccept 1] quiet.

(** A handshake of two steps whose last read brings seven bytes, three of
    which the engine consumes. *)
Definition w_hs : World :=
  set_handshakes
    [{| hs_ret := 514; hs_out := hello; hs_consumed := 0 |};
     {| hs_ret := 0; hs_out := []; hs_consumed := 3 |}]
    (set_reads [RData abcdefg] quiet).

(** An engine that unseals seven bytes in three calls, the second of
    which produces nothing. *)
Definition w_pump : World :=
  set_receives
    [{| rc_ret := 0; rc_out := hi; rc_consumed := 3 |};
     {| rc_ret := 0; rc_out := []; rc_consumed := 2 |};
     {| rc_ret := 0; rc_out := hello; rc_consumed := 2 |}]
    (set_writes [WAccept 1] quiet).

(** A whole session: the handshake of [w_hs], four leftover bytes
    unsealed at once, then the peer closes. *)
Definition w_session : World :=
  set_receives [{| rc_ret := 0; rc_out := hello; rc_consumed := 4 |}]
    (set_selects [SelReady [7]]
       (set_reads [RData abcdefg; RData []] w_hs)).

(** A wake-up with both descriptors ready. *)
Definition w_both : World :=
  set_selects [SelReady [0; 7]]
    (set_reads [RData hi; RData abcdefg]
       (set_sends [{| sd_ret := 0; sd_out := hello |}]
          (set_receives [{| rc_ret := 0; rc_out := hi; rc_consumed := 7 |}]
             quiet))).

(** The peer closes while the socket alone is ready. *)
Definition w_eof : World :=
  set_selects [SelReady [7]] (set_reads [RData []] quiet).

(** The socket read of the streaming loop is interrupted by a signal (errno 4
    is EINTR on Linux) while two bytes are still to come; and the same for
    the read of standard input. *)
Definition w_eintr : World :=
  set_handshakes [{| hs_ret := 0; hs_out := []; hs_consumed := 0 |}]
    (set_selects [SelReady [7]] (set_reads [RFail 4; RData hi] quiet)).

Definition w_eintr_stdin : World :=
  set_handshakes [{| hs_ret := 0; hs_out := []; hs_consumed := 0 |}]
    (set_selects [SelReady [0]]
       (set_reads [RFail 4; RData hi]
          (set_sends [{| sd_ret := 0; sd_out := hi |}] quiet))).

(** A client whose [socket] returns 1, one whose [socket] returns -1, and
    one whose handshake the engine rejects with alert 40. *)
Definition w_socket_1 : World := set_sockets [1] quiet.
Definition w_socket_m1 : World := set_sockets [-1] (set_connects [-1] quiet).
Definition w_rejected : World :=
  set_sockets [3]
    (set_connects [0]
       (set_handshakes [{| hs_ret := 40; hs_out := []; hs_consumed := 0 |}]
          quiet)).

(** Two interrupts before the read of the handshake gets its data. *)
Definition w_interrupted_twice : World :=
  set_reads [RFail 4; RFail 4; RData hi] quiet.

(** Two reads of one byte each while [errno] still holds 4 from an
    earlier call, then a read of two bytes. *)
Definition ab : list byte := list_byte_of_string "ab".
Definition w_single_bytes : World :=
  set_errno 4 (set_reads (map (fun b => RData [b]) ab ++ [RData hi]) quiet).

(** Two wake-ups that have nothing for the session, then the peer
    closes. *)
Definition w_idle : World :=
  set_selects [SelFail 4; SelReady [9]; SelReady [7]]
    (set_reads [RData []] quiet).

(** Standard input alone is ready, with two bytes. *)
Definition w_input_only : World :=
  set_selects [SelReady [0]]
    (set_reads [RData hi]
       (set_sends [{| sd_ret := 0; sd_out := hello |}] quiet)).

(** The handshake of [w_hs], and standard input ready with seven bytes. *)
Definition w_size : World :=
  set_selects [SelReady [0]]
    (set_sends [{| sd_ret := 0; sd_out := hello |}] w_hs).

(** Standard input is at its end. *)
Definition w_stdin_eof : World :=
  set_reads [RData []] (set_sends [{| sd_ret := 0; sd_out := hello |}] quiet).

(** A server whose [socket] fails. *)
Definition w_no_socket : World := set_sockets [-1] quiet.

(** Files that hold one certificate and a key, and a resolver that
    resolves everything. *)
Definition fopen_any (path : string) : option pem_file :=
  Some {| pem_certs := 1; pem_key := true |}.

Definition getaddrinfo_any (host port : string) : Z * bool := (0, true).

(** ** Reasoning about computations *)

Lemma loop_S {S R} (fuel : nat) (body : S -> M (S + R)) (s : S) (w : World) :
  loop (Datatypes.S fuel) body s w =
  match body s w with
  | Done (inl s') w' => loop fuel body s' w'
  | Done (inr r) w' => Done r w'
  | Stuck y w' => Stuck y w'
  end.
Proof.
  simpl. unfold bind. destruct (body s w) as [[s'|r] w'|y w']; reflexivity.
Qed.

(** Induction on the fuel with an invariant that may mention the fuel
    left. *)
Lemma loop_ind_fuel {S R} (body : S -> M (S + R))
    (I : nat -> S -> World -> Prop) (Q : outcome R -> Prop) :
  (forall s w, I O s w -> Q (Stuck OutOfFuel w)) ->
  (forall n s w, I (Datatypes.S n) s w ->
     match body s w with
     | Done (inl s') w' => I n s' w'
     | Done (inr r) w' => Q (Done r w')
     | Stuck y w' => Q (Stuck y w')
     end) ->
  forall fuel s w, I fuel s w -> Q (loop fuel body s w).
Proof.
  intros Hfuel Hbody fuel.
  induction fuel as [|fuel IH]; intros s w Hs.
  - simpl. eauto.
  - rewrite loop_S. specialize (Hbody fuel s w Hs).
    destruct (body s w) as [[s'|r] w'|y w']; auto.
Qed.

(** A loop that keeps an invariant: whatever the loop ends in satisfies
    [Q], provided running out of fuel at an invariant state does. *)
Lemma loop_inv {S R} (body : S -> M (S + R)) (I : S -> World -> Prop)
    (Q : outcome R -> Prop) :
  (forall s w, I s w -> Q (Stuck OutOfFuel w)) ->
  (forall s w, I s w ->
     match body s w with
     | Done (inl s') w' => I s' w'
     | Done (inr r) w' => Q (Done r w')
     | Stuck y w' => Q (Stuck y w')
     end) ->
  forall fuel s w, I s w -> Q (loop fuel body s w).
Proof.
  intros Hfuel Hbody fuel.
  induction fuel as [|fuel IH]; intros s w Hs; simpl.
  - eauto.
  - unfold bind. specialize (Hbody s w Hs).
    destruct (body s w) as [[s'|r] w'|y w']; auto.
Qed.

(** *** Lists and spans *)

Lemma span_firstn (p : list byte) (n : Z) : span p n = firstn (Z.to_nat n) p.
Proof.
  unfold span, len_of.
  destruct (Z.le_gt_cases n (Z.of_nat (length p))) as [H|H].
  - now rewrite Z.min_l.
  - rewrite Z.min_r, Nat2Z.id by lia. rewrite firstn_all.
    symmetry. apply firstn_all2. lia.
Qed.

Lemma advance_skipn (p : list byte) (n : Z) :
  advance p n = skipn (Z.to_nat n) p.
Proof.
  unfold advance, len_of.
  destruct (Z.le_gt_cases n (Z.of_nat (length p))) as [H|H].
  - now rewrite Z.min_l.
  - rewrite Z.min_r, Nat2Z.id by lia. rewrite skipn_all.
    symmetry. apply skipn_all2. lia.
Qed.

Lemma firstn_split_at {A} (a b : nat) (l : list A) :
  firstn (a + b) l = firstn a l ++ firstn b (skipn a l).
Proof.
  revert l. induction a as [|a IH]; intros [|x l]; simpl; auto.
  - now rewrite firstn_nil.
  - now rewrite IH.
Qed.

Lemma span_split (p : list byte) (n k : Z) :
  0 <= k <= n ->
  span p n = span p k ++ span (advance p k) (n - k).
Proof.
  intros H. rewrite !span_firstn, advance_skipn.
  replace (Z.to_nat n) with (Z.to_nat k + Z.to_nat (n - k))%nat by lia.
  apply firstn_split_at.
Qed.

Lemma span_span (p : list byte) (n k : Z) :
  0 <= k <= n -> span (span p n) k = span p k.
Proof.
  intros H. rewrite !span_firstn. rewrite firstn_firstn. f_equal. lia.
Qed.

Lemma span_zero (p : list byte) : span p 0 = [].
Proof. now rewrite span_firstn. Qed.

Lemma span_all (p : list byte) : span p (len_of p) = p.
Proof.
  rewrite span_firstn. unfold len_of. rewrite Nat2Z.id. apply firstn_all.
Qed.

Lemma size_t_small (z : Z) : 0 <= z < 2 ^ 64 -> size_t z = z.
Proof. intros H. unfold size_t. now apply Z.mod_small. Qed.

(** *** The log *)

Lemma accepted_app (fd : Z) (l1 l2 : list event) :
  accepted fd (l1 ++ l2) = accepted fd l1 ++ accepted fd l2.
Proof.
  induction l1 as [|e l1 IH]; simpl; auto.
  destruct e; auto. now rewrite IH, app_assoc.
Qed.

(** *** [write_all] *)

Lemma write_retry_spec (fuel : nat) (fd : Z) (data : list byte) (len : Z)
    (w : World) :
  0 <= len ->
  exists pre,
    Forall interrupted pre /\ Forall (is_write fd) pre /\
    match write_retry fuel fd data len w with
    | Done r w' =>
        exists err,
          log w' = log w ++ pre ++ [EvWrite fd (span data len) r err] /\
          ~ (r = -1 /\ err = EINTR) /\
          (r = -1 \/ 0 <= r <= len) /\
          receives w' = receives w /\
          ((length (writes w') < length (writes w))%nat \/
           (writes w' = [] /\ r = len))
    | Stuck y w' =>
        y = OutOfFuel /\ log w' = log w ++ pre /\
        receives w' = receives w /\ (fuel <= length (writes w))%nat /\
        (length (writes w') <= length (writes w))%nat
    end.
Proof.
  intros Hlen. unfold write_retry. revert w.
  induction fuel as [|fuel IH]; intros w.
  - exists []. simpl. rewrite app_nil_r. repeat split; auto. lia.
  - rewrite loop_S. unfold write_retry_body at 1.
    unfold bind, sys_write, get_errno.
    destruct (writes w) as [|[n|e] rest] eqn:Ew; cbn [errno emit set_writes set_errno].
    + (* nothing scripted: everything is accepted *)
      destruct ((len =? -1) && (errno w =? EINTR)) eqn:Ec.
      { apply andb_true_iff in Ec. lia. }
      exists []. simpl. repeat split; auto.
      exists (errno w). repeat split; auto; try lia.
    + destruct ((Z.min (Z.of_nat n) len =? -1) && (errno w =? EINTR)) eqn:Ec.
      { apply andb_true_iff in Ec. destruct Ec as [Ec _]. apply Z.eqb_eq in Ec. lia. }
      exists []. simpl. repeat split; auto.
      exists (errno w). simpl. repeat split; auto; try lia.
    + rewrite Z.eqb_refl. simpl.
      destruct (e =? EINTR) eqn:Ee.
      * simpl.
        match goal with |- context [loop fuel _ tt ?w'] =>
          destruct (IH w') as (pre & Hi & Hw & Hm) end.
        apply Z.eqb_eq in Ee. subst e.
        exists (EvWrite fd (span data len) (-1) EINTR :: pre).
        split; [constructor; simpl; auto|].
        split; [constructor; simpl; auto|].
        match goal with |- context [loop fuel ?b tt ?w'] =>
          destruct (loop fuel b tt w') as [r w''|y w''] end.
        -- destruct Hm as (err & Hl & Hn & Hr & Hrc & Hws).
           exists err. simpl in *. rewrite Hl, <- !app_assoc. simpl.
           repeat split; auto. destruct Hws; [left; lia|right; auto].
        -- destruct Hm as (Hy & Hl & Hrc & Hf & Hws). simpl in *.
           rewrite Hl, <- !app_assoc. simpl. repeat split; auto; lia.
      * simpl. exists []. simpl. repeat split; auto.
        exists e. simpl. repeat split; auto; try lia.
Qed.

Lemma interrupted_not_fatal (e : event) : interrupted e -> ~ fatal e.
Proof. destruct e; simpl; tauto. Qed.

Lemma accepted_interrupted (fd : Z) (evs : list event) :
  Forall interrupted evs -> accepted fd evs = [].
Proof.
  induction 1 as [|e evs He _ IH]; simpl; auto.
  destruct e; simpl in He; try tauto.
  destruct He as [-> _]. rewrite IH.
  now rewrite andb_false_r.
Qed.

(** What [write_all] does, for every script of the descriptor. *)
Lemma write_all_spec (fuel : nat) (fd : Z) (data : list byte) (len : Z)
    (w : World) :
  0 <= len ->
  exists evs,
    log (world_of (write_all fuel fd data len w)) = log w ++ evs /\
    Forall (is_write fd) evs /\
    receives (world_of (write_all fuel fd data len w)) = receives w /\
    (length (writes (world_of (write_all fuel fd data len w)))
     <= length (writes w))%nat /\
    match write_all fuel fd data len w with
    | Done r w' =>
        (r = 0 /\ Forall (fun e => ~ fatal e) evs /\
         (len < 2 ^ 64 -> accepted fd evs = span data len)) \/
        (r = -1 /\
         exists pre e,
           evs = pre ++ [e] /\ Forall (fun e => ~ fatal e) pre /\ fatal e /\
           (len < 2 ^ 64 ->
            exists rest, span data len = accepted fd evs ++ rest))
    | Stuck y w' =>
        y = OutOfFuel /\ (fuel <= length (writes w) + 1)%nat /\
        Forall (fun e => ~ fatal e) evs /\
        (len < 2 ^ 64 -> exists rest, span data len = accepted fd evs ++ rest)
    end.
Proof.
  intros Hlen. unfold write_all.
  set (Q := fun o : outcome Z =>
    exists evs,
      log (world_of o) = log w ++ evs /\
      Forall (is_write fd) evs /\
      receives (world_of o) = receives w /\
      (length (writes (world_of o)) <= length (writes w))%nat /\
      match o with
      | Done r w' =>
          (r = 0 /\ Forall (fun e => ~ fatal e) evs /\
           (len < 2 ^ 64 -> accepted fd evs = span data len)) \/
          (r = -1 /\
           exists pre e,
             evs = pre ++ [e] /\ Forall (fun e => ~ fatal e) pre /\
             fatal e /\
             (len < 2 ^ 64 ->
              exists rest, span data len = accepted fd evs ++ rest))
      | Stuck y w' =>
          y = OutOfFuel /\ (fuel <= length (writes w) + 1)%nat /\
          Forall (fun e => ~ fatal e) evs /\
          (len < 2 ^ 64 ->
           exists rest, span data len = accepted fd evs ++ rest)
      end).
  change (Q (loop fuel (write_all_body fuel fd) (data, len) w)).
  set (I := fun (n : nat) (st : list byte * Z) (wc : World) =>
    0 <= snd st /\
    exists evs,
      log wc = log w ++ evs /\
      Forall (is_write fd) evs /\
      Forall (fun e => ~ fatal e) evs /\
      receives wc = receives w /\
      (len < 2 ^ 64 ->
       snd st < 2 ^ 64 /\
       span data len = accepted fd evs ++ span (fst st) (snd st)) /\
      (length (writes wc) <= length (writes w))%nat /\
      ((fuel <= length (writes w) + 1)%nat \/
       (length (writes wc) + (if (snd st =? 0)%Z then 0 else 1) < n)%nat)).
  apply (loop_ind_fuel _ I Q).
  - (* out of fuel *)
    intros [d l] wc (Hl & evs & Hlog & Hw & Hnf & Hrc & Hsp & Hws & Hf).
    exists evs. simpl in *. repeat split; auto.
    + destruct Hf; [auto|lia].
    + intros Hb. destruct (Hsp Hb). eauto.
  - (* one turn *)
    intros n [d l] wc (Hl & evs & Hlog & Hw & Hnf & Hrc & Hsp & Hws & Hf).
    simpl in Hl, Hsp, Hf. unfold write_all_body.
    destruct (l =? 0) eqn:El.
    + apply Z.eqb_eq in El. subst l. unfold break, ret.
      exists evs. simpl. repeat split; auto. left.
      repeat split; auto. intros Hb. destruct (Hsp Hb) as [_ Hs].
      rewrite span_zero, app_nil_r in Hs. auto.
    + apply Z.eqb_neq in El. unfold bind.
      destruct (write_retry_spec fuel fd d l wc) as (pre & Hpi & Hpw & Hm);
        [lia|].
      destruct (write_retry fuel fd d l wc) as [r w'|y w'].
      * destruct Hm as (err & Hl' & Hne & Hr & Hrc' & Hws').
        assert (Hq : log w' = log w ++ (evs ++ pre) ++
                               [EvWrite fd (span d l) r err]).
        { rewrite Hl', Hlog, <- !app_assoc. reflexivity. }
        assert (Hnf' : Forall (fun e => ~ fatal e) (evs ++ pre)).
        { apply Forall_app. split; auto.
          eapply Forall_impl; [|exact Hpi]. apply interrupted_not_fatal. }
        assert (Hac : accepted fd (evs ++ pre) = accepted fd evs).
        { rewrite accepted_app, (accepted_interrupted fd pre), app_nil_r; auto. }
        assert (Hws2 : (length (writes w') <= length (writes w))%nat).
        { destruct Hws' as [?|[-> _]]; simpl; lia. }
        destruct (r <=? 0) eqn:Er.
        -- apply Z.leb_le in Er. unfold break, ret.
           eexists. simpl. split; [exact Hq|].
           split. { apply Forall_app. split. apply Forall_app; auto.
                    constructor; simpl; auto. }
           split. { congruence. }
           split; auto.
           right. split; [lia|].
           exists (evs ++ pre), (EvWrite fd (span d l) r err).
           repeat split; auto.
           intros Hb. destruct (Hsp Hb) as [_ Hs]. exists (span d l).
           rewrite accepted_app, Hac. simpl.
           replace (0 <? r) with false by (symmetry; apply Z.ltb_ge; lia).
           rewrite andb_false_r. simpl. rewrite app_nil_r. auto.
        -- apply Z.leb_gt in Er. unfold continue, ret.
           assert (Hr' : 0 < r <= l) by lia.
           assert (Hm0 : 0 <= size_t (l - r)).
           { unfold size_t. apply Z.mod_pos_bound. lia. }
           split; [simpl; lia|].
           eexists. simpl. split; [exact Hq|].
           split. { apply Forall_app. split. apply Forall_app; auto.
                    constructor; simpl; auto. }
           split. { apply Forall_app. split; auto. constructor; auto.
                    simpl. lia. }
           split. { congruence. }
           split. { intros Hb. destruct (Hsp Hb) as [Hlb Hs].
                    rewrite size_t_small by lia. split; [lia|].
                    rewrite accepted_app, Hac. simpl.
                    rewrite Z.eqb_refl.
                    replace (0 <? r) with true by (symmetry; apply Z.ltb_lt; lia).
                    simpl. rewrite app_nil_r, span_span by lia.
                    rewrite <- app_assoc, <- span_split by lia. auto. }
           split; auto.
           destruct Hf as [?|Hf]; [left; auto|right].
           destruct Hws' as [?|[-> ->]].
           ++ destruct (l =? 0), (size_t (l - r) =? 0); lia.
           ++ rewrite Z.sub_diag. change (size_t 0) with 0. simpl.
              destruct (l =? 0); lia.
      * destruct Hm as (-> & Hl' & Hrc' & Hfu & Hws').
        exists (evs ++ pre). simpl. rewrite Hl', Hlog, app_assoc.
        split; auto. split. { apply Forall_app; auto. }
        split. { congruence. }
        split. { lia. }
        split; auto. split. { lia. }
        split. { apply Forall_app. split; auto.
                 eapply Forall_impl; [|exact Hpi]. apply interrupted_not_fatal. }
        intros Hb. destruct (Hsp Hb) as [_ Hs].
        exists (span d l). rewrite accepted_app, (accepted_interrupted fd pre), app_nil_r; auto.
  - (* at the start *)
    split; [simpl; lia|]. exists []. simpl. rewrite app_nil_r.
    repeat split; auto; try lia.
    destruct (Nat.le_gt_cases fuel (length (writes w) + 1)); [left; auto|right].
    destruct (len =? 0); lia.
Qed.

(** C2.  For every byte sequence and every script of interrupts, short
    writes and failures of the descriptor, [write_all] returns, and either
    it returns 0 and the descriptor took over exactly the bytes of the
    sequence, once each and in order, no write having failed for good; or
    it returns -1, the last write made is the first that reported a
    non-positive result other than an interrupt, and what the descriptor
    took over before is a prefix of the sequence. *)
Theorem write_all_complete (fuel : nat) (fd : Z) (data : list byte)
    (w : World) :
  len_of data < 2 ^ 64 ->
  (length (writes w) + 1 < fuel)%nat ->
  exists r w' evs,
    write_all fuel fd data (len_of data) w = Done r w' /\
    log w' = log w ++ evs /\
    Forall (is_write fd) evs /\
    ((r = 0 /\ accepted fd evs = data /\ Forall (fun e => ~ fatal e) evs) \/
     (r = -1 /\
      exists pre e rest,
        evs = pre ++ [e] /\ Forall (fun e => ~ fatal e) pre /\ fatal e /\
        data = accepted fd evs ++ rest)).
Proof.
  intros Hlen Hfuel.
  destruct (write_all_spec fuel fd data (len_of data) w)
    as (evs & Hlog & Hw & _ & _ & Hm).
  { unfold len_of in *. lia. }
  rewrite span_all in Hm.
  destruct (write_all fuel fd data (len_of data) w) as [r w'|y w'].
  - exists r, w', evs. simpl in Hlog. repeat split; auto.
    destruct Hm as [(-> & Hnf & Hac)|(-> & pre & e & -> & Hnf & Hfa & Hr)].
    + left. auto.
    + right. split; auto. destruct (Hr Hlen) as (rest & Hrest).
      exists pre, e, rest. auto.
  - destruct Hm as (_ & Hf & _). lia.
Qed.

(** *** Computations that emit only events of a kind *)

Lemma only_ret {A} (P : event -> Prop) (a : A) : only P (ret a).
Proof. intros w. exists []. simpl. now rewrite app_nil_r. Qed.

Lemma only_bind {A B} (P : event -> Prop) (m : M A) (k : A -> M B) :
  only P m -> (forall a, only P (k a)) -> only P (bind m k).
Proof.
  intros Hm Hk w. unfold bind.
  destruct (Hm w) as (e1 & H1 & F1).
  destruct (m w) as [a w'|y w']; simpl in *.
  - destruct (Hk a w') as (e2 & H2 & F2).
    exists (e1 ++ e2). rewrite H2, H1, app_assoc. split; auto.
    apply Forall_app; auto.
  - exists e1; auto.
Qed.

Lemma only_loop {S R} (P : event -> Prop) (body : S -> M (S + R))
    (fuel : nat) (s : S) :
  (forall s, only P (body s)) -> only P (loop fuel body s).
Proof.
  intros Hb. revert s. induction fuel as [|fuel IH]; intros s.
  - intros w. exists []. simpl. now rewrite app_nil_r.
  - simpl. apply only_bind; auto.
    intros [s'|r]; [apply IH|apply only_ret].
Qed.

Lemma only_weaken {A} (P P' : event -> Prop) (m : M A) :
  (forall e, P e -> P' e) -> only P m -> only P' m.
Proof.
  intros HP Hm w. destruct (Hm w) as (evs & H & F).
  exists evs; split; auto. eapply Forall_impl; eauto.
Qed.

Lemma only_sys_write (fd : Z) (data : list byte) (len : Z) :
  only (is_write fd) (sys_write fd data len).
Proof.
  intros w. unfold sys_write.
  destruct (writes w) as [|[n|e] rest]; simpl;
    (eexists [_]; split; [reflexivity|constructor; simpl; auto]).
Qed.

Lemma only_get_errno (P : event -> Prop) : only P get_errno.
Proof. intros w. exists []. simpl. now rewrite app_nil_r. Qed.

Lemma only_write_retry (fuel : nat) (fd : Z) (data : list byte) (len : Z) :
  only (is_write fd) (write_retry fuel fd data len).
Proof.
  apply only_loop. intros u. unfold write_retry_body.
  apply only_bind; [apply only_sys_write|intros r].
  apply only_bind; [apply only_get_errno|intros e].
  destruct (_ && _); apply only_ret.
Qed.

Lemma only_write_all (fuel : nat) (fd : Z) (data : list byte) (len : Z) :
  only (is_write fd) (write_all fuel fd data len).
Proof.
  apply only_loop. intros [d l]. unfold write_all_body.
  destruct (l =? 0); [apply only_ret|].
  apply only_bind; [apply only_write_retry|intros r].
  destruct (r <=? 0); apply only_ret.
Qed.

(** *** Reads *)

Lemma last_of_snoc {A} (l : list A) (x : A) : last_of (l ++ [x]) = Some x.
Proof. unfold last_of. rewrite map_app. simpl. apply last_last. Qed.

Lemma flat_map_none {A B} (f : A -> list B) (P : A -> Prop) (l : list A) :
  (forall a, P a -> f a = []) -> Forall P l -> flat_map f l = [].
Proof.
  intros Hf. induction 1 as [|a l Ha _ IH]; simpl; auto.
  now rewrite (Hf a Ha), IH.
Qed.

Lemma span_blit (b d : list byte) : span (blit b d) (len_of d) = d.
Proof.
  rewrite span_firstn. unfold blit, len_of. rewrite Nat2Z.id.
  rewrite firstn_app, firstn_all, Nat.sub_diag. simpl. apply app_nil_r.
Qed.

Lemma len_span (p : list byte) (n : Z) : 0 <= len_of (span p n) <= Z.max 0 n.
Proof.
  rewrite span_firstn. unfold len_of.
  pose proof (firstn_le_length (Z.to_nat n) p). lia.
Qed.

Lemma read_retry_spec (sentinel : Z) (fuel : nat) (fd : Z) (buf : list byte)
    (cap : Z) (w : World) :
  0 <= cap ->
  exists pre,
    Forall (is_read fd) pre /\
    match read_retry sentinel fuel fd buf cap w with
    | Done (r, buf') w' =>
        exists err d,
          log w' = log w ++ pre ++ [EvRead fd cap r err d] /\
          ~ (r = sentinel /\ err = EINTR) /\
          (r = -1 \/
           (0 <= r <= cap /\ r = len_of d /\ exists b, buf' = blit b d))
    | Stuck y w' => log w' = log w ++ pre
    end.
Proof.
  intros Hcap. unfold read_retry. revert buf w.
  induction fuel as [|fuel IH]; intros buf w.
  - exists []. simpl. rewrite app_nil_r. auto.
  - rewrite loop_S. unfold read_retry_body at 1.
    unfold bind, sys_read, get_errno.
    destruct (reads w) as [|[d|e] rest] eqn:Er;
      cbn [errno emit set_reads set_errno].
    + exists []. simpl. rewrite app_nil_r. auto.
    + destruct ((len_of (span d cap) =? sentinel) && (errno w =? EINTR))
        eqn:Ec; cbn [continue break ret].
      * match goal with |- context [loop fuel _ ?b ?w'] =>
          destruct (IH b w') as (pre & Hp & Hm) end.
        exists (EvRead fd cap (len_of (span d cap)) (errno w) (span d cap) :: pre).
        split; [constructor; simpl; auto|].
        match goal with |- context [loop fuel ?f ?b ?w'] =>
          destruct (loop fuel f b w') as [[r b'] w''|y w''] end.
        -- destruct Hm as (err & d' & Hl & Hn & Hr). exists err, d'.
           simpl in Hl. rewrite Hl, <- !app_assoc. auto.
        -- simpl in Hm. rewrite Hm, <- !app_assoc. auto.
      * exists []. split; auto. exists (errno w), (span d cap).
        simpl. repeat split; auto.
        { apply andb_false_iff in Ec. lia. }
        right. pose proof (len_span d cap). repeat split; eauto; lia.
    + destruct ((-1 =? sentinel) && (e =? EINTR)) eqn:Ec;
        cbn [continue break ret].
      * match goal with |- context [loop fuel _ ?b ?w'] =>
          destruct (IH b w') as (pre & Hp & Hm) end.
        exists (EvRead fd cap (-1) e [] :: pre).
        split; [constructor; simpl; auto|].
        match goal with |- context [loop fuel ?f ?b ?w'] =>
          destruct (loop fuel f b w') as [[r b'] w''|y w''] end.
        -- destruct Hm as (err & d' & Hl & Hn & Hr). exists err, d'.
           simpl in Hl. rewrite Hl, <- !app_assoc. auto.
        -- simpl in Hm. rewrite Hm, <- !app_assoc. auto.
      * exists []. split; auto. exists e, [].
        simpl. repeat split; auto.
        apply andb_false_iff in Ec. lia.
Qed.

(** *** [run_handshake] *)

Lemma leftover_shift (pin d : list byte) (C : Z) :
  span pin (len_of d) = d -> 0 <= C <= len_of d ->
  span (blit pin (span (advance pin C) (len_of d - C))) (len_of d - C)
  = advance d C.
Proof.
  intros Hd HC.
  assert (HX : span (advance pin C) (len_of d - C) = advance d C).
  { rewrite <- Hd at 2. rewrite !span_firstn, !advance_skipn.
    rewrite skipn_firstn_comm. f_equal. unfold len_of in *. lia. }
  rewrite HX.
  assert (Hl : len_of d - C = len_of (advance d C)).
  { rewrite advance_skipn. unfold len_of in *. rewrite length_skipn. lia. }
  rewrite Hl. apply span_blit.
Qed.

Lemma shifts_app (l1 l2 : list event) : shifts (l1 ++ l2) = shifts l1 ++ shifts l2.
Proof. apply flat_map_app. Qed.

Lemma shifts_writes (fd : Z) (l : list event) :
  Forall (is_write fd) l -> shifts l = [].
Proof. apply flat_map_none. intros [] H; simpl in *; tauto. Qed.

Lemma shifts_reads (fd : Z) (l : list event) :
  Forall (is_read fd) l -> shifts l = [].
Proof. apply flat_map_none. intros [] H; simpl in *; tauto. Qed.

Lemma run_handshake_spec (fuel : nat) (fd : Z) (tls : ptls_t)
    (wbuf : ptls_buffer_t) (buf : list byte) (bufsz : Z) (w : World) :
  0 <= bufsz < 2 ^ 64 ->
  match run_handshake fuel fd tls wbuf buf bufsz w with
  | Done (r, wbuf', buf', len') w' =>
      r = 0 ->
      exists evs,
        log w' = log w ++ evs /\
        forall d C,
          last_read evs = Some d -> last_consumed evs = Some C ->
          0 <= C <= len_of d ->
          len' = len_of d - C /\
          span buf' len' = advance d C /\
          (C = len_of d -> shifts evs = []) /\
          (C < len_of d -> shifts evs = [(C, len_of d - C)])
  | Stuck _ _ => True
  end.
Proof.
  intros Hsz. unfold run_handshake.
  set (Q := fun o : outcome hs_result =>
    match o with
    | Done (r, wbuf', buf', len') w' =>
        r = 0 ->
        exists evs,
          log w' = log w ++ evs /\
          forall d C,
            last_read evs = Some d -> last_consumed evs = Some C ->
            0 <= C <= len_of d ->
            len' = len_of d - C /\
            span buf' len' = advance d C /\
            (C = len_of d -> shifts evs = []) /\
            (C < len_of d -> shifts evs = [(C, len_of d - C)])
    | Stuck _ _ => True
    end).
  match goal with |- match ?o with _ => _ end => change (Q o) end.
  set (I := fun (st : hs_state) (wc : World) =>
    let '(_, pin, _, rret) := st in
    exists evs,
      log wc = log w ++ evs /\ shifts evs = [] /\
      0 <= rret <= bufsz /\
      ((rret = 0 /\ last_read evs = None) \/
       (exists d, last_read evs = Some d /\ rret = len_of d /\
                  span pin rret = d))).
  apply (loop_inv _ I Q).
  - intros; exact Logic.I.
  - intros [[[wb pin] plen] rret] wc (evs & Hlog & Hsh & Hr & Hlast).
    unfold run_handshake_body, bind, ptls_handshake.
    destruct (handshakes wc) as [|a rest]; [exact Logic.I|].
    set (eh := EvHandshake (off wb) (span pin plen) (hs_ret a) (hs_out a)
                 (hs_consumed a)).
    set (w1 := emit eh (set_handshakes rest wc)).
    assert (Hl1 : log w1 = log w ++ evs ++ [eh]).
    { unfold w1. simpl. now rewrite Hlog, app_assoc. }
    clearbody w1.
    destruct (hs_ret a =? PTLS_ERROR_HANDSHAKE_IN_PROGRESS).
    + (* in progress *)
      destruct (only_write_all fuel fd (base (buffer_push wb (hs_out a)))
                  (off (buffer_push wb (hs_out a))) w1) as (wevs & Hl2 & Hww).
      destruct (write_all fuel fd _ _ w1) as [wr w2|y w2]; [|exact Logic.I].
      simpl in Hl2.
      destruct (wr =? 0); simpl; [|intros; lia].
      destruct (read_retry_spec (-1) fuel fd pin bufsz w2) as (pre & Hpr & Hm);
        [lia|].
      destruct (read_retry (-1) fuel fd pin bufsz w2) as [[r pin'] w3|y w3];
        [|exact Logic.I].
      destruct Hm as (err & d & Hl3 & _ & Hrd).
      destruct (r <=? 0) eqn:Er; simpl; [intros; lia|].
      apply Z.leb_gt in Er.
      destruct Hrd as [?|(Hrc & Hrl & b & ->)]; [lia|].
      exists (((evs ++ [eh]) ++ wevs ++ pre) ++ [EvRead fd bufsz r err d]).
      split. { rewrite Hl3, Hl2, Hl1, <- !app_assoc. reflexivity. }
      split. { rewrite !shifts_app, Hsh, (shifts_writes fd wevs),
                 (shifts_reads fd pre); auto. }
      split; [lia|]. right. exists d.
      split. { unfold last_read. rewrite flat_map_app. simpl.
               apply last_of_snoc. }
      split; auto. subst r. apply span_blit.
    + destruct (hs_ret a =? 0) eqn:E0; simpl.
      * (* success *)
        assert (Hsz' : size_t rret = rret) by (apply size_t_small; lia).
        rewrite Hsz'.
        assert (Hlr : forall tl, flat_map read_data tl = [] ->
                        last_read ((evs ++ [eh]) ++ tl) = last_read evs).
        { intros tl Htl. unfold last_read. rewrite !flat_map_app, Htl. simpl.
          now rewrite !app_nil_r. }
        assert (Hlc : forall tl, flat_map step_consumed tl = [] ->
                        last_consumed ((evs ++ [eh]) ++ tl)
                        = Some (hs_consumed a)).
        { intros tl Htl. unfold last_consumed.
          rewrite !flat_map_app, Htl, app_nil_r. simpl. apply last_of_snoc. }
        destruct (rret =? hs_consumed a) eqn:Ec; simpl; intros _.
        -- apply Z.eqb_eq in Ec.
           exists ((evs ++ [eh]) ++ []).
           split. { rewrite app_nil_r. exact Hl1. }
           intros d C Hd HC HCd.
           rewrite Hlr in Hd by reflexivity. rewrite Hlc in HC by reflexivity.
           injection HC as <-.
           destruct Hlast as [[_ Hn]|(d0 & Hd0 & Hrl & Hsp)]; [congruence|].
           assert (Hdd : d0 = d) by congruence.
           rewrite Hdd in Hrl, Hsp. clear Hdd Hd0 d0.
           replace (rret - hs_consumed a) with 0 by lia.
           change (size_t 0) with 0.
           split; [lia|]. split.
           { rewrite span_zero, advance_skipn. rewrite <- Ec, Hrl.
             unfold len_of. rewrite Nat2Z.id. symmetry. apply skipn_all. }
           split; [|lia]. intros _.
           rewrite app_nil_r, shifts_app, Hsh. reflexivity.
        -- apply Z.eqb_neq in Ec.
           exists ((evs ++ [eh]) ++
                   [EvMemmove (hs_consumed a) (size_t (rret - hs_consumed a))]).
           split. { simpl. rewrite Hl1, <- !app_assoc. reflexivity. }
           intros d C Hd HC HCd.
           rewrite Hlr in Hd by reflexivity. rewrite Hlc in HC by reflexivity.
           injection HC as <-.
           destruct Hlast as [[_ Hn]|(d0 & Hd0 & Hrl & Hsp)]; [congruence|].
           assert (Hdd : d0 = d) by congruence.
           rewrite Hdd in Hrl, Hsp. clear Hdd Hd0 d0.
           rewrite size_t_small by lia. rewrite Hrl in Hsp |- *.
           split; auto. split. { apply leftover_shift; auto. }
           split; [lia|]. intros _.
           rewrite !shifts_app, Hsh. reflexivity.
      * intros; lia.
  - exists []. rewrite app_nil_r. repeat split; auto; try lia.
Qed.

(** C3.  When [run_handshake] succeeds after a final socket read that
    returned the bytes [d] (R of them) and a final handshake step that
    reported [C <= R] bytes consumed, the pending length it reports is
    [R - C] and the input array starts with bytes [C, R) of that read, in
    order; when [C = R] the pending length is zero and nothing was
    shifted, otherwise exactly one shift of [R - C] bytes from offset [C]
    took place. *)
Theorem run_handshake_leftover (fuel : nat) (fd : Z) (tls : ptls_t)
    (wbuf : ptls_buffer_t) (buf : list byte) (bufsz : Z) (w : World)
    (wbuf' : ptls_buffer_t) (buf' : list byte) (len' : Z) (w' : World)
    (evs : list event) (d : list byte) (C : Z) :
  0 <= bufsz < 2 ^ 64 ->
  run_handshake fuel fd tls wbuf buf bufsz w = Done (0, wbuf', buf', len') w' ->
  log w' = log w ++ evs ->
  last_read evs = Some d ->
  last_consumed evs = Some C ->
  0 <= C <= len_of d ->
  len' = len_of d - C /\
  span buf' len' = advance d C /\
  (C = len_of d -> len' = 0 /\ shifts evs = []) /\
  (C < len_of d -> shifts evs = [(C, len_of d - C)]).
Proof.
  intros Hsz Hrun Hlog Hd HC HCd.
  pose proof (run_handshake_spec fuel fd tls wbuf buf bufsz w Hsz) as H.
  rewrite Hrun in H. destruct (H eq_refl) as (evs' & Hlog' & Hall).
  assert (evs' = evs).
  { apply (app_inv_head (log w)). rewrite <- Hlog, <- Hlog'. reflexivity. }
  subst evs'.
  destruct (Hall d C Hd HC HCd) as (H1 & H2 & H3 & H4).
  repeat split; auto. lia.
Qed.

(** *** [decrypt_and_print] *)

Lemma fatal_last (l : list event) (e : event) : fatal e -> Exists fatal (l ++ [e]).
Proof. intros H. apply Exists_app. right. constructor. exact H. Qed.

(** One turn of the pump, when there is input left. *)
Lemma decrypt_and_print_body_spec (fuel : nat) (tls : ptls_t)
    (input : list byte) (inlen : Z) (dbuf : ptls_buffer_t) (w : World) :
  inlen <> 0 ->
  match receives w with
  | [] =>
      decrypt_and_print_body fuel tls (input, inlen, dbuf) w = Stuck Starved w
  | a :: rest =>
      0 <= off dbuf ->
      exists tl,
        log (world_of (decrypt_and_print_body fuel tls (input, inlen, dbuf) w))
        = log w ++ EvReceive (off dbuf) (span input inlen) (rc_ret a)
                     (rc_out a) (rc_consumed a) :: tl /\
        receives (world_of
                    (decrypt_and_print_body fuel tls (input, inlen, dbuf) w))
        = rest /\
        (length (writes (world_of
                    (decrypt_and_print_body fuel tls (input, inlen, dbuf) w)))
         <= length (writes w))%nat /\
        match decrypt_and_print_body fuel tls (input, inlen, dbuf) w with
        | Done (inl (i', n', db')) w' =>
            rc_ret a = 0 /\
            i' = advance input (rc_consumed a) /\
            n' = size_t (inlen - rc_consumed a) /\
            off db' = 0 /\
            Forall (is_write 1) tl /\
            Forall (fun e => ~ fatal e) tl /\
            (off dbuf + len_of (rc_out a) < 2 ^ 64 ->
             accepted 1 tl = pending (buffer_push dbuf (rc_out a)))
        | Done (inr r) w' =>
            r = -1 /\
            ((rc_ret a <> 0 /\ tl = [EvFprintf "ptls_receive" (rc_ret a)]) \/
             (rc_ret a = 0 /\ Forall (is_write 1) tl /\ Exists fatal tl))
        | Stuck y w' =>
            y = OutOfFuel /\ (fuel <= length (writes w) + 1)%nat /\
            rc_ret a = 0 /\ Forall (is_write 1) tl
        end
  end.
Proof.
  intros Hn. apply Z.eqb_neq in Hn.
  remember (decrypt_and_print_body fuel tls (input, inlen, dbuf) w) as o
    eqn:Ho.
  unfold decrypt_and_print_body in Ho. rewrite Hn in Ho.
  unfold bind at 1 in Ho. unfold ptls_receive in Ho.
  destruct (receives w) as [|a rest] eqn:Er; [exact Ho|].
  intros Hoff.
  set (e := EvReceive (off dbuf) (span input inlen) (rc_ret a) (rc_out a)
              (rc_consumed a)) in *.
  set (w1 := emit e (set_receives rest w)) in *.
  assert (Hl1 : log w1 = log w ++ [e]) by reflexivity.
  assert (Hr1 : receives w1 = rest) by reflexivity.
  assert (Hw1 : writes w1 = writes w) by reflexivity.
  clearbody w1. unfold continue, break, ret in Ho.
  destruct (rc_ret a =? 0) eqn:E0; cbn [negb] in Ho.
  - apply Z.eqb_eq in E0.
    set (db := buffer_push dbuf (rc_out a)) in *.
    assert (Hdb : 0 <= off db).
    { unfold db, buffer_push, len_of. simpl. lia. }
    assert (Edb : db = buffer_push dbuf (rc_out a)) by reflexivity.
    clearbody db.
    destruct (off db =? 0) eqn:Eo; cbn [negb] in Ho.
    + apply Z.eqb_eq in Eo. subst o. exists []. cbn [world_of].
      rewrite Hl1, Hr1, Hw1. repeat split; auto.
      intros _. unfold pending. rewrite Eo, span_zero. reflexivity.
    + unfold bind in Ho.
      destruct (write_all_spec fuel 1 (base db) (off db) w1 Hdb)
        as (wevs & Hl2 & Hww & Hr2 & Hws & Hm).
      destruct (write_all fuel 1 (base db) (off db) w1) as [wr w2|y w2];
        simpl in Hl2, Hr2, Hws; rewrite Hw1 in Hws.
      * destruct Hm as [(-> & Hnf & Hac)|(-> & pre & e' & -> & Hnf & Hfa & _)];
          simpl in Ho; subst o; cbn [world_of].
        -- exists wevs. rewrite Hl2, Hl1, <- app_assoc, Hr2, Hr1.
           repeat split; auto; try lia.
           intros Hb. apply Hac. rewrite Edb. simpl. lia.
        -- exists (pre ++ [e']). rewrite Hl2, Hl1, <- app_assoc, Hr2, Hr1.
           repeat split; auto; try lia.
           right. repeat split; auto. now apply fatal_last.
      * destruct Hm as (-> & Hf & Hnf & _). rewrite Hw1 in Hf.
        subst o. exists wevs. simpl.
        rewrite Hl2, Hl1, <- app_assoc, Hr2, Hr1.
        repeat split; auto; lia.
  - apply Z.eqb_neq in E0. unfold bind, fprintf in Ho. subst o. simpl.
    exists [EvFprintf "ptls_receive" (rc_ret a)].
    rewrite Hl1, <- app_assoc, Hr1, Hw1. repeat split; auto.
Qed.

Lemma cursor_chain_app (i : list byte) (n : Z) (l1 l2 : list event) :
  cursor_chain i n (l1 ++ l2) <->
  cursor_chain i n l1 /\
  cursor_chain (fst (cursor_after i n l1)) (snd (cursor_after i n l1)) l2.
Proof.
  revert i n. induction l1 as [|e l1 IH]; intros i n; simpl.
  - tauto.
  - destruct e; try apply IH. rewrite IH. tauto.
Qed.

Lemma cursor_after_app (i : list byte) (n : Z) (l1 l2 : list event) :
  cursor_after i n (l1 ++ l2) =
  cursor_after (fst (cursor_after i n l1)) (snd (cursor_after i n l1)) l2.
Proof.
  revert i n. induction l1 as [|e l1 IH]; intros i n; simpl; auto.
  destruct e; apply IH.
Qed.

Lemma consumed_total_app (l1 l2 : list event) :
  consumed_total (l1 ++ l2) = consumed_total l1 + consumed_total l2.
Proof.
  induction l1 as [|e l1 IH]; simpl; auto. destruct e; lia.
Qed.

Lemma cursor_quiet (i : list byte) (n : Z) (l : list event) :
  Forall (fun e => ~ is_receive e) l ->
  cursor_chain i n l /\ cursor_after i n l = (i, n) /\ consumed_total l = 0.
Proof.
  induction 1 as [|e l He _ IH]; simpl; auto.
  destruct e; simpl in He; tauto.
Qed.

Lemma writes_quiet (fd : Z) (l : list event) :
  Forall (is_write fd) l -> Forall (fun e => ~ is_receive e) l.
Proof. apply Forall_impl. intros [] H; simpl in *; tauto. Qed.

(** The pump on an empty span. *)
Lemma decrypt_and_print_nothing (fuel : nat) (tls : ptls_t)
    (input : list byte) (w : World) :
  (0 < fuel)%nat -> decrypt_and_print fuel tls input 0 w = Done 0 w.
Proof.
  intros H. destruct fuel as [|fuel]; [lia|].
  unfold decrypt_and_print. rewrite loop_S. reflexivity.
Qed.

Lemma answers_app (l1 l2 : list event) :
  answers (l1 ++ l2) = answers l1 ++ answers l2.
Proof. apply flat_map_app. Qed.

Lemma answers_quiet (l : list event) :
  Forall (fun e => ~ is_receive e) l -> answers l = [].
Proof.
  apply flat_map_none. intros [] H; simpl in *; tauto.
Qed.

Lemma decrypt_and_print_cursor (fuel : nat) (tls : ptls_t)
    (input : list byte) (N : Z) (w : World) :
  0 <= N < 2 ^ 64 ->
  well_behaved N (receives w) ->
  (Z.to_nat N < fuel)%nat ->
  (length (writes w) + 1 < fuel)%nat ->
  exists evs,
    log (world_of (decrypt_and_print fuel tls input N w)) = log w ++ evs /\
    cursor_chain input N evs /\
    (N = 0 -> evs = []) /\
    receives w
    = answers evs ++ receives (world_of (decrypt_and_print fuel tls input N w))
    /\
    (suffices N (receives w) ->
     exists r w', decrypt_and_print fuel tls input N w = Done r w') /\
    match decrypt_and_print fuel tls input N w with
    | Done r w' =>
        (r = 0 /\ consumed_total evs = N) \/
        (r = -1 /\ (Exists refused evs \/ Exists fatal evs))
    | Stuck y w' =>
        y = Starved /\ receives w' = [] /\ answers evs = receives w /\
        consumed_total evs < N
    end.
Proof.
  intros HN Hwb Hf1 Hf2. unfold decrypt_and_print.
  set (Q := fun o : outcome Z =>
    exists evs,
      log (world_of o) = log w ++ evs /\
      cursor_chain input N evs /\
      (N = 0 -> evs = []) /\
      receives w = answers evs ++ receives (world_of o) /\
      (suffices N (receives w) -> exists r w', o = Done r w') /\
      match o with
      | Done r w' =>
          (r = 0 /\ consumed_total evs = N) \/
          (r = -1 /\ (Exists refused evs \/ Exists fatal evs))
      | Stuck y w' =>
          y = Starved /\ receives w' = [] /\ answers evs = receives w /\
          consumed_total evs < N
      end).
  match goal with |- context [loop fuel ?b ?s w] =>
    change (Q (loop fuel b s w)) end.
  set (I := fun (k : nat) (st : dp_state) (wc : World) =>
    let '(ic, nc, db) := st in
    exists evs,
      log wc = log w ++ evs /\
      off db = 0 /\
      cursor_chain input N evs /\
      cursor_after input N evs = (ic, nc) /\
      nc = N - consumed_total evs /\
      0 <= nc <= N /\
      (N = 0 -> evs = []) /\
      well_behaved nc (receives wc) /\
      (length (writes wc) <= length (writes w))%nat /\
      (Z.to_nat nc < k)%nat /\
      receives w = answers evs ++ receives wc /\
      (suffices N (receives w) -> suffices nc (receives wc))).
  apply (loop_ind_fuel _ I Q).
  - intros [[ic nc] db] wc
      (evs & _ & _ & _ & _ & _ & _ & _ & _ & _ & Hk & _). lia.
  - intros k [[ic nc] db] wc
      (evs & Hlog & Hoff & Hch & Hca & Hnc & Hr & H0 & Hwb' & Hws & Hk
           & Htie & Hsuf).
    destruct (Z.eq_dec nc 0) as [->|Hne].
    + (* nothing left *)
      unfold decrypt_and_print_body. simpl.
      exists evs. simpl.
      split; [exact Hlog|]. split; [exact Hch|]. split; [exact H0|].
      split; [exact Htie|]. split; [eauto|].
      left. split; auto. lia.
    + pose proof (decrypt_and_print_body_spec fuel tls ic nc db wc Hne) as Hb.
      destruct (receives wc) as [|a rest] eqn:Erc.
      * rewrite Hb. exists evs. simpl.
        split; [exact Hlog|]. split; [exact Hch|]. split; [exact H0|].
        split; [now rewrite Erc|].
        split. { intros Hs. apply Hsuf in Hs. simpl in Hs. contradiction. }
        rewrite app_nil_r in Htie.
        split; [reflexivity|]. split; [exact Erc|]. split; [auto|]. lia.
      * destruct Hb as (tl & Hl' & Hr' & Hws' & Hm); [lia|].
        set (e := EvReceive (off db) (span ic nc) (rc_ret a) (rc_out a)
                    (rc_consumed a)) in *.
        assert (Hlog' : log (world_of (decrypt_and_print_body fuel tls
                                         (ic, nc, db) wc))
                        = log w ++ (evs ++ e :: tl)).
        { rewrite Hl', Hlog, <- app_assoc. reflexivity. }
        assert (Hchain : Forall (fun e => ~ is_receive e) tl ->
                  cursor_chain input N (evs ++ e :: tl) /\
                  cursor_after input N (evs ++ e :: tl)
                  = (advance ic (rc_consumed a), nc - rc_consumed a) /\
                  consumed_total (evs ++ e :: tl)
                  = consumed_total evs + rc_consumed a).
        { intros Hq.
          destruct (cursor_quiet (advance ic (rc_consumed a))
                      (nc - rc_consumed a) tl Hq) as (Q1 & Q2 & Q3).
          rewrite cursor_chain_app, cursor_after_app, consumed_total_app, Hca.
          simpl. rewrite Q2, Q3. repeat split; auto. lia. }
        assert (Htie' : Forall (fun e => ~ is_receive e) tl ->
                  receives w = answers (evs ++ e :: tl) ++ rest).
        { intros Hq. rewrite Htie, answers_app.
          change (e :: tl) with ([e] ++ tl).
          rewrite answers_app, (answers_quiet tl Hq), app_nil_r.
          rewrite <- app_assoc. simpl. now destruct a. }
        destruct (decrypt_and_print_body fuel tls (ic, nc, db) wc)
          as [[[[i' n'] db']|r] w'|y w']; simpl in Hlog', Hr', Hws'.
        -- destruct Hm as (E0 & -> & -> & Hoff' & Hww & Hnf & _).
           destruct Hwb' as [?|[?|[Hc Hwb']]]; try tauto.
           destruct (Hchain (writes_quiet 1 tl Hww)) as (C1 & C2 & C3).
           pose proof (Htie' (writes_quiet 1 tl Hww)) as C4.
           rewrite size_t_small by lia.
           exists (evs ++ e :: tl). rewrite Hr'.
           split; [exact Hlog'|]. split; [exact Hoff'|].
           split; [exact C1|]. split; [exact C2|].
           split; [lia|]. split; [lia|].
           split. { intros HN0. lia. }
           split; [exact Hwb'|]. split; [lia|]. split; [lia|].
           split; [exact C4|].
           intros Hs. apply Hsuf in Hs. simpl in Hs.
           destruct Hs as [?|[?|Hs]]; [contradiction|contradiction|exact Hs].
        -- destruct Hm as (-> & Hcase).
           exists (evs ++ e :: tl). split; auto.
           assert (Hq : Forall (fun e => ~ is_receive e) tl).
           { destruct Hcase as [(_ & ->)|(_ & Hww & _)].
             - constructor; simpl; auto.
             - now apply (writes_quiet 1). }
           destruct (Hchain Hq) as (C1 & C2 & C3).
           split; auto. split. { intros HN0. lia. }
           split. { simpl. rewrite Hr'. now apply Htie'. }
           split; [eauto|].
           right. split; auto.
           destruct Hcase as [(Hrf & _)|(_ & _ & Hfa)].
           ++ left. apply Exists_app. right. constructor. exact Hrf.
           ++ right. apply Exists_app. right. now constructor 2.
        -- destruct Hm as (_ & Hfu & _). lia.
  - exists []. simpl. rewrite app_nil_r.
    repeat split; auto; try lia.
Qed.

Lemma cursor_after_total (i : list byte) (n : Z) (l : list event) :
  snd (cursor_after i n l) = n - consumed_total l.
Proof.
  revert i n. induction l as [|e l IH]; intros i n; simpl; [lia|].
  destruct e; rewrite IH; lia.
Qed.

(** C4.  For a span of [N] bytes and an engine that consumes between 1
    and the remaining length in every call it accepts, [decrypt_and_print]
    hands every unsealing call exactly the bytes from its cursor on, the
    cursor having advanced by what the earlier calls consumed; it makes no
    call once the total consumed equals [N]; the calls it makes are
    answered by the answers of the engine's script, one each and in order;
    with a script that lasts until [N] bytes are consumed or a call is
    refused it ends; it ends returning 0 with the total consumed equal to
    [N], or returning -1 after a refused call or a failed write, and
    otherwise waits for an engine that has given all its answers with
    bytes still left; and when [N = 0] it returns 0 without any call. *)
Theorem decrypt_and_print_exhausts (fuel : nat) (tls : ptls_t)
    (input : list byte) (N : Z) (w : World) :
  0 <= N < 2 ^ 64 ->
  well_behaved N (receives w) ->
  (Z.to_nat N < fuel)%nat ->
  (length (writes w) + 1 < fuel)%nat ->
  exists evs,
    log (world_of (decrypt_and_print fuel tls input N w)) = log w ++ evs /\
    cursor_chain input N evs /\
    (forall pre e post,
        evs = pre ++ e :: post -> is_receive e -> consumed_total pre <> N) /\
    (N = 0 -> decrypt_and_print fuel tls input N w = Done 0 w /\ evs = []) /\
    receives w
    = answers evs ++ receives (world_of (decrypt_and_print fuel tls input N w))
    /\
    (suffices N (receives w) ->
     exists r w', decrypt_and_print fuel tls input N w = Done r w') /\
    match decrypt_and_print fuel tls input N w with
    | Done r w' =>
        (r = 0 /\ consumed_total evs = N) \/
        (r = -1 /\ (Exists refused evs \/ Exists fatal evs))
    | Stuck y w' =>
        y = Starved /\ receives w' = [] /\ answers evs = receives w /\
        consumed_total evs < N
    end.
Proof.
  intros HN Hwb Hf1 Hf2.
  destruct (decrypt_and_print_cursor fuel tls input N w HN Hwb Hf1 Hf2)
    as (evs & Hlog & Hch & H0 & Htie & Hsuf & Hm).
  exists evs. split; [exact Hlog|]. split; [exact Hch|].
  split; [|split; [|split; [exact Htie|split; [exact Hsuf|exact Hm]]]].
  - intros pre e post -> He Htot.
    apply cursor_chain_app in Hch. destruct Hch as [_ Hch].
    rewrite cursor_after_total in Hch.
    destruct e; simpl in He; try tauto. simpl in Hch. lia.
  - intros HN0. split; [|auto].
    subst N. apply decrypt_and_print_nothing. lia.
Qed.

(** *** The output buffer of the pump *)





Lemma pending_push_empty (b : ptls_buffer_t) (out : list byte) :
  off b = 0 -> pending (buffer_push b out) = out.
Proof.
  intros H. unfold pending at 1. rewrite span_firstn.
  unfold buffer_push. simpl. unfold pending. rewrite H, span_zero. simpl.
  unfold len_of. rewrite Nat2Z.id. apply firstn_all.
Qed.



(** *** Kinds of events *)

Lemma only_sys_read (fd : Z) (buf : list byte) (cap : Z) :
  only (is_read fd) (sys_read fd buf cap).
Proof.
  intros w. unfold sys_read.
  destruct (reads w) as [|[d|e] rest]; simpl;
    [exists []; now rewrite app_nil_r| |];
    (eexists [_]; split; [reflexivity|constructor; simpl; auto]).
Qed.

Lemma only_read_retry (sentinel : Z) (fuel : nat) (fd : Z) (buf : list byte)
    (cap : Z) :
  only (is_read fd) (read_retry sentinel fuel fd buf cap).
Proof.
  apply only_loop. intros b. unfold read_retry_body.
  apply only_bind; [apply only_sys_read|intros [r b']].
  apply only_bind; [apply only_get_errno|intros e].
  destruct (_ && _); apply only_ret.
Qed.

Lemma only_sys_select (nfds : Z) (s : fd_set) :
  only is_select (sys_select nfds s).
Proof.
  intros w. unfold sys_select.
  destruct (selects w) as [|[d|e] rest]; simpl;
    [exists []; now rewrite app_nil_r| |];
    (eexists [_]; split; [reflexivity|constructor; simpl; auto]).
Qed.

Lemma only_ptls_handshake (fd : Z) (tls : ptls_t) (b : ptls_buffer_t)
    (i : list byte) (n : Z) :
  only (handshake_event fd) (ptls_handshake tls b i n).
Proof.
  intros w. unfold ptls_handshake.
  destruct (handshakes w) as [|a rest]; simpl;
    [exists []; now rewrite app_nil_r|];
    (eexists [_]; split; [reflexivity|constructor; simpl; auto]).
Qed.

Lemma only_ptls_receive (tls : ptls_t) (b : ptls_buffer_t) (i : list byte)
    (n : Z) :
  only pump_event (ptls_receive tls b i n).
Proof.
  intros w. unfold ptls_receive.
  destruct (receives w) as [|a rest]; simpl;
    [exists []; now rewrite app_nil_r|];
    (eexists [_]; split; [reflexivity|constructor; simpl; auto]).
Qed.

Lemma only_ptls_send (fd : Z) (tls : ptls_t) (b : ptls_buffer_t)
    (i : list byte) (n : Z) :
  only (input_event fd) (ptls_send tls b i n).
Proof.
  intros w. unfold ptls_send.
  destruct (sends w) as [|a rest]; simpl;
    [exists []; now rewrite app_nil_r|];
    (eexists [_]; split; [reflexivity|constructor; simpl; auto]).
Qed.

Lemma only_fprintf (P : event -> Prop) (msg : string) (code : Z) :
  P (EvFprintf msg code) -> only P (fprintf msg code).
Proof. intros H w. exists [EvFprintf msg code]. simpl. auto. Qed.

Lemma only_memmove (P : event -> Prop) (p : list byte) (src n : Z) :
  P (EvMemmove src n) -> only P (memmove p src n).
Proof. intros H w. exists [EvMemmove src n]. simpl. auto. Qed.

Lemma only_decrypt_and_print_body (fuel : nat) (tls : ptls_t)
    (st : dp_state) :
  only pump_event (decrypt_and_print_body fuel tls st).
Proof.
  destruct st as [[i n] db]. unfold decrypt_and_print_body.
  destruct (n =? 0); [apply only_ret|].
  apply only_bind; [apply only_ptls_receive|intros [[r db'] c]].
  destruct (negb (r =? 0)).
  { apply only_bind; [now apply only_fprintf|intros; apply only_ret]. }
  destruct (negb (off db' =? 0)); [|apply only_ret].
  apply only_bind.
  { eapply only_weaken; [|apply only_write_all]. intros [] H; simpl in *; tauto. }
  intros wr. destruct (negb (wr =? 0)); apply only_ret.
Qed.

Lemma only_decrypt_and_print (fuel : nat) (tls : ptls_t) (input : list byte)
    (inlen : Z) :
  only pump_event (decrypt_and_print fuel tls input inlen).
Proof. apply only_loop. apply only_decrypt_and_print_body. Qed.

Lemma only_run_handshake (fuel : nat) (fd : Z) (tls : ptls_t)
    (wbuf : ptls_buffer_t) (buf : list byte) (bufsz : Z) :
  only (handshake_event fd) (run_handshake fuel fd tls wbuf buf bufsz).
Proof.
  apply only_loop. intros [[[wb pin] plen] rret]. unfold run_handshake_body.
  apply only_bind; [apply only_ptls_handshake|intros [[r wb'] plen']].
  destruct (r =? PTLS_ERROR_HANDSHAKE_IN_PROGRESS).
  - apply only_bind.
    { eapply only_weaken; [|apply only_write_all].
      intros [] H; simpl in *; tauto. }
    intros wr. destruct (negb (wr =? 0)); [apply only_ret|].
    apply only_bind.
    { eapply only_weaken; [|apply only_read_retry].
      intros [] H; simpl in *; tauto. }
    intros [rr pin']. destruct (rr <=? 0); apply only_ret.
  - destruct (negb (r =? 0)).
    { apply only_bind; [now apply only_fprintf|intros; apply only_ret]. }
    apply only_bind; [|intros; apply only_ret].
    destruct (negb _); [now apply only_memmove|apply only_ret].
Qed.

Lemma only_input_ready_branch (fuel : nat) (fd : Z) (tls : ptls_t)
    (st : hc_state) :
  only (input_event fd) (input_ready_branch fuel fd tls st).
Proof.
  destruct st as [wb rb]. unfold input_ready_branch.
  apply only_bind.
  { eapply only_weaken; [|apply only_read_retry].
    intros [] H; simpl in *; tauto. }
  intros [rr rb'].
  apply only_bind; [apply only_ptls_send|intros [r wb']].
  destruct (negb (r =? 0)).
  { apply only_bind; [now apply only_fprintf|intros; apply only_ret]. }
  apply only_bind.
  { eapply only_weaken; [|apply only_write_all].
    intros [] H; simpl in *; tauto. }
  intros wr. destruct (negb (wr =? 0)); apply only_ret.
Qed.

Lemma only_socket_ready_branch (fuel : nat) (fd : Z) (tls : ptls_t)
    (st : hc_state) :
  only (socket_event fd) (socket_ready_branch fuel fd tls st).
Proof.
  destruct st as [wb rb]. unfold socket_ready_branch.
  apply only_bind.
  { eapply only_weaken; [|apply only_read_retry].
    intros [] H; simpl in *; tauto. }
  intros [rr rb']. destruct (rr <=? 0); [apply only_ret|].
  apply only_bind.
  { eapply only_weaken; [|apply only_decrypt_and_print].
    intros [] H; simpl in *; tauto. }
  intros r. destruct (negb (r =? 0)); apply only_ret.
Qed.

Lemma only_serve_ready (fuel : nat) (fd : Z) (tls : ptls_t)
    (st : hc_state) (s : fd_set) :
  only (session_event fd) (serve_ready fuel fd tls st s).
Proof.
  unfold serve_ready.
  apply only_bind.
  { destruct (FD_ISSET 0 s); [|apply only_ret].
    eapply only_weaken; [|apply only_input_ready_branch].
    unfold session_event; tauto. }
  intros [st'|]; [|apply only_ret].
  apply only_bind.
  { destruct (FD_ISSET fd s); [|apply only_ret].
    eapply only_weaken; [|apply only_socket_ready_branch].
    unfold session_event; tauto. }
  intros [st''|]; apply only_ret.
Qed.

Lemma only_streaming_body (fuel : nat) (fd : Z) (tls : ptls_t)
    (st : hc_state) :
  only (session_event fd) (streaming_body fuel fd tls st).
Proof.
  unfold streaming_body.
  apply only_bind.
  { eapply only_weaken; [|apply only_sys_select].
    unfold session_event; tauto. }
  intros [n s]. destruct (n <=? 0); [apply only_ret|].
  apply only_serve_ready.
Qed.

Lemma only_session (fuel : nat) (fd : Z) (tls : ptls_t) (wbuf : ptls_buffer_t)
    (rbuf : list byte) :
  only (session_event fd) (session fuel fd tls wbuf rbuf).
Proof.
  unfold session.
  apply only_bind.
  { eapply only_weaken; [|apply only_run_handshake].
    unfold session_event; tauto. }
  intros [[[r wb] rb] roff]. destruct (negb (r =? 0)); [apply only_ret|].
  apply only_bind.
  { eapply only_weaken; [|apply only_write_all].
    intros [] H; unfold session_event; simpl in *; tauto. }
  intros wr. destruct (negb (wr =? 0)); [apply only_ret|].
  apply only_bind.
  { eapply only_weaken; [|apply only_decrypt_and_print].
    intros [] H; unfold session_event; simpl in *; tauto. }
  intros r'. destruct (negb (r' =? 0)); [apply only_ret|].
  apply only_loop. apply only_streaming_body.
Qed.

Lemma session_event_not_release (fd : Z) (e : event) :
  session_event fd e -> ~ is_release e.
Proof. unfold session_event. destruct e; simpl; tauto. Qed.

Lemma releases_app (l1 l2 : list event) :
  releases (l1 ++ l2) = releases l1 ++ releases l2.
Proof. apply filter_app. Qed.

Lemma releases_none (l : list event) :
  Forall (fun e => ~ is_release e) l -> releases l = [].
Proof.
  induction 1 as [|e l He _ IH]; simpl; auto.
  unfold releases in *. simpl. destruct e; simpl in *; tauto.
Qed.

(** *** Leaving the session *)

Lemma socket_ready_branch_closed (fuel : nat) (fd : Z) (tls : ptls_t)
    (st : hc_state) (w : World) (r : read_answer) (rs : list read_answer) :
  (0 < fuel)%nat -> reads w = r :: rs -> nonpositive r ->
  exists w' rd,
    socket_ready_branch fuel fd tls st w = Done None w' /\
    log w' = log w ++ [rd] /\ is_read fd rd /\
    selects w' = selects w.
Proof.
  intros Hf Hr Hn. destruct st as [wb rb]. destruct fuel as [|fuel]; [lia|].
  unfold socket_ready_branch, bind, read_retry. rewrite loop_S.
  unfold read_retry_body, bind, sys_read, get_errno. rewrite Hr.
  destruct r as [d|e]; simpl in Hn.
  - subst d. simpl. eexists _, _. split; [reflexivity|]. simpl.
    split; [reflexivity|]. simpl. auto.
  - simpl. eexists _, _. split; [reflexivity|]. simpl.
    split; [reflexivity|]. simpl. auto.
Qed.

Lemma handle_connection_releases (fuel : nat) (fd : Z)
    (name : option string) (w : World) :
  exists evs,
    log (world_of (handle_connection fuel fd name w)) = log w ++ evs /\
    match handle_connection fuel fd name w with
    | Done r w' =>
        r = 0 /\
        releases evs = [EvDispose; EvFree (Tls name)] /\
        exists mid, evs = mid ++ [EvDispose; EvFree (Tls name)]
    | Stuck _ _ => releases evs = []
    end.
Proof.
  unfold handle_connection, bind, ptls_new.
  set (tls := Tls name). set (w0 := emit (EvNew tls) w).
  destruct (only_session fuel fd tls (ptls_buffer_init (uninit 1024))
              (uninit 1024) w0) as (evs & Hlog & Hev).
  assert (Hrel : releases evs = []).
  { apply releases_none. eapply Forall_impl; [|exact Hev].
    apply session_event_not_release. }
  destruct (session fuel fd tls _ _ w0) as [[] ws|y ws]; simpl in *.
  - exists ((EvNew tls :: evs) ++ [EvDispose; EvFree tls]).
    rewrite Hlog. split.
    { rewrite <- !app_assoc. reflexivity. }
    split; auto. split; [|eauto].
    rewrite releases_app. simpl. fold (releases evs). now rewrite Hrel.
  - exists (EvNew tls :: evs). rewrite Hlog. split.
    { rewrite <- !app_assoc. reflexivity. }
    simpl. exact Hrel.
Qed.

Lemma streaming_body_closed (fuel : nat) (fd : Z) (tls : ptls_t)
    (st : hc_state) (w : World) (ready : list Z) (ss : list select_answer)
    (r : read_answer) (rs : list read_answer) :
  (0 < fuel)%nat ->
  selects w = SelReady ready :: ss ->
  Zmem 0 ready = false -> Zmem fd ready = true ->
  reads w = r :: rs -> nonpositive r ->
  exists w' sel rd,
    streaming_body fuel fd tls st w = Done (inr tt) w' /\
    log w' = log w ++ [sel; rd] /\ is_select sel /\ is_read fd rd.
Proof.
  intros Hf Hs H0 Hfd Hr Hn.
  unfold streaming_body, bind at 1, sys_select.
  rewrite Hs. cbn [FD_SET FD_ZERO filter]. rewrite Hfd, H0.
  set (w1 := emit _ _).
  assert (Hr1 : reads w1 = r :: rs) by exact Hr.
  destruct (socket_ready_branch_closed fuel fd tls st w1 r rs Hf Hr1 Hn)
    as (w' & rd & Hb & Hl & Hrd & _).
  assert (Hfd' : FD_ISSET fd [fd] = true).
  { unfold FD_ISSET, Zmem. cbn [existsb]. now rewrite Z.eqb_refl. }
  assert (H0' : FD_ISSET 0 [fd] = false).
  { unfold FD_ISSET, Zmem. cbn [existsb]. rewrite orb_false_r.
    apply Z.eqb_neq. intros <-. congruence. }
  change (len_of (nodup Z.eq_dec [fd]) <=? 0) with false. cbv iota.
  unfold serve_ready.
  rewrite H0'. unfold bind, ret. rewrite Hfd', Hb.
  exists w'. eexists _, rd. split; [reflexivity|].
  rewrite Hl. unfold w1. simpl. rewrite <- app_assoc. simpl.
  split; [reflexivity|]. simpl. auto.
Qed.

(** C8.  A socket-ready branch whose read returns a non-positive result
    ends in [goto Exit]; so a turn in which the socket is the ready
    descriptor and its read returns such a result leaves the loop; once
    the session is over [handle_connection] returns; and whenever it
    returns, by whatever path, the output buffer was disposed and the
    engine instance freed exactly once each, as its last two actions,
    while a session still under way has released nothing. *)
Theorem release_exactly_once (fuel : nat) (fd : Z) (name : option string)
    (w : World) :
  (forall tls st wc r rs,
      (0 < fuel)%nat -> reads wc = r :: rs -> nonpositive r ->
      exists wc' rd,
        socket_ready_branch fuel fd tls st wc = Done None wc' /\
        log wc' = log wc ++ [rd] /\ is_read fd rd) /\
  (forall k tls st ready ss r rs,
      (0 < fuel)%nat ->
      selects w = SelReady ready :: ss ->
      Zmem 0 ready = false -> Zmem fd ready = true ->
      reads w = r :: rs -> nonpositive r ->
      exists w' sel rd,
        loop (S k) (streaming_body fuel fd tls) st w = Done tt w' /\
        log w' = log w ++ [sel; rd] /\ is_select sel /\ is_read fd rd) /\
  (forall ws,
      session fuel fd (Tls name) (ptls_buffer_init (uninit 1024))
        (uninit 1024) (emit (EvNew (Tls name)) w) = Done tt ws ->
      handle_connection fuel fd name w
      = Done 0 (emit (EvFree (Tls name)) (emit EvDispose ws))) /\
  exists evs,
    log (world_of (handle_connection fuel fd name w)) = log w ++ evs /\
    match handle_connection fuel fd name w with
    | Done r w' =>
        releases evs = [EvDispose; EvFree (Tls name)] /\
        exists mid, evs = mid ++ [EvDispose; EvFree (Tls name)]
    | Stuck _ _ => releases evs = []
    end.
Proof.
  split; [|split; [|split]].
  - intros tls st wc r rs Hf Hr Hn.
    destruct (socket_ready_branch_closed fuel fd tls st wc r rs Hf Hr Hn)
      as (wc' & rd & H1 & H2 & H3 & _).
    exists wc', rd. auto.
  - intros k tls st ready ss r rs Hf Hs H0 Hfd Hr Hn.
    destruct (streaming_body_closed fuel fd tls st w ready ss r rs
                Hf Hs H0 Hfd Hr Hn) as (w' & sel & rd & Hb & Hrest).
    exists w', sel, rd. rewrite loop_S, Hb. auto.
  - intros ws Hs. unfold handle_connection, bind, ptls_new.
    rewrite Hs. reflexivity.
  - destruct (handle_connection_releases fuel fd name w) as (evs & Hl & Hm).
    exists evs. split; auto.
    destruct (handle_connection fuel fd name w); tauto.
Qed.

(** *** The client *)

Lemma only_handle_connection (fuel : nat) (fd : Z) (name : option string) :
  only (connection_event fd) (handle_connection fuel fd name).
Proof.
  unfold handle_connection.
  apply only_bind.
  { intros w. eexists [_]. split; [reflexivity|]. constructor; simpl; auto. }
  intros tls. apply only_bind.
  { eapply only_weaken; [|apply only_session].
    intros e H. destruct e; simpl; auto. }
  intros _. apply only_bind.
  { intros w. eexists [_]. split; [reflexivity|]. constructor; simpl; auto. }
  intros _. apply only_bind; [|intros; apply only_ret].
  intros w. eexists [_]. split; [reflexivity|]. constructor; simpl; auto.
Qed.

Lemma connection_event_not_perror (fd : Z) (e : event) (msg : string) :
  connection_event fd e -> e <> EvPerror msg.
Proof.
  intros H ->. unfold connection_event, session_event in H. simpl in H. tauto.
Qed.

(** C9.  In client mode the result of [socket] is compared with 1.  When
    [socket] returns -1 the client goes on to [connect] with that
    descriptor and never reports that socket(2) failed; when it returns
    the descriptor 1, the client reports that socket(2) failed and
    returns 1. *)
Theorem client_socket_check (fuel : nat) (w : World) (ss : list Z) :
  (sockets w = -1 :: ss ->
   forall c cs, connects w = c :: cs ->
     exists evs,
       log (world_of (run_client fuel w))
       = log w ++ EvSocket (-1) :: EvConnect (-1) c :: evs /\
       Forall (fun e => e <> EvPerror "socket(2) failed") evs) /\
  (sockets w = 1 :: ss ->
   run_client fuel w
   = Done 1 (emit (EvPerror "socket(2) failed")
               (emit (EvSocket 1) (set_sockets ss w)))).
Proof.
  split.
  - intros Hs c cs Hc. unfold run_client, bind at 1, sys_socket. rewrite Hs.
    change (-1 =? 1) with false. cbv iota.
    unfold bind at 1, sys_connect. cbn [connects emit set_sockets].
    rewrite Hc. set (w2 := emit (EvConnect (-1) c) _).
    assert (Hl2 : log w2 = log w ++ [EvSocket (-1); EvConnect (-1) c]).
    { unfold w2. simpl. now rewrite <- app_assoc. }
    clearbody w2.
    destruct (c =? 0); cbn [negb].
    + destruct (only_handle_connection fuel (-1) (Some "example.com"%string) w2)
        as (evs & Hl & Hev).
      exists evs. rewrite Hl, Hl2, <- app_assoc. split; [reflexivity|].
      eapply Forall_impl; [|exact Hev].
      intros e. apply connection_event_not_perror.
    + exists [EvPerror "connect(2) failed"]. simpl.
      rewrite Hl2, <- app_assoc. split; [reflexivity|].
      constructor; auto. discriminate.
  - intros Hs. unfold run_client, bind at 1, sys_socket. rewrite Hs.
    reflexivity.
Qed.

(** C10.  [handle_connection] returns 0 whenever it returns; it does
    return, with 0, once the session has reached the label [Exit] by
    whatever path, and in particular when the handshake fails; and in
    client mode, once [socket] and [connect] have succeeded, the value the
    process exits with is 0 whatever happened to the connection. *)
Theorem exit_status_zero (fuel : nat) (fd : Z) (name : option string)
    (w : World) :
  (forall r w', handle_connection fuel fd name w = Done r w' -> r = 0) /\
  (forall ws,
      session fuel fd (Tls name) (ptls_buffer_init (uninit 1024))
        (uninit 1024) (emit (EvNew (Tls name)) w) = Done tt ws ->
      handle_connection fuel fd name w
      = Done 0 (emit (EvFree (Tls name)) (emit EvDispose ws))) /\
  (forall r wb rb len w1,
      run_handshake fuel fd (Tls name) (ptls_buffer_init (uninit 1024))
        (uninit 1024) 1024 (emit (EvNew (Tls name)) w)
      = Done (r, wb, rb, len) w1 ->
      r <> 0 ->
      handle_connection fuel fd name w
      = Done 0 (emit (EvFree (Tls name)) (emit EvDispose w1))) /\
  (forall s ss cs r w',
      sockets w = s :: ss -> s <> 1 -> connects w = 0 :: cs ->
      main_dispatch false fuel w = Done r w' -> r = 0).
Proof.
  split; [|split; [|split]].
  - intros r w' H.
    destruct (handle_connection_releases fuel fd name w) as (evs & _ & Hm).
    rewrite H in Hm. tauto.
  - intros ws Hs. unfold handle_connection, bind, ptls_new.
    rewrite Hs. reflexivity.
  - intros r wb rb len w1 Hrun Hr.
    unfold handle_connection, bind at 1, ptls_new.
    unfold bind at 1. unfold session, bind at 1. rewrite Hrun.
    apply Z.eqb_neq in Hr. rewrite Hr. reflexivity.
  - intros s ss cs r w' Hs Hne Hc.
    unfold main_dispatch, run_client, bind at 1, sys_socket. rewrite Hs.
    apply Z.eqb_neq in Hne. rewrite Hne.
    unfold bind at 1, sys_connect. cbn [connects emit set_sockets].
    rewrite Hc. change (negb (0 =? 0)) with false. cbv iota.
    intros H.
    match type of H with handle_connection ?f ?d ?n ?w2 = _ =>
      destruct (handle_connection_releases f d n w2) as (evs & _ & Hm) end.
    rewrite H in Hm. tauto.
Qed.

(** *** The shape of a pump run *)

Lemma writes_pump (l : list event) :
  Forall (is_write 1) l -> Forall pump_event l.
Proof. apply Forall_impl. intros [] H; simpl in *; tauto. Qed.

(** A pump run starts, if it does anything, with the unsealing call on
    the whole span. *)
Lemma decrypt_and_print_shape (fuel : nat) (tls : ptls_t)
    (input : list byte) (inlen : Z) (w : World) :
  exists evs,
    log (world_of (decrypt_and_print fuel tls input inlen w)) = log w ++ evs /\
    Forall pump_event evs /\
    (inlen = 0 -> evs = []) /\
    (forall e tl, evs = e :: tl ->
       exists r out c, e = EvReceive 0 (span input inlen) r out c) /\
    (forall r w', decrypt_and_print fuel tls input inlen w = Done r w' ->
       inlen <> 0 -> evs <> []).
Proof.
  unfold decrypt_and_print.
  destruct fuel as [|fuel].
  { exists []. simpl. rewrite app_nil_r. repeat split; auto; discriminate. }
  rewrite loop_S.
  destruct (Z.eq_dec inlen 0) as [->|Hne].
  { exists []. simpl. rewrite app_nil_r. repeat split; auto; try discriminate. }
  pose proof (decrypt_and_print_body_spec (S fuel) tls input inlen
                (ptls_buffer_init (uninit 1024)) w Hne) as Hb.
  destruct (receives w) as [|a rest].
  { rewrite Hb. exists []. simpl. rewrite app_nil_r.
    repeat split; auto; discriminate. }
  destruct Hb as (tl & Hl & _ & _ & Hm); [simpl; lia|].
  cbn [off ptls_buffer_init] in Hl.
  set (e := EvReceive 0 (span input inlen) (rc_ret a) (rc_out a)
              (rc_consumed a)) in *.
  assert (Hhead : forall more e' tl',
             e :: tl ++ more = e' :: tl' ->
             exists r out c, e' = EvReceive 0 (span input inlen) r out c).
  { intros more e' tl' H. injection H as <- _. unfold e. eauto. }
  destruct (decrypt_and_print_body (S fuel) tls _ w)
    as [[st'|r] w1|y w1]; simpl in Hl.
  - destruct st' as [[i' n'] db'].
    destruct Hm as (_ & _ & _ & _ & Hww & _).
    destruct (only_loop pump_event (decrypt_and_print_body (S fuel) tls)
                fuel (i', n', db') (only_decrypt_and_print_body _ _) w1)
      as (more & Hl2 & Hpm).
    exists (e :: tl ++ more). rewrite Hl2, Hl, <- app_assoc. split; auto.
    split. { constructor; [simpl; auto|]. apply Forall_app.
             split; auto. now apply writes_pump. }
    split; [tauto|]. split; [apply Hhead|]. intros; discriminate.
  - exists (e :: tl). simpl. rewrite Hl. split; auto.
    destruct Hm as (_ & [(_ & ->)|(_ & Hww & _)]).
    + split. { repeat constructor; simpl; auto. }
      split; [tauto|]. split; [|intros; discriminate].
      intros e' tl' H. apply (Hhead [] e' tl'). now rewrite app_nil_r.
    + split. { constructor; [simpl; auto|]. now apply writes_pump. }
      split; [tauto|]. split; [|intros; discriminate].
      intros e' tl' H. apply (Hhead [] e' tl'). now rewrite app_nil_r.
  - exists (e :: tl). simpl. rewrite Hl. split; auto.
    destruct Hm as (_ & _ & _ & Hww).
    split. { constructor; [simpl; auto|]. now apply writes_pump. }
    split; [tauto|]. split; [|intros; discriminate].
    intros e' tl' H. apply (Hhead [] e' tl'). now rewrite app_nil_r.
Qed.

(** *** The two branches of a turn *)

Lemma reads_input (fd : Z) (l : list event) :
  Forall (is_read 0) l -> Forall (input_event fd) l.
Proof. apply Forall_impl. intros [] H; simpl in *; tauto. Qed.

Lemma writes_input (fd : Z) (l : list event) :
  Forall (is_write fd) l -> Forall (input_event fd) l.
Proof. apply Forall_impl. intros [] H; simpl in *; tauto. Qed.

Lemma input_ready_branch_spec (fuel : nat) (fd : Z) (tls : ptls_t)
    (st : hc_state) (w : World) :
  exists evs,
    log (world_of (input_ready_branch fuel fd tls st w)) = log w ++ evs /\
    Forall (input_event fd) evs /\
    (forall st' w', input_ready_branch fuel fd tls st w = Done (Some st') w' ->
                    Exists sealed evs).
Proof.
  remember (input_ready_branch fuel fd tls st w) as o eqn:Ho.
  destruct st as [wb rb]. unfold input_ready_branch in Ho.
  unfold bind at 1 in Ho.
  destruct (only_read_retry 1 fuel 0 rb 1024 w) as (pre & Hl1 & Hp).
  apply (reads_input fd) in Hp.
  destruct (read_retry 1 fuel 0 rb 1024 w) as [[rr rb'] w1|y w1];
    simpl in Hl1.
  2:{ subst o. exists pre. repeat split; auto. intros; discriminate. }
  unfold bind at 1 in Ho. unfold ptls_send in Ho.
  destruct (sends w1) as [|a rest].
  { subst o. exists pre. repeat split; auto. intros; discriminate. }
  set (es := EvSend (off wb) (span rb' (size_t rr)) (size_t rr) (sd_ret a)
               (sd_out a)) in *.
  set (w2 := emit es (set_sends rest w1)) in *.
  assert (Hl2 : log w2 = log w ++ pre ++ [es]).
  { unfold w2. simpl. now rewrite Hl1, <- app_assoc. }
  clearbody w2.
  destruct (sd_ret a =? 0) eqn:E0; cbn [negb] in Ho.
  - apply Z.eqb_eq in E0. unfold bind in Ho.
    destruct (only_write_all fuel fd (base (buffer_push wb (sd_out a)))
                (off (buffer_push wb (sd_out a))) w2) as (wevs & Hl3 & Hw).
    apply (writes_input fd) in Hw.
    destruct (write_all fuel fd _ _ w2) as [wr w3|y w3]; simpl in Hl3.
    + exists (pre ++ es :: wevs).
      assert (Hlog : log w3 = log w ++ pre ++ es :: wevs).
      { rewrite Hl3, Hl2, <- !app_assoc. reflexivity. }
      assert (Hev : Forall (input_event fd) (pre ++ es :: wevs)).
      { apply Forall_app. split; auto. constructor; simpl; auto. }
      destruct (wr =? 0); cbn [negb] in Ho; subst o; simpl;
        repeat split; auto; try (intros; discriminate).
      intros _ _ _. apply Exists_app. right. constructor. exact E0.
    + subst o. exists (pre ++ es :: wevs). simpl.
      rewrite Hl3, Hl2, <- !app_assoc. repeat split; auto.
      * apply Forall_app. split; auto. constructor; simpl; auto.
      * intros; discriminate.
  - unfold bind, fprintf, ret in Ho. subst o. simpl.
    exists (pre ++ [es; EvFprintf "ptls_send" (sd_ret a)]).
    rewrite Hl2, <- !app_assoc. repeat split; auto.
    + apply Forall_app. split; auto. repeat constructor; simpl; auto.
    + intros; discriminate.
Qed.

Lemma reads_socket (fd : Z) (l : list event) :
  Forall (is_read fd) l -> Forall (socket_event fd) l.
Proof. apply Forall_impl. intros [] H; simpl in *; tauto. Qed.

Lemma pump_socket (fd : Z) (l : list event) :
  Forall pump_event l -> Forall (socket_event fd) l.
Proof. apply Forall_impl. intros [] H; simpl in *; tauto. Qed.

Lemma pump_has_receive (l : list event) (i : list byte) (n : Z) :
  l <> [] ->
  (forall e tl, l = e :: tl -> exists r out c, e = EvReceive 0 (span i n) r out c) ->
  Exists is_receive l.
Proof.
  intros Hne Hh. destruct l as [|e tl]; [congruence|].
  destruct (Hh e tl eq_refl) as (r & out & c & ->). constructor. exact Logic.I.
Qed.

Lemma socket_ready_branch_spec (fuel : nat) (fd : Z) (tls : ptls_t)
    (st : hc_state) (w : World) :
  exists evs,
    log (world_of (socket_ready_branch fuel fd tls st w)) = log w ++ evs /\
    Forall (socket_event fd) evs /\
    (forall st' w', socket_ready_branch fuel fd tls st w = Done (Some st') w' ->
       exists pre rd tl,
         evs = pre ++ rd :: tl /\ got_data fd rd /\ Exists is_receive tl).
Proof.
  remember (socket_ready_branch fuel fd tls st w) as o eqn:Ho.
  destruct st as [wb rb]. unfold socket_ready_branch in Ho.
  unfold bind at 1 in Ho.
  destruct (read_retry_spec 1 fuel fd rb 1024 w) as (pre & Hp & Hm); [lia|].
  apply (reads_socket fd) in Hp.
  destruct (read_retry 1 fuel fd rb 1024 w) as [[rr rb'] w1|y w1].
  2:{ subst o. exists pre. simpl. repeat split; auto. intros; discriminate. }
  destruct Hm as (err & d & Hl1 & _ & Hrr).
  set (rd := EvRead fd 1024 rr err d) in *.
  assert (Hev1 : Forall (socket_event fd) (pre ++ [rd])).
  { apply Forall_app. split; auto. repeat constructor. }
  destruct (rr <=? 0) eqn:Er.
  { subst o. exists (pre ++ [rd]). simpl. repeat split; auto.
    intros; discriminate. }
  apply Z.leb_gt in Er. unfold bind in Ho.
  destruct (decrypt_and_print_shape fuel tls rb' (size_t rr) w1)
    as (pevs & Hl2 & Hpe & _ & Hhead & Hne).
  apply (pump_socket fd) in Hpe.
  assert (Hsz : size_t rr <> 0).
  { rewrite size_t_small; lia. }
  exists (pre ++ rd :: pevs).
  assert (Hev : Forall (socket_event fd) (pre ++ rd :: pevs)).
  { apply Forall_app. split; auto. constructor; simpl; auto. }
  destruct (decrypt_and_print fuel tls rb' (size_t rr) w1) as [r w2|y w2];
    simpl in Hl2.
  - assert (Hlog : log w2 = log w ++ pre ++ rd :: pevs).
    { rewrite Hl2, Hl1, <- !app_assoc. reflexivity. }
    destruct (r =? 0); cbn [negb] in Ho; subst o; simpl;
      repeat split; auto; try (intros; discriminate).
    intros _ _ _. exists pre, rd, pevs. repeat split; auto.
    eapply pump_has_receive; eauto.
  - subst o. simpl. rewrite Hl2, Hl1, <- !app_assoc.
    repeat split; auto. intros; discriminate.
Qed.

Lemma nodup_count_pos (x : Z) (l : list Z) :
  (len_of (nodup Z.eq_dec (x :: l)) <=? 0) = false.
Proof.
  apply Z.leb_gt. unfold len_of.
  assert (H : In x (nodup Z.eq_dec (x :: l))).
  { apply nodup_In. now left. }
  destruct (nodup Z.eq_dec (x :: l)); [contradiction|simpl; lia].
Qed.

(** *** From the handshake to the loop *)

(** The streaming loop starts, if it does anything, by waiting. *)
Lemma streaming_loop_shape (k fuel : nat) (fd : Z) (tls : ptls_t)
    (st : hc_state) (w : World) :
  exists evs,
    log (world_of (loop k (streaming_body fuel fd tls) st w)) = log w ++ evs /\
    (evs = [] \/ exists sel tl, evs = sel :: tl /\ is_select sel) /\
    (forall w', loop k (streaming_body fuel fd tls) st w = Done tt w' ->
                evs <> []).
Proof.
  destruct k as [|k].
  { exists []. simpl. rewrite app_nil_r. repeat split; auto. discriminate. }
  remember (loop (S k) (streaming_body fuel fd tls) st w) as o eqn:Ho.
  rewrite loop_S in Ho.
  unfold streaming_body at 1, bind at 1 in Ho.
  assert (Hsel : exists n s w1 sel,
             sys_select (fd + 1) (FD_SET fd (FD_SET 0 FD_ZERO)) w
             = Done (n, s) w1 /\ log w1 = log w ++ [sel] /\ is_select sel
             \/ sys_select (fd + 1) (FD_SET fd (FD_SET 0 FD_ZERO)) w
                = Stuck Starved w).
  { unfold sys_select.
    destruct (selects w) as [|[rd|e] rest].
    - exists 0, [], w, EvDispose. now right.
    - eexists _, _, _, _. left. split; [reflexivity|]. simpl.
      split; [reflexivity|exact Logic.I].
    - eexists _, _, _, _. left. split; [reflexivity|]. simpl.
      split; [reflexivity|exact Logic.I]. }
  destruct Hsel as (n & s & w1 & sel & [(Hs & Hl1 & Hsel)|Hs]);
    rewrite Hs in Ho.
  2:{ subst o. exists []. simpl. rewrite app_nil_r.
      repeat split; auto. discriminate. }
  assert (Hk : only (session_event fd)
                 (if n <=? 0 then continue st
                  else serve_ready fuel fd tls st s)).
  { destruct (n <=? 0); [apply only_ret|apply only_serve_ready]. }
  destruct (Hk w1) as (e2 & Hl2 & _).
  destruct ((if n <=? 0 then continue st else serve_ready fuel fd tls st s) w1)
    as [[st'|[]] w2|y w2]; simpl in Hl2.
  - destruct (only_loop (session_event fd) (streaming_body fuel fd tls) k st'
                (only_streaming_body fuel fd tls) w2) as (e3 & Hl3 & _).
    exists (sel :: e2 ++ e3). subst o.
    rewrite Hl3, Hl2, Hl1, <- !app_assoc. simpl.
    repeat split; eauto. discriminate.
  - subst o. exists (sel :: e2). simpl. rewrite Hl2, Hl1, <- !app_assoc.
    repeat split; eauto. discriminate.
  - subst o. exists (sel :: e2). simpl. rewrite Hl2, Hl1, <- !app_assoc.
    repeat split; eauto. discriminate.
Qed.

Lemma pending_span (b : ptls_buffer_t) : pending b = span (base b) (off b).
Proof. reflexivity. Qed.

(** C6.  After a successful handshake, [handle_connection] goes on with
    writes to the socket that flush the pending handshake bytes, then
    with the pump, whose first action is the unsealing call on exactly the
    leftover bytes the handshake left in the input array (and which does
    nothing when none are left), with no read in between; only then the
    first wait of the loop follows, the flush complete, or else the exit.
    When flush and pump both return 0 the loop starts with the output
    buffer reset. *)
Theorem handshake_then_flush_then_pump (fuel : nat) (fd : Z)
    (name : option string) (w : World) (wb : ptls_buffer_t)
    (rb : list byte) (roff : Z) (w1 : World) :
  run_handshake fuel fd (Tls name) (ptls_buffer_init (uninit 1024))
    (uninit 1024) 1024 (emit (EvNew (Tls name)) w)
  = Done (0, wb, rb, roff) w1 ->
  0 <= off wb < 2 ^ 64 ->
  (exists flush pump rest,
      log (world_of (handle_connection fuel fd name w))
      = log w1 ++ flush ++ pump ++ rest /\
      Forall (is_write fd) flush /\
      (exists rem, pending wb = accepted fd flush ++ rem) /\
      Forall pump_event pump /\
      (roff = 0 -> pump = []) /\
      (forall e tl, pump = e :: tl ->
         exists r out c, e = EvReceive 0 (span rb roff) r out c) /\
      (rest = [] \/ rest = [EvDispose; EvFree (Tls name)] \/
       exists sel tl,
         rest = sel :: tl /\ is_select sel /\
         accepted fd flush = pending wb /\ (roff <> 0 -> pump <> []))) /\
  (forall w2 w3,
      write_all fuel fd (base wb) (off wb) w1 = Done 0 w2 ->
      decrypt_and_print fuel (Tls name) rb roff w2 = Done 0 w3 ->
      session fuel fd (Tls name) (ptls_buffer_init (uninit 1024))
        (uninit 1024) (emit (EvNew (Tls name)) w)
      = loop fuel (streaming_body fuel fd (Tls name)) (set_off wb 0, rb) w3).
Proof.
  intros Hrun Hoff. split.
  2:{ intros w2 w3 Hw Hd. unfold session, bind at 1. rewrite Hrun.
      change (negb (0 =? 0)) with false. cbv iota.
      unfold bind at 1. rewrite Hw. cbv iota.
      change (negb (0 =? 0)) with false. cbv iota.
      unfold bind at 1. rewrite Hd. reflexivity. }
  set (tls := Tls name) in *.
  remember (handle_connection fuel fd name w) as o eqn:Ho.
  unfold handle_connection, bind at 1, ptls_new in Ho.
  unfold bind at 1 in Ho. unfold session, bind at 1 in Ho.
  fold tls in Ho. rewrite Hrun in Ho.
  change (negb (0 =? 0)) with false in Ho. cbv iota in Ho.
  unfold bind at 1 in Ho.
  destruct (write_all_spec fuel fd (base wb) (off wb) w1)
    as (flush & Hl2 & Hfw & _ & _ & Hm); [lia|].
  exists flush.
  destruct (write_all fuel fd (base wb) (off wb) w1) as [wr w2|y w2];
    simpl in Hl2.
  2:{ (* the flush does not end *)
      subst o. exists [], []. simpl. rewrite !app_nil_r.
      destruct Hm as (_ & _ & _ & Hrem).
      repeat split; auto; try discriminate. rewrite pending_span. apply Hrem. lia. }
  destruct Hm as [(-> & _ & Hacc)|(-> & pre & e & Hfl & _ & _ & Hrem)].
  2:{ (* the flush fails *)
      change (negb (-1 =? 0)) with true in Ho. unfold ret, bind in Ho.
      subst o. exists [], [EvDispose; EvFree tls]. simpl.
      rewrite Hl2, <- !app_assoc.
      repeat split; auto; try discriminate.
      rewrite pending_span. apply Hrem. lia. }
  change (negb (0 =? 0)) with false in Ho. cbv iota in Ho.
  unfold bind at 1 in Ho.
  assert (Hfull : accepted fd flush = pending wb).
  { rewrite pending_span. apply Hacc. lia. }
  assert (Hrem : exists rem, pending wb = accepted fd flush ++ rem).
  { exists []. now rewrite app_nil_r. }
  destruct (decrypt_and_print_shape fuel tls rb roff w2)
    as (pump & Hl3 & Hpe & Hp0 & Hhead & Hpne).
  exists pump.
  destruct (decrypt_and_print fuel tls rb roff w2) as [r w3|y w3];
    simpl in Hl3.
  2:{ subst o. exists []. simpl. rewrite Hl3, Hl2, <- !app_assoc, app_nil_r.
      repeat split; auto. }
  destruct (r =? 0) eqn:Er; cbn [negb] in Ho.
  2:{ unfold ret, bind in Ho. subst o. exists [EvDispose; EvFree tls]. simpl.
      rewrite Hl3, Hl2, <- !app_assoc. repeat split; auto. }
  destruct (streaming_loop_shape fuel fuel fd tls (set_off wb 0, rb) w3)
    as (levs & Hl4 & Hshape & Hlne).
  destruct (loop fuel (streaming_body fuel fd tls) (set_off wb 0, rb) w3)
    as [[] w4|y w4]; simpl in Hl4.
  - unfold bind in Ho. subst o. simpl.
    exists (levs ++ [EvDispose; EvFree tls]).
    rewrite Hl4, Hl3, Hl2, <- !app_assoc.
    split; [reflexivity|]. repeat (split; [assumption|]).
    right. right.
    destruct Hshape as [->|(sel & tl & -> & Hsel)].
    + exfalso. now apply (Hlne w4).
    + exists sel, (tl ++ [EvDispose; EvFree tls]). repeat split; eauto.
  - subst o. simpl. exists levs. rewrite Hl4, Hl3, Hl2, <- !app_assoc.
    split; [reflexivity|]. repeat (split; [assumption|]).
    destruct Hshape as [->|(sel & tl & -> & Hsel)]; [now left|].
    right. right. exists sel, tl. repeat split; eauto.
Qed.


(** ** Further properties of the code *)

(** *** [write_all] under interrupts and short writes *)

Lemma write_retry_benign (fuel : nat) (fd : Z) (data : list byte) (len : Z)
    (w : World) :
  0 < len -> Forall benign (writes w) ->
  match write_retry fuel fd data len w with
  | Done r w' => 0 < r /\ Forall benign (writes w')
  | Stuck _ _ => True
  end.
Proof.
  intros Hlen. unfold write_retry. revert w.
  induction fuel as [|fuel IH]; intros w Hb; [exact Logic.I|].
  rewrite loop_S. unfold write_retry_body at 1.
  unfold bind, sys_write, get_errno.
  destruct (writes w) as [|[n|e] rest] eqn:Ew;
    cbn [errno emit set_writes set_errno].
  - destruct ((len =? -1) && (errno w =? EINTR)) eqn:Ec.
    { apply andb_true_iff in Ec. lia. }
    simpl. rewrite Ew. split; [lia|constructor].
  - pose proof (Forall_inv Hb) as Hn. simpl in Hn.
    pose proof (Forall_inv_tail Hb) as Hrest.
    destruct ((Z.min (Z.of_nat n) len =? -1) && (errno w =? EINTR)) eqn:Ec.
    { apply andb_true_iff in Ec. destruct Ec as [Ec _].
      apply Z.eqb_eq in Ec. lia. }
    simpl. split; [lia|exact Hrest].
  - pose proof (Forall_inv Hb) as He. simpl in He. subst e.
    pose proof (Forall_inv_tail Hb) as Hrest.
    rewrite !Z.eqb_refl. simpl. apply IH. exact Hrest.
Qed.

Lemma write_all_benign (fuel : nat) (fd : Z) (data : list byte) (len : Z)
    (w : World) :
  0 <= len -> Forall benign (writes w) ->
  match write_all fuel fd data len w with
  | Done r _ => r = 0
  | Stuck _ _ => True
  end.
Proof.
  intros Hlen Hb. unfold write_all.
  apply (loop_inv (write_all_body fuel fd)
           (fun st wc => 0 <= snd st /\ Forall benign (writes wc))
           (fun o => match o with Done r _ => r = 0 | Stuck _ _ => True end)).
  - intros; exact Logic.I.
  - intros [d l] wc [Hl Hbc]. simpl in Hl. unfold write_all_body.
    destruct (l =? 0) eqn:El; [reflexivity|].
    apply Z.eqb_neq in El. unfold bind.
    pose proof (write_retry_benign fuel fd d l wc) as Hr.
    destruct (write_retry fuel fd d l wc) as [r w'|y w']; [|exact Logic.I].
    destruct Hr as [Hr Hb']; [lia|exact Hbc|].
    replace (r <=? 0) with false by (symmetry; apply Z.leb_gt; lia).
    simpl. split; auto. unfold size_t. apply Z.mod_pos_bound. lia.
  - simpl. auto.
Qed.

(** X1.  Interrupts and short writes alone never make [write_all] fail:
    when every scripted answer of the descriptor is an interrupt or
    accepts at least one byte, [write_all] returns 0 and the descriptor has
    taken over exactly the bytes offered. *)
Theorem write_all_survives_interrupts (fuel : nat) (fd : Z)
    (data : list byte) (len : Z) (w : World) :
  0 <= len < 2 ^ 64 ->
  Forall benign (writes w) ->
  (length (writes w) + 1 < fuel)%nat ->
  exists w' evs,
    write_all fuel fd data len w = Done 0 w' /\
    log w' = log w ++ evs /\
    Forall (is_write fd) evs /\
    accepted fd evs = span data len.
Proof.
  intros Hlen Hb Hf.
  destruct (write_all_spec fuel fd data len w) as (evs & Hl & Hw & _ & _ & Hm);
    [lia|].
  pose proof (write_all_benign fuel fd data len w) as Hr.
  destruct (write_all fuel fd data len w) as [r w'|y w'].
  - rewrite Hr by (auto; lia).
    exists w', evs. simpl in Hl. repeat split; auto.
    destruct Hm as [(_ & _ & Hac)|(Hr' & _)].
    + apply Hac. lia.
    + rewrite Hr in Hr' by (auto; lia). discriminate.
  - destruct Hm as (_ & Hfu & _). lia.
Qed.

(** *** The read loops *)

(** X2.  The read loop of [run_handshake] (the one that compares with
    -1) tries again after every interrupt: after [k] interrupted reads it
    returns what the first read that is not interrupted returns, data,
    end of file or failure alike. *)
Theorem handshake_read_retries (k fuel : nat) (fd : Z) (buf : list byte)
    (cap : Z) (w : World) (a : read_answer) (rest : list read_answer) :
  reads w = repeat (RFail EINTR) k ++ a :: rest ->
  a <> RFail EINTR ->
  (k < fuel)%nat ->
  exists wk,
    log wk = log w ++ repeat (EvRead fd cap (-1) EINTR []) k /\
    reads wk = a :: rest /\
    read_retry (-1) fuel fd buf cap w = sys_read fd buf cap wk.
Proof.
  revert fuel w. induction k as [|k IH]; intros fuel w Hr Ha Hf.
  - exists w. simpl in *. rewrite app_nil_r. split; auto. split; auto.
    destruct fuel as [|fuel]; [lia|].
    unfold read_retry. rewrite loop_S. unfold read_retry_body.
    unfold bind, sys_read, get_errno. rewrite Hr.
    destruct a as [d|e]; cbn [errno emit set_reads set_errno].
    + pose proof (len_span d cap) as Hl.
      replace (len_of (span d cap) =? -1) with false
        by (symmetry; apply Z.eqb_neq; lia).
      reflexivity.
    + replace (e =? EINTR) with false
        by (symmetry; apply Z.eqb_neq; congruence).
      rewrite andb_false_r. reflexivity.
  - destruct fuel as [|fuel]; [lia|].
    simpl in Hr.
    set (w1 := emit (EvRead fd cap (-1) EINTR [])
                 (set_errno EINTR (set_reads (repeat (RFail EINTR) k ++ a :: rest) w))).
    destruct (IH fuel w1) as (wk & Hl & Hrk & Heq); [reflexivity|auto|lia|].
    exists wk. split.
    { rewrite Hl. unfold w1. simpl. rewrite <- app_assoc. reflexivity. }
    split; auto.
    rewrite <- Heq. unfold read_retry. rewrite loop_S.
    unfold read_retry_body at 1. unfold bind, sys_read, get_errno.
    rewrite Hr. cbn [errno emit set_reads set_errno].
    rewrite !Z.eqb_refl. reflexivity.
Qed.

(** X3.  The two read loops of [handle_connection] (the ones that compare
    with 1) try again after a read that delivered exactly one byte while
    [errno] still holds EINTR from an earlier call; the byte is not handed
    on.  After any number of such reads the loop returns what the first
    read of another kind returns, so the single bytes are lost. *)
Theorem streaming_read_drops_single_bytes (bs : list byte) (fuel : nat)
    (fd : Z) (buf : list byte) (cap : Z) (w : World) (a : read_answer)
    (rest : list read_answer) :
  1 <= cap ->
  errno w = EINTR ->
  reads w = map (fun b => RData [b]) bs ++ a :: rest ->
  ~ one_byte cap a ->
  (length bs < fuel)%nat ->
  exists wk,
    log wk = log w ++ map (fun b => EvRead fd cap 1 EINTR [b]) bs /\
    reads wk = a :: rest /\
    read_retry 1 fuel fd buf cap w
    = sys_read fd (fold_left (fun acc b => blit acc [b]) bs buf) cap wk.
Proof.
  revert fuel buf w.
  induction bs as [|b bs IH]; intros fuel buf w Hcap He Hr Ha Hf.
  - exists w. simpl in *. rewrite app_nil_r. split; auto. split; auto.
    destruct fuel as [|fuel]; [lia|].
    unfold read_retry. rewrite loop_S. unfold read_retry_body.
    unfold bind, sys_read, get_errno. rewrite Hr.
    destruct a as [d|e]; cbn [errno emit set_reads set_errno].
    + simpl in Ha.
      replace (len_of (span d cap) =? 1) with false
        by (symmetry; apply Z.eqb_neq; exact Ha).
      reflexivity.
    + reflexivity.
  - destruct fuel as [|fuel]; [lia|].
    simpl in Hr, Hf.
    assert (Hsp : span [b] cap = [b]).
    { rewrite span_firstn. replace (Z.to_nat cap) with (S (Z.to_nat (cap - 1)))
        by lia. simpl. now rewrite firstn_nil. }
    set (w1 := emit (EvRead fd cap 1 EINTR [b])
                 (set_reads (map (fun b => RData [b]) bs ++ a :: rest) w)).
    destruct (IH fuel (blit buf [b]) w1) as (wk & Hl & Hrk & Heq);
      auto; try lia.
    exists wk. split.
    { rewrite Hl. unfold w1. simpl. rewrite <- app_assoc. reflexivity. }
    split; auto.
    simpl fold_left. rewrite <- Heq.
    unfold read_retry. rewrite loop_S.
    unfold read_retry_body at 1. unfold bind, sys_read, get_errno.
    rewrite Hr, Hsp. cbn [errno emit set_reads set_errno len_of length].
    rewrite He. simpl Z.of_nat. rewrite !Z.eqb_refl. reflexivity.
Qed.

(** *** Waits that report nothing *)

Lemma streaming_body_idle (fuel : nat) (fd : Z) (tls : ptls_t)
    (st : hc_state) (w : World) (a : select_answer)
    (rest : list select_answer) :
  selects w = a :: rest -> idle fd a ->
  exists sel,
    is_select sel /\
    streaming_body fuel fd tls st w
    = Done (inl st)
        (emit sel (match a with
                   | SelFail e => set_errno e (set_selects rest w)
                   | SelReady _ => set_selects rest w
                   end)).
Proof.
  intros Hs Hi. unfold streaming_body, bind, sys_select. rewrite Hs.
  destruct a as [ready|e]; simpl in Hi.
  - destruct Hi as [H0 Hfd]. cbn [FD_SET FD_ZERO filter]. rewrite Hfd, H0.
    eexists. split; [|reflexivity]. exact Logic.I.
  - eexists. split; [|reflexivity]. exact Logic.I.
Qed.

(** X4.  A wait that fails, with any errno, or that reports neither
    descriptor ready, ends nothing: the turn does nothing else and the loop
    goes on with its state unchanged.  After [k] such waits in a row the
    loop is where it was, [k] calls of [select] later. *)
Theorem idle_waits_change_nothing (idles : list select_answer) (n fuel : nat)
    (fd : Z) (tls : ptls_t) (st : hc_state) (w : World)
    (rest : list select_answer) :
  selects w = idles ++ rest ->
  Forall (idle fd) idles ->
  exists wk evs,
    log wk = log w ++ evs /\
    Forall is_select evs /\
    length evs = length idles /\
    selects wk = rest /\
    reads wk = reads w /\ sends wk = sends w /\ receives wk = receives w /\
    loop (length idles + n) (streaming_body fuel fd tls) st w
    = loop n (streaming_body fuel fd tls) st wk.
Proof.
  revert w. induction idles as [|a idles IH]; intros w Hs Hi.
  - exists w, []. simpl in *. rewrite app_nil_r. repeat split; auto.
  - pose proof (Forall_inv Hi) as Ha. pose proof (Forall_inv_tail Hi) as Hi'.
    simpl in Hs.
    destruct (streaming_body_idle fuel fd tls st w a (idles ++ rest) Hs Ha)
      as (sel & Hsel & Hb).
    set (w1 := emit sel _) in Hb.
    destruct (IH w1) as (wk & evs & Hl & Hev & Hlen & Hsk & Hrd & Hsd & Hrc & Heq);
      auto.
    { unfold w1. destruct a; reflexivity. }
    exists wk, (sel :: evs).
    split. { rewrite Hl. unfold w1. destruct a; simpl;
             now rewrite <- app_assoc. }
    split; [constructor; auto|]. split; [simpl; lia|]. split; auto.
    split. { rewrite Hrd. unfold w1. destruct a; reflexivity. }
    split. { rewrite Hsd. unfold w1. destruct a; reflexivity. }
    split. { rewrite Hrc. unfold w1. destruct a; reflexivity. }
    change (length (a :: idles) + n)%nat with (S (length idles + n)).
    rewrite loop_S, Hb. exact Heq.
Qed.

(** *** Computations with a result of a kind *)

Lemma emits_ret {A} (P : event -> Prop) (Q : A -> Prop) (a : A) :
  Q a -> emits P Q (ret a).
Proof. intros H w. exists []. simpl. rewrite app_nil_r. auto. Qed.

Lemma emits_bind {A B} (P : event -> Prop) (Q : A -> Prop) (R : B -> Prop)
    (m : M A) (k : A -> M B) :
  emits P Q m -> (forall a, Q a -> emits P R (k a)) -> emits P R (bind m k).
Proof.
  intros Hm Hk w. unfold bind.
  destruct (Hm w) as (e1 & H1 & F1 & Q1).
  destruct (m w) as [a w'|y w']; simpl in *.
  - destruct (Hk a Q1 w') as (e2 & H2 & F2 & Q2).
    exists (e1 ++ e2). rewrite H2, H1, app_assoc. split; auto.
    split; auto. apply Forall_app; auto.
  - exists e1; auto.
Qed.

Lemma emits_loop {S R} (P : event -> Prop) (I : S -> Prop) (Q : R -> Prop)
    (body : S -> M (S + R)) (fuel : nat) (s : S) :
  (forall s, I s ->
     emits P (fun x => match x with inl s' => I s' | inr r => Q r end)
       (body s)) ->
  I s -> emits P Q (loop fuel body s).
Proof.
  intros Hb. revert s. induction fuel as [|fuel IH]; intros s Hs.
  - intros w. exists []. simpl. rewrite app_nil_r. auto.
  - simpl. eapply emits_bind; [apply Hb; exact Hs|].
    intros [s'|r] Hx; [apply IH; exact Hx|apply emits_ret; exact Hx].
Qed.

Lemma emits_weaken {A} (P P' : event -> Prop) (Q Q' : A -> Prop) (m : M A) :
  (forall e, P e -> P' e) -> (forall a, Q a -> Q' a) ->
  emits P Q m -> emits P' Q' m.
Proof.
  intros HP HQ Hm w. destruct (Hm w) as (evs & H & F & Hq).
  exists evs. split; auto. split.
  - eapply Forall_impl; eauto.
  - destruct (m w); auto.
Qed.

Lemma only_emits {A} (P : event -> Prop) (m : M A) :
  only P m -> emits P (fun _ => True) m.
Proof.
  intros Hm w. destruct (Hm w) as (evs & H & F).
  exists evs. split; auto. split; auto. destruct (m w); auto.
Qed.

(** What an [only] computation emits, with any result. *)
Lemma emits_of_only {A} (P P' : event -> Prop) (m : M A) :
  (forall e, P e -> P' e) -> only P m -> emits P' (fun _ => True) m.
Proof.
  intros HP Hm. eapply emits_weaken; [exact HP| |apply only_emits; exact Hm].
  auto.
Qed.

(** *** The outbound buffer is empty whenever the engine appends to it *)

Lemma write_drained (fd : Z) (e : event) : is_write fd e -> drained e.
Proof. destruct e; simpl; tauto. Qed.

Lemma read_drained (fd : Z) (e : event) : is_read fd e -> drained e.
Proof. destruct e; simpl; tauto. Qed.

Lemma pump_drained (e : event) : pump_event e -> drained e.
Proof. destruct e; simpl; tauto. Qed.

Lemma select_drained (e : event) : is_select e -> drained e.
Proof. destruct e; simpl; tauto. Qed.

Lemma run_handshake_drained (fuel : nat) (fd : Z) (tls : ptls_t)
    (wbuf : ptls_buffer_t) (buf : list byte) (bufsz : Z) :
  off wbuf = 0 ->
  emits drained (fun _ => True) (run_handshake fuel fd tls wbuf buf bufsz).
Proof.
  intros H0. unfold run_handshake.
  apply (emits_loop drained
           (fun st : hs_state => let '(wb, _, _, _) := st in off wb = 0)).
  2:{ exact H0. }
  intros [[[wb pin] plen] rret] Hwb. unfold run_handshake_body.
  eapply (emits_bind _ (fun _ => True)).
  { intros w. unfold ptls_handshake.
    destruct (handshakes w) as [|a rest]; simpl.
    - exists []. rewrite app_nil_r. auto.
    - eexists [_]. split; [reflexivity|]. split; [|exact Logic.I].
      constructor; [exact Hwb|constructor]. }
  intros [[r wb'] plen'] _.
  destruct (r =? PTLS_ERROR_HANDSHAKE_IN_PROGRESS).
  - eapply (emits_bind _ (fun _ => True)).
    { eapply emits_of_only; [apply (write_drained fd)|apply only_write_all]. }
    intros wr _. destruct (negb (wr =? 0)); [now apply emits_ret|].
    eapply (emits_bind _ (fun _ => True)).
    { eapply emits_of_only; [apply (read_drained fd)|apply only_read_retry]. }
    intros [rr pin'] _. destruct (rr <=? 0); now apply emits_ret.
  - destruct (negb (r =? 0)).
    { eapply (emits_bind _ (fun _ => True)).
      { apply (emits_of_only drained drained); [auto|].
        apply only_fprintf; exact Logic.I. }
      intros; now apply emits_ret. }
    eapply (emits_bind _ (fun _ => True)); [|intros; now apply emits_ret].
    destruct (negb _).
    + apply (emits_of_only drained drained); [auto|].
      apply only_memmove; exact Logic.I.
    + apply emits_ret. exact Logic.I.
Qed.

Lemma input_ready_branch_drained (fuel : nat) (fd : Z) (tls : ptls_t)
    (st : hc_state) :
  off (fst st) = 0 ->
  emits drained
    (fun r : option hc_state =>
       match r with Some st' => off (fst st') = 0 | None => True end)
    (input_ready_branch fuel fd tls st).
Proof.
  destruct st as [wb rb]. simpl. intros Hwb. unfold input_ready_branch.
  eapply (emits_bind _ (fun _ => True)).
  { eapply emits_of_only; [apply (read_drained 0)|apply only_read_retry]. }
  intros [rr rb'] _.
  eapply (emits_bind _ (fun _ => True)).
  { intros w. unfold ptls_send.
    destruct (sends w) as [|a rest]; simpl.
    - exists []. rewrite app_nil_r. auto.
    - eexists [_]. split; [reflexivity|]. split; [|exact Logic.I].
      constructor; [exact Hwb|constructor]. }
  intros [r wb'] _.
  destruct (negb (r =? 0)).
  { eapply (emits_bind _ (fun _ => True)).
    { apply (emits_of_only drained drained); [auto|].
      apply only_fprintf; exact Logic.I. }
    intros; now apply emits_ret. }
  eapply (emits_bind _ (fun _ => True)).
  { eapply emits_of_only; [apply (write_drained fd)|apply only_write_all]. }
  intros wr _. destruct (negb (wr =? 0)); now apply emits_ret.
Qed.

Lemma socket_ready_branch_drained (fuel : nat) (fd : Z) (tls : ptls_t)
    (st : hc_state) :
  off (fst st) = 0 ->
  emits drained
    (fun r : option hc_state =>
       match r with Some st' => off (fst st') = 0 | None => True end)
    (socket_ready_branch fuel fd tls st).
Proof.
  destruct st as [wb rb]. simpl. intros Hwb. unfold socket_ready_branch.
  eapply (emits_bind _ (fun _ => True)).
  { eapply emits_of_only; [apply (read_drained fd)|apply only_read_retry]. }
  intros [rr rb'] _. destruct (rr <=? 0); [now apply emits_ret|].
  eapply (emits_bind _ (fun _ => True)).
  { eapply emits_of_only; [apply pump_drained|apply only_decrypt_and_print]. }
  intros r _. destruct (negb (r =? 0)); now apply emits_ret.
Qed.

Lemma streaming_body_drained (fuel : nat) (fd : Z) (tls : ptls_t)
    (st : hc_state) :
  off (fst st) = 0 ->
  emits drained
    (fun x : hc_state + unit =>
       match x with inl st' => off (fst st') = 0 | inr _ => True end)
    (streaming_body fuel fd tls st).
Proof.
  intros Hst. unfold streaming_body.
  eapply (emits_bind _ (fun _ => True)).
  { eapply emits_of_only; [apply select_drained|apply only_sys_select]. }
  intros [n s] _. destruct (n <=? 0); [now apply emits_ret|].
  unfold serve_ready.
  eapply emits_bind.
  { destruct (FD_ISSET 0 s).
    - apply input_ready_branch_drained. exact Hst.
    - apply emits_ret. exact Hst. }
  intros [st1|] H1; [|now apply emits_ret].
  eapply emits_bind.
  { destruct (FD_ISSET fd s).
    - apply socket_ready_branch_drained. exact H1.
    - apply emits_ret. exact H1. }
  intros [st2|] H2; now apply emits_ret.
Qed.

(** X5.  Throughout a connection, every engine call that appends to the
    outbound buffer, a handshake step or a sealing call, finds the offset
    of the buffer at zero: the offset is reset before the buffer is used
    again. *)
Theorem outbound_buffer_drained_before_reuse (fuel : nat) (fd : Z)
    (name : option string) (w : World) :
  exists evs,
    log (world_of (handle_connection fuel fd name w)) = log w ++ evs /\
    Forall drained evs.
Proof.
  assert (H : emits drained (fun _ => True) (handle_connection fuel fd name)).
  { unfold handle_connection.
    eapply (emits_bind _ (fun _ => True)).
    { intros w0. eexists [_]. split; [reflexivity|].
      split; [repeat constructor|exact Logic.I]. }
    intros tls _.
    eapply (emits_bind _ (fun _ => True)).
    { unfold session.
      eapply (emits_bind _ (fun _ => True)).
      { apply run_handshake_drained. reflexivity. }
      intros [[[r wb] rb] roff] _.
      destruct (negb (r =? 0)); [now apply emits_ret|].
      eapply (emits_bind _ (fun _ => True)).
      { eapply emits_of_only; [apply (write_drained fd)|apply only_write_all]. }
      intros wr _. destruct (negb (wr =? 0)); [now apply emits_ret|].
      eapply (emits_bind _ (fun _ => True)).
      { eapply emits_of_only; [apply pump_drained|apply only_decrypt_and_print]. }
      intros r' _. destruct (negb (r' =? 0)); [now apply emits_ret|].
      apply (emits_loop drained (fun st : hc_state => off (fst st) = 0)).
      - intros st Hst. eapply emits_weaken; [| |apply streaming_body_drained].
        + auto.
        + intros [st'|[]]; auto.
        + exact Hst.
      - reflexivity. }
    intros _ _.
    eapply (emits_bind _ (fun _ => True)).
    { intros w0. eexists [_]. split; [reflexivity|].
      split; [repeat constructor|exact Logic.I]. }
    intros _ _.
    eapply (emits_bind _ (fun _ => True)); [|intros; now apply emits_ret].
    intros w0. eexists [_]. split; [reflexivity|].
    split; [repeat constructor|exact Logic.I]. }
  destruct (H w) as (evs & Hl & Hev & _). eauto.
Qed.

(** *** The input array keeps its size *)

Lemma len_blit (b d : list byte) :
  len_of d <= len_of b -> len_of (blit b d) = len_of b.
Proof.
  unfold blit, len_of. intros H. rewrite length_app, length_skipn. lia.
Qed.

Lemma len_advance (p : list byte) (n : Z) : len_of (advance p n) <= len_of p.
Proof.
  rewrite advance_skipn. unfold len_of. rewrite length_skipn. lia.
Qed.

Lemma len_span_le (p : list byte) (n : Z) : len_of (span p n) <= len_of p.
Proof.
  rewrite span_firstn. unfold len_of. rewrite length_firstn. lia.
Qed.

Lemma read_retry_keeps_size (sentinel : Z) (fuel : nat) (fd : Z)
    (buf : list byte) (cap : Z) :
  0 <= cap <= len_of buf ->
  emits (fun _ => True)
    (fun x : Z * list byte => len_of (snd x) = len_of buf)
    (read_retry sentinel fuel fd buf cap).
Proof.
  intros Hcap. unfold read_retry.
  apply (emits_loop _ (fun b : list byte => len_of b = len_of buf));
    [|reflexivity].
  intros b Hb. unfold read_retry_body.
  eapply (emits_bind _ (fun x : Z * list byte => len_of (snd x) = len_of buf)).
  { intros w. unfold sys_read.
    destruct (reads w) as [|[d|e] rest]; simpl.
    - exists []. rewrite app_nil_r. auto.
    - eexists [_]. split; [reflexivity|]. split; [repeat constructor|].
      rewrite len_blit; auto. pose proof (len_span d cap). lia.
    - eexists [_]. split; [reflexivity|]. split; [repeat constructor|auto]. }
  intros [r b'] Hb'. simpl in Hb'.
  eapply (emits_bind _ (fun _ => True)).
  { apply only_emits. apply only_get_errno. }
  intros e _. destruct (_ && _); apply emits_ret; exact Hb'.
Qed.

Lemma any_event {A} (P : event -> Prop) (m : M A) :
  only P m -> emits (fun _ => True) (fun _ => True) m.
Proof. intros H. eapply emits_of_only; [|exact H]. auto. Qed.

Lemma run_handshake_keeps_size (fuel : nat) (fd : Z) (tls : ptls_t)
    (wbuf : ptls_buffer_t) (buf : list byte) (bufsz : Z) :
  0 <= bufsz <= len_of buf ->
  emits (fun _ => True)
    (fun x : hs_result => let '(_, _, buf', _) := x in
                          len_of buf' = len_of buf)
    (run_handshake fuel fd tls wbuf buf bufsz).
Proof.
  intros Hsz. unfold run_handshake.
  apply (emits_loop _
           (fun st : hs_state => let '(_, pin, _, _) := st in
                                 len_of pin = len_of buf));
    [|reflexivity].
  intros [[[wb pin] plen] rret] Hpin. unfold run_handshake_body.
  eapply (emits_bind _ (fun _ => True)).
  { eapply any_event. apply (only_ptls_handshake fd). }
  intros [[r wb'] plen'] _.
  destruct (r =? PTLS_ERROR_HANDSHAKE_IN_PROGRESS).
  - eapply (emits_bind _ (fun _ => True)).
    { eapply any_event. apply only_write_all. }
    intros wr _. destruct (negb (wr =? 0)); [now apply emits_ret|].
    eapply emits_bind.
    { apply read_retry_keeps_size. lia. }
    intros [rr pin'] Hp. simpl in Hp.
    destruct (rr <=? 0); apply emits_ret; lia.
  - destruct (negb (r =? 0)).
    { eapply (emits_bind _ (fun _ => True)).
      { eapply any_event. apply (only_fprintf (fun _ => True)). exact Logic.I. }
      intros; now apply emits_ret. }
    eapply (emits_bind _ (fun p : list byte => len_of p = len_of buf));
      [|intros; now apply emits_ret].
    destruct (negb _).
    + intros w. eexists [_]. split; [reflexivity|].
      split; [repeat constructor|]. simpl.
      rewrite len_blit; auto.
      pose proof (len_span_le (advance pin plen')
                    (size_t (rret - plen'))).
      pose proof (len_advance pin plen'). lia.
    + apply emits_ret. exact Hpin.
Qed.

Lemma read_retry_fits (sentinel : Z) (fuel : nat) (fd : Z)
    (buf : list byte) (cap : Z) :
  0 <= cap <= len_of buf ->
  emits (read_fits (len_of buf))
    (fun x : Z * list byte => fst x <= cap /\ len_of (snd x) = len_of buf)
    (read_retry sentinel fuel fd buf cap).
Proof.
  intros Hcap. unfold read_retry.
  apply (emits_loop _ (fun b : list byte => len_of b = len_of buf));
    [|reflexivity].
  intros b Hb. unfold read_retry_body.
  eapply (emits_bind _ (fun x : Z * list byte =>
                          fst x <= cap /\ len_of (snd x) = len_of buf)).
  { intros w. unfold sys_read.
    destruct (reads w) as [|[d|e] rest]; simpl.
    - exists []. rewrite app_nil_r. auto.
    - pose proof (len_span d cap) as Hd.
      eexists [_]. split; [reflexivity|]. split.
      + constructor; [simpl; lia|constructor].
      + split; [lia|]. rewrite len_blit; lia.
    - eexists [_]. split; [reflexivity|]. split.
      + constructor; [|constructor].
        simpl. repeat split; try lia. unfold len_of. simpl. lia.
      + split; [lia|auto]. }
  intros [r b'] Hb'. simpl in Hb'.
  eapply (emits_bind _ (fun _ => True)).
  { apply (emits_of_only (fun _ => False)); [contradiction|].
    intros w. exists []. simpl. now rewrite app_nil_r. }
  intros e _. destruct (_ && _); apply emits_ret; simpl; tauto.
Qed.

Lemma no_read_fits {A} (P : event -> Prop) (size : Z) (m : M A) :
  (forall e, P e -> ~ exists fd cap r err d, e = EvRead fd cap r err d) ->
  only P m -> emits (read_fits size) (fun _ => True) m.
Proof.
  intros HP. apply emits_of_only. intros e He.
  destruct e; simpl; auto. exfalso. eapply HP; eauto 10.
Qed.

Lemma engine_call_fits {A} (size : Z) (m : M A) :
  (forall w, exists evs,
      log (world_of (m w)) = log w ++ evs /\
      Forall (fun e => match e with
                       | EvHandshake _ _ _ _ _ | EvSend _ _ _ _ _ => True
                       | _ => False
                       end) evs) ->
  emits (read_fits size) (fun _ => True) m.
Proof.
  intros H. eapply no_read_fits; [|exact H].
  intros e He (fd' & cap & r & err & d & ->). exact He.
Qed.

Lemma ptls_send_fits (size : Z) (tls : ptls_t) (b : ptls_buffer_t)
    (i : list byte) (n : Z) :
  emits (read_fits size) (fun _ => True) (ptls_send tls b i n).
Proof.
  apply engine_call_fits. intros w. unfold ptls_send.
  destruct (sends w) as [|a rest]; simpl;
    [exists []; now rewrite app_nil_r|];
    (eexists [_]; split; [reflexivity|constructor; simpl; auto]).
Qed.

Lemma write_all_fits (size : Z) (fuel : nat) (fd : Z) (data : list byte)
    (len : Z) :
  emits (read_fits size) (fun _ => True) (write_all fuel fd data len).
Proof.
  eapply no_read_fits; [|apply only_write_all].
  intros e He (fd' & cap & r & err & d & ->). exact He.
Qed.

Lemma decrypt_and_print_fits (size : Z) (fuel : nat) (tls : ptls_t)
    (input : list byte) (inlen : Z) :
  emits (read_fits size) (fun _ => True)
    (decrypt_and_print fuel tls input inlen).
Proof.
  eapply no_read_fits; [|apply only_decrypt_and_print].
  intros e He (fd' & cap & r & err & d & ->). exact He.
Qed.

Lemma fprintf_fits (size : Z) (msg : string) (code : Z) :
  emits (read_fits size) (fun _ => True) (fprintf msg code).
Proof.
  apply only_emits. apply only_fprintf. exact Logic.I.
Qed.

Lemma streaming_body_reads_fit (fuel : nat) (fd : Z) (tls : ptls_t)
    (st : hc_state) :
  1024 <= len_of (snd st) ->
  emits (read_fits (len_of (snd st)))
    (fun x : hc_state + unit =>
       match x with
       | inl st' => len_of (snd st') = len_of (snd st)
       | inr _ => True
       end)
    (streaming_body fuel fd tls st).
Proof.
  destruct st as [wb rb]. simpl. intros Hrb. unfold streaming_body.
  eapply (emits_bind _ (fun _ => True)).
  { eapply no_read_fits; [|apply only_sys_select].
    intros e He (fd' & cap & r & err & d & ->). exact He. }
  intros [n s] _. destruct (n <=? 0); [now apply emits_ret|].
  unfold serve_ready.
  eapply (emits_bind _
            (fun r : option hc_state =>
               match r with
               | Some st' => len_of (snd st') = len_of rb
               | None => True
               end)).
  { destruct (FD_ISSET 0 s); [|now apply emits_ret].
    unfold input_ready_branch.
    eapply emits_bind; [apply (read_retry_fits 1); lia|].
    intros [rr rb'] [_ Hl]. simpl in Hl.
    eapply (emits_bind _ (fun _ => True)); [apply ptls_send_fits|].
    intros [r wb'] _.
    destruct (negb (r =? 0)).
    { eapply (emits_bind _ (fun _ => True)); [apply fprintf_fits|].
      intros; now apply emits_ret. }
    eapply (emits_bind _ (fun _ => True)); [apply write_all_fits|].
    intros wr _. destruct (negb (wr =? 0)); now apply emits_ret. }
  intros [[wb1 rb1]|] H1; [|now apply emits_ret]. simpl in H1.
  eapply (emits_bind _
            (fun r : option hc_state =>
               match r with
               | Some st' => len_of (snd st') = len_of rb
               | None => True
               end)).
  { destruct (FD_ISSET fd s); [|now apply emits_ret].
    unfold socket_ready_branch. rewrite <- H1.
    eapply emits_bind; [apply (read_retry_fits 1); lia|].
    intros [rr rb'] [_ Hl]. simpl in Hl.
    destruct (rr <=? 0); [now apply emits_ret|].
    eapply (emits_bind _ (fun _ => True)); [apply decrypt_and_print_fits|].
    intros r _. destruct (negb (r =? 0)); apply emits_ret; simpl; auto. }
  intros [st2|] H2; now apply emits_ret.
Qed.

(** The reads and the shift of [run_handshake] on an array of the size
    asked for at least. *)
Lemma run_handshake_in_bounds (fuel : nat) (fd : Z) (tls : ptls_t)
    (wbuf : ptls_buffer_t) (buf : list byte) (bufsz : Z) (w : World) :
  0 <= bufsz <= len_of buf -> bufsz < 2 ^ 64 ->
  exists evs,
    log (world_of (run_handshake fuel fd tls wbuf buf bufsz w))
    = log w ++ evs /\
    Forall (read_fits (len_of buf)) evs /\
    (Forall within evs -> Forall (shift_fits (len_of buf)) evs).
Proof.
  intros Hsz Hlt. unfold run_handshake.
  set (Q := fun o : outcome hs_result =>
    exists evs,
      log (world_of o) = log w ++ evs /\
      Forall (read_fits (len_of buf)) evs /\
      (Forall within evs -> Forall (shift_fits (len_of buf)) evs)).
  match goal with |- context [loop fuel ?b ?s w] =>
    change (Q (loop fuel b s w)) end.
  set (I := fun (st : hs_state) (wc : World) =>
    let '(_, pin, plen, rret) := st in
    exists evs,
      log wc = log w ++ evs /\
      Forall (read_fits (len_of buf)) evs /\
      Forall (shift_fits (len_of buf)) evs /\
      len_of pin = len_of buf /\
      plen = rret /\ 0 <= rret <= bufsz).
  assert (Hquiet : forall fd' l, Forall (is_write fd') l ->
            Forall (shift_fits (len_of buf)) l).
  { intros fd' l. apply Forall_impl. intros [] H; simpl in *; tauto. }
  assert (Hquiet' : forall l, Forall (read_fits (len_of buf)) l ->
            Forall (is_read fd) l ->
            Forall (shift_fits (len_of buf)) l).
  { intros l _. apply Forall_impl. intros [] H; simpl in *; tauto. }
  apply (loop_inv _ I Q).
  - intros [[[wb pin] plen] rret] wc (evs & Hlog & Hrf & Hsf & _).
    exists evs. auto.
  - intros [[[wb pin] plen] rret] wc
      (evs & Hlog & Hrf & Hsf & Hpin & Hpl & Hr).
    unfold run_handshake_body, bind at 1, ptls_handshake.
    destruct (handshakes wc) as [|a rest]; [exists evs; auto|].
    set (eh := EvHandshake (off wb) (span pin plen) (hs_ret a) (hs_out a)
                 (hs_consumed a)).
    set (w1 := emit eh (set_handshakes rest wc)).
    assert (Hl1 : log w1 = log w ++ evs ++ [eh]).
    { unfold w1. simpl. now rewrite Hlog, app_assoc. }
    clearbody w1.
    assert (Hrf1 : Forall (read_fits (len_of buf)) (evs ++ [eh])).
    { apply Forall_app. split; auto. repeat constructor. }
    assert (Hsf1 : Forall (shift_fits (len_of buf)) (evs ++ [eh])).
    { apply Forall_app. split; auto. repeat constructor. }
    destruct (hs_ret a =? PTLS_ERROR_HANDSHAKE_IN_PROGRESS).
    + unfold bind at 1.
      destruct (only_write_all fuel fd (base (buffer_push wb (hs_out a)))
                  (off (buffer_push wb (hs_out a))) w1) as (wevs & Hl2 & Hww).
      assert (Hrf2 : Forall (read_fits (len_of buf)) ((evs ++ [eh]) ++ wevs)).
      { apply Forall_app. split; auto.
        eapply Forall_impl; [|exact Hww]. intros [] H; simpl in *; tauto. }
      assert (Hsf2 : Forall (shift_fits (len_of buf)) ((evs ++ [eh]) ++ wevs)).
      { apply Forall_app. split; auto. eapply Hquiet; eauto. }
      destruct (write_all fuel fd _ _ w1) as [wr w2|y w2]; simpl in Hl2.
      2:{ exists ((evs ++ [eh]) ++ wevs). split; [|auto].
          simpl. rewrite Hl2, Hl1, <- !app_assoc. reflexivity. }
      destruct (wr =? 0); cbn [negb].
      2:{ exists ((evs ++ [eh]) ++ wevs). split; [|auto].
          simpl. rewrite Hl2, Hl1, <- !app_assoc. reflexivity. }
      unfold bind.
      assert (Hcap : 0 <= bufsz <= len_of pin) by lia.
      destruct (read_retry_fits (-1) fuel fd pin bufsz Hcap w2)
        as (revs & Hl3 & Hrr & Hres).
      destruct (only_read_retry (-1) fuel fd pin bufsz w2)
        as (revs' & Hl3' & Hrd).
      assert (revs' = revs).
      { apply (app_inv_head (log w2)). now rewrite <- Hl3, <- Hl3'. }
      subst revs'. rewrite Hpin in Hrr.
      assert (Hrf3 : Forall (read_fits (len_of buf))
                       (((evs ++ [eh]) ++ wevs) ++ revs)).
      { apply Forall_app. split; auto. }
      assert (Hsf3 : Forall (shift_fits (len_of buf))
                       (((evs ++ [eh]) ++ wevs) ++ revs)).
      { apply Forall_app. split; auto. }
      assert (Hlog3 : log (world_of (read_retry (-1) fuel fd pin bufsz w2))
                      = log w ++ ((evs ++ [eh]) ++ wevs) ++ revs).
      { rewrite Hl3, Hl2, Hl1, <- !app_assoc. reflexivity. }
      destruct (read_retry (-1) fuel fd pin bufsz w2) as [[rr pin'] w3|y w3];
        simpl in Hlog3.
      2:{ eexists. split; [exact Hlog3|]. auto. }
      simpl in Hres. destruct Hres as [Hrc Hlen].
      destruct (rr <=? 0) eqn:Er; simpl.
      * eexists. split; [exact Hlog3|]. auto.
      * apply Z.leb_gt in Er.
        eexists. split; [exact Hlog3|]. split; [exact Hrf3|].
        split; [exact Hsf3|]. split; [lia|].
        rewrite size_t_small by lia. split; [reflexivity|lia].
    + destruct (hs_ret a =? 0); cbn [negb].
      * destruct (negb (size_t rret =? hs_consumed a)).
        -- exists ((evs ++ [eh]) ++ [EvMemmove (hs_consumed a)
                                      (size_t (rret - hs_consumed a))]).
           split; [simpl; rewrite Hl1, <- !app_assoc; reflexivity|].
           split. { apply Forall_app. split; auto. repeat constructor. }
           intros Hw. apply Forall_app. split; auto.
           constructor; [|constructor].
           apply Forall_app in Hw. destruct Hw as [Hw _].
           apply Forall_app in Hw. destruct Hw as [_ Hw].
           apply Forall_inv in Hw. simpl in Hw.
           pose proof (len_span pin plen) as Hls.
           simpl. rewrite size_t_small by lia. lia.
        -- exists (evs ++ [eh]). simpl. auto.
      * exists ((evs ++ [eh]) ++ [EvFprintf "ptls_handshake" (hs_ret a)]).
        split; [simpl; rewrite Hl1, <- !app_assoc; reflexivity|].
        split; [|intros _]; apply Forall_app; split; auto;
          repeat constructor.
  - exists []. rewrite app_nil_r. repeat split; auto; lia.
Qed.

(** X6.  Nothing is stored past the end of the input array, as long as
    the engine does not report more bytes consumed than it was offered.
    In [run_handshake], on an array of at least the size asked for, every
    read asks for no more than the array holds and returns no more than it
    asked for; when every handshake step consumed at most what it was
    offered, the shift moves a span that lies within the array; and the
    array comes out with the size it had.  In a turn of the streaming
    loop, on an array of at least 1024 bytes, every read fits likewise and
    the array comes out with the size it had. *)
Theorem input_array_keeps_size (fuel : nat) (fd : Z) (tls : ptls_t)
    (wbuf : ptls_buffer_t) (buf : list byte) (bufsz : Z) (st : hc_state)
    (w : World) (evs : list event) :
  0 <= bufsz <= len_of buf -> bufsz < 2 ^ 64 ->
  1024 <= len_of (snd st) ->
  log (world_of (run_handshake fuel fd tls wbuf buf bufsz w)) = log w ++ evs ->
  Forall within evs ->
  (Forall (read_fits (len_of buf)) evs /\
   Forall (shift_fits (len_of buf)) evs /\
   match run_handshake fuel fd tls wbuf buf bufsz w with
   | Done (_, _, buf', _) _ => len_of buf' = len_of buf
   | Stuck _ _ => True
   end) /\
  (exists tevs,
      log (world_of (streaming_body fuel fd tls st w)) = log w ++ tevs /\
      Forall (read_fits (len_of (snd st))) tevs /\
      match streaming_body fuel fd tls st w with
      | Done (inl st') _ => len_of (snd st') = len_of (snd st)
      | _ => True
      end).
Proof.
  intros Hsz Hlt Hst Hlog Hw. split.
  - destruct (run_handshake_in_bounds fuel fd tls wbuf buf bufsz w Hsz Hlt)
      as (evs' & Hlog' & Hrf & Hsf).
    assert (evs' = evs).
    { apply (app_inv_head (log w)). now rewrite <- Hlog, <- Hlog'. }
    subst evs'. split; [exact Hrf|]. split; [exact (Hsf Hw)|].
    destruct (run_handshake_keeps_size fuel fd tls wbuf buf bufsz Hsz w)
      as (_ & _ & _ & H).
    destruct (run_handshake fuel fd tls wbuf buf bufsz w)
      as [[[[r wb] b'] l'] w'|]; auto.
  - destruct (streaming_body_reads_fit fuel fd tls st Hst w)
      as (tevs & Hl & Hf & H).
    exists tevs. split; [exact Hl|]. split; [exact Hf|].
    destruct (streaming_body fuel fd tls st w) as [[st'|[]] w'|]; auto.
Qed.

(** *** Wake-ups with one descriptor ready *)

Lemma input_side_only (fuel : nat) (fd : Z) (tls : ptls_t) (st : hc_state)
    (w : World) (ready : list Z) (ss : list select_answer) :
  selects w = SelReady ready :: ss ->
  Zmem 0 ready = true -> Zmem fd ready = false ->
  exists sel evs,
    log (world_of (streaming_body fuel fd tls st w)) = log w ++ sel :: evs /\
    is_select sel /\
    Forall (input_event fd) evs /\
    Forall (fun e => ~ is_read fd e /\ ~ is_receive e) evs.
Proof.
  intros Hs H0 Hfd.
  assert (Hne : fd <> 0) by (intros ->; congruence).
  unfold streaming_body, bind at 1, sys_select.
  rewrite Hs. cbn [FD_SET FD_ZERO filter]. rewrite Hfd, H0.
  set (w1 := emit _ _).
  assert (Hl1 : log w1 = log w ++ [EvSelect (fd + 1) [fd; 0]
                                     (len_of (nodup Z.eq_dec [0])) (errno w) [0]])
    by reflexivity.
  clearbody w1.
  rewrite nodup_count_pos.
  assert (Hi0 : FD_ISSET 0 [0] = true) by reflexivity.
  assert (Hif : FD_ISSET fd [0] = false).
  { unfold FD_ISSET, Zmem. cbn [existsb]. rewrite orb_false_r.
    now apply Z.eqb_neq. }
  unfold serve_ready. rewrite Hi0, Hif.
  match goal with |- context [world_of (?m w1)] =>
    assert (Ho : only (input_event fd) m) end.
  { apply only_bind; [apply only_input_ready_branch|].
    intros [st1|]; [|apply only_ret].
    apply only_bind; [apply only_ret|]. intros [st2|]; apply only_ret. }
  destruct (Ho w1) as (evs & Hl & Hev).
  eexists _, evs. rewrite Hl, Hl1, <- app_assoc.
  split; [reflexivity|]. split; [exact Logic.I|]. split; [exact Hev|].
  eapply Forall_impl; [|exact Hev].
  intros e He. destruct e; simpl in *; try tauto. split; auto. congruence.
Qed.

Lemma socket_side_only (fuel : nat) (fd : Z) (tls : ptls_t) (st : hc_state)
    (w : World) (ready : list Z) (ss : list select_answer) :
  selects w = SelReady ready :: ss ->
  Zmem 0 ready = false -> Zmem fd ready = true ->
  exists sel evs,
    log (world_of (streaming_body fuel fd tls st w)) = log w ++ sel :: evs /\
    is_select sel /\
    Forall (socket_event fd) evs /\
    Forall (fun e => ~ is_read 0 e /\ ~ is_seal e) evs.
Proof.
  intros Hs H0 Hfd.
  assert (Hne : fd <> 0) by (intros ->; congruence).
  unfold streaming_body, bind at 1, sys_select.
  rewrite Hs. cbn [FD_SET FD_ZERO filter]. rewrite Hfd, H0.
  set (w1 := emit _ _).
  assert (Hl1 : log w1 = log w ++ [EvSelect (fd + 1) [fd; 0]
                                     (len_of (nodup Z.eq_dec [fd])) (errno w)
                                     [fd]])
    by reflexivity.
  clearbody w1.
  rewrite nodup_count_pos.
  assert (Hif : FD_ISSET fd [fd] = true).
  { unfold FD_ISSET, Zmem. cbn [existsb]. now rewrite Z.eqb_refl. }
  assert (Hi0 : FD_ISSET 0 [fd] = false).
  { unfold FD_ISSET, Zmem. cbn [existsb]. rewrite orb_false_r.
    apply Z.eqb_neq. congruence. }
  unfold serve_ready. rewrite Hi0, Hif.
  match goal with |- context [world_of (?m w1)] =>
    assert (Ho : only (socket_event fd) m) end.
  { apply only_bind; [apply only_ret|].
    intros [st1|]; [|apply only_ret].
    apply only_bind; [apply only_socket_ready_branch|].
    intros [st2|]; apply only_ret. }
  destruct (Ho w1) as (evs & Hl & Hev).
  eexists _, evs. rewrite Hl, Hl1, <- app_assoc.
  split; [reflexivity|]. split; [exact Logic.I|]. split; [exact Hev|].
  eapply Forall_impl; [|exact Hev].
  intros e He. destruct e; simpl in *; try tauto. split; auto. congruence.
Qed.

(** X7.  A wake-up with only one descriptor ready serves only that one.
    When [select] reports standard input but not the socket, what the turn
    does after the wait is the input side alone: the socket is not read
    and nothing is unsealed.  When it reports the socket but not standard
    input, standard input is not read and nothing is sealed. *)
Theorem one_ready_one_served (fuel : nat) (fd : Z) (tls : ptls_t)
    (st : hc_state) (w : World) (ready : list Z) (ss : list select_answer) :
  selects w = SelReady ready :: ss ->
  Zmem 0 ready <> Zmem fd ready ->
  exists sel evs,
    log (world_of (streaming_body fuel fd tls st w)) = log w ++ sel :: evs /\
    is_select sel /\
    (Zmem 0 ready = true ->
     Forall (input_event fd) evs /\
     Forall (fun e => ~ is_read fd e /\ ~ is_receive e) evs) /\
    (Zmem fd ready = true ->
     Forall (socket_event fd) evs /\
     Forall (fun e => ~ is_read 0 e /\ ~ is_seal e) evs).
Proof.
  intros Hs Hne.
  destruct (Zmem 0 ready) eqn:H0, (Zmem fd ready) eqn:Hfd; try congruence.
  - destruct (input_side_only fuel fd tls st w ready ss Hs H0 Hfd)
      as (sel & evs & Hl & Hsel & H1 & H2).
    exists sel, evs. repeat split; auto; discriminate.
  - destruct (socket_side_only fuel fd tls st w ready ss Hs H0 Hfd)
      as (sel & evs & Hl & Hsel & H1 & H2).
    exists sel, evs. repeat split; auto; discriminate.
Qed.

(** *** End of file on standard input *)

(** X8.  End of file on standard input does not end the session.  When
    the read of standard input returns 0, the input-ready branch makes the
    sealing call all the same, on an empty input of length 0, and goes to
    [Exit] only if the engine refuses that call or the flush to the socket
    fails. *)
Theorem stdin_eof_is_sealed_as_empty (fuel : nat) (fd : Z) (tls : ptls_t)
    (wb : ptls_buffer_t) (rb : list byte) (w : World)
    (rs : list read_answer) (a : send_answer) (ss : list send_answer) :
  (0 < fuel)%nat ->
  reads w = RData [] :: rs ->
  sends w = a :: ss ->
  0 <= off wb ->
  exists evs,
    log (world_of (input_ready_branch fuel fd tls (wb, rb) w))
    = log w ++ EvRead 0 1024 0 (errno w) []
               :: EvSend (off wb) [] 0 (sd_ret a) (sd_out a) :: evs /\
    (forall w', input_ready_branch fuel fd tls (wb, rb) w = Done None w' ->
                sd_ret a <> 0 \/ Exists fatal evs).
Proof.
  intros Hf Hr Hsd Hoff. destruct fuel as [|fuel]; [lia|].
  remember (input_ready_branch (S fuel) fd tls (wb, rb) w) as o eqn:Ho.
  unfold input_ready_branch, bind at 1, read_retry in Ho.
  rewrite loop_S in Ho.
  unfold read_retry_body, bind at 1, sys_read in Ho. rewrite Hr in Ho.
  assert (Hsp : span (@nil byte) 1024 = []) by reflexivity.
  rewrite Hsp in Ho. unfold get_errno, bind at 1 in Ho.
  cbn [len_of length Z.of_nat Z.eqb andb break ret blit app skipn] in Ho.
  unfold bind at 1, ptls_send in Ho.
  cbn [sends emit set_reads] in Ho. rewrite Hsd in Ho.
  change (size_t 0) with 0 in Ho. rewrite span_zero in Ho.
  set (w2 := emit (EvSend (off wb) [] 0 (sd_ret a) (sd_out a)) _) in Ho.
  assert (Hl2 : log w2 = log w ++ [EvRead 0 1024 0 (errno w) [];
                                   EvSend (off wb) [] 0 (sd_ret a) (sd_out a)]).
  { unfold w2. simpl. now rewrite <- app_assoc. }
  clearbody w2.
  destruct (sd_ret a =? 0) eqn:E0; cbn [negb] in Ho.
  - unfold bind in Ho.
    destruct (write_all_spec (S fuel) fd (base (buffer_push wb (sd_out a)))
                (off (buffer_push wb (sd_out a))) w2)
      as (wevs & Hl3 & _ & _ & _ & Hm).
    { simpl. unfold len_of. lia. }
    exists wevs.
    destruct (write_all (S fuel) fd _ _ w2) as [wr w3|y w3]; simpl in Hl3.
    + destruct Hm as [(-> & _)|(-> & pre & e & -> & _ & Hfa & _)];
        simpl in Ho; subst o; simpl; rewrite Hl3, Hl2, <- app_assoc;
        (split; [reflexivity|]).
      * intros; discriminate.
      * intros _ _. right. now apply fatal_last.
    + subst o. simpl. rewrite Hl3, Hl2, <- app_assoc.
      split; [reflexivity|]. intros; discriminate.
  - unfold bind, fprintf, ret in Ho. subst o. simpl.
    exists [EvFprintf "ptls_send" (sd_ret a)].
    rewrite Hl2, <- app_assoc. split; [reflexivity|].
    intros _ _. left. now apply Z.eqb_neq.
Qed.

(** *** The handshake driver and the wire *)

Lemma at_each_nil (R : list event -> event -> Prop) : at_each R [].
Proof. intros pre e post H. destruct pre; discriminate. Qed.

Lemma at_each_snoc (R : list event -> event -> Prop) (evs : list event)
    (e : event) :
  at_each R evs -> R evs e -> at_each R (evs ++ [e]).
Proof.
  intros H He pre e' post Heq.
  destruct post as [|x post] using rev_ind.
  - apply app_inj_tail in Heq. destruct Heq as [<- <-]. exact He.
  - clear IHpost. rewrite app_comm_cons, app_assoc in Heq.
    apply app_inj_tail in Heq. destruct Heq as [Heq _].
    eapply H; eauto.
Qed.

Lemma at_each_app (R : list event -> event -> Prop) (evs tl : list event) :
  at_each R evs ->
  (forall pre e post, tl = pre ++ e :: post -> R (evs ++ pre) e) ->
  at_each R (evs ++ tl).
Proof.
  intros H. induction tl as [|x tl IH] using rev_ind; intros Htl.
  - now rewrite app_nil_r.
  - rewrite app_assoc. apply at_each_snoc.
    + apply IH. intros pre e post Heq. apply (Htl pre e (post ++ [x])).
      rewrite Heq, <- app_assoc. reflexivity.
    + apply (Htl tl x []). reflexivity.
Qed.

Lemma keeps_ret {A X} (f : World -> X) (a : A) : keeps f (ret a).
Proof. intros w. reflexivity. Qed.

Lemma keeps_bind {A B X} (f : World -> X) (m : M A) (k : A -> M B) :
  keeps f m -> (forall a, keeps f (k a)) -> keeps f (bind m k).
Proof.
  intros Hm Hk w. unfold bind. specialize (Hm w).
  destruct (m w) as [a w1|y w1]; simpl in *; [|exact Hm].
  now rewrite Hk.
Qed.

Lemma keeps_loop {S R X} (f : World -> X) (body : S -> M (S + R)) :
  (forall s, keeps f (body s)) -> forall fuel s, keeps f (loop fuel body s).
Proof.
  intros Hb fuel. induction fuel as [|fuel IH]; intros s w.
  - reflexivity.
  - rewrite loop_S. specialize (Hb s w).
    destruct (body s w) as [[s'|r] w1|y w1]; simpl in *; auto.
    now rewrite IH.
Qed.

Lemma write_all_keeps_handshakes (fuel : nat) (fd : Z) (data : list byte)
    (len : Z) : keeps handshakes (write_all fuel fd data len).
Proof.
  apply keeps_loop. intros [d l]. unfold write_all_body.
  destruct (l =? 0); [apply keeps_ret|].
  apply keeps_bind.
  - apply keeps_loop. intros u. unfold write_retry_body.
    apply keeps_bind.
    + intros w. unfold sys_write. destruct (writes w) as [|[n|e] rest];
        reflexivity.
    + intros r. apply keeps_bind; [intros w; reflexivity|].
      intros e. destruct ((r =? -1) && (e =? EINTR)); apply keeps_ret.
  - intros r. destruct (r <=? 0); apply keeps_ret.
Qed.

Lemma read_retry_keeps_handshakes (sentinel : Z) (fuel : nat) (fd : Z)
    (buf : list byte) (cap : Z) :
  keeps handshakes (read_retry sentinel fuel fd buf cap).
Proof.
  apply keeps_loop. intros b. unfold read_retry_body.
  apply keeps_bind.
  - intros w. unfold sys_read. destruct (reads w) as [|[d|e] rest];
      reflexivity.
  - intros [r b']. apply keeps_bind; [intros w; reflexivity|].
    intros e. destruct ((r =? sentinel) && (e =? EINTR)); apply keeps_ret.
Qed.

Lemma fed_app (cur : list byte) (l1 l2 : list event) :
  fed cur (l1 ++ l2) <-> fed cur l1 /\ fed (latest cur l1) l2.
Proof.
  revert cur. induction l1 as [|e l1 IH]; intros cur; simpl; [tauto|].
  destruct e; try apply IH. rewrite IH. tauto.
Qed.

Lemma latest_app (cur : list byte) (l1 l2 : list event) :
  latest cur (l1 ++ l2) = latest (latest cur l1) l2.
Proof.
  revert cur. induction l1 as [|e l1 IH]; intros cur; simpl; auto.
  destruct e; auto.
Qed.

Lemma fed_writes (fd : Z) (cur : list byte) (l : list event) :
  Forall (is_write fd) l -> fed cur l /\ latest cur l = cur.
Proof.
  induction 1 as [|e l He _ IH]; simpl; auto.
  destruct e; simpl in He; try tauto.
Qed.

Lemma fed_reads (fd : Z) (cur : list byte) (l : list event) :
  Forall (is_read fd) l -> fed cur l.
Proof.
  intros H. revert cur. induction H as [|e l He _ IH]; intros cur; simpl; auto.
  destruct e; simpl in He; try tauto. apply IH.
Qed.

(** X9.  Every handshake step is offered exactly what the latest read of
    the socket delivered, and the first step, before any read, is offered
    nothing. *)
Theorem handshake_steps_fed_by_reads (fuel : nat) (fd : Z) (tls : ptls_t)
    (wbuf : ptls_buffer_t) (buf : list byte) (bufsz : Z) (w : World) :
  0 <= bufsz < 2 ^ 64 ->
  exists evs,
    log (world_of (run_handshake fuel fd tls wbuf buf bufsz w))
    = log w ++ evs /\
    fed [] evs.
Proof.
  intros Hsz. unfold run_handshake.
  set (Q := fun o : outcome hs_result =>
    exists evs, log (world_of o) = log w ++ evs /\ fed [] evs).
  match goal with |- context [loop fuel ?b ?s w] =>
    change (Q (loop fuel b s w)) end.
  set (I := fun (st : hs_state) (wc : World) =>
    let '(_, pin, plen, rret) := st in
    exists evs,
      log wc = log w ++ evs /\ fed [] evs /\
      plen = rret /\ 0 <= rret <= bufsz /\
      span pin plen = latest [] evs).
  apply (loop_inv _ I Q).
  - intros [[[wb pin] plen] rret] wc (evs & Hlog & Hfed & _). exists evs. auto.
  - intros [[[wb pin] plen] rret] wc (evs & Hlog & Hfed & Hpl & Hr & Hsp).
    unfold run_handshake_body, bind at 1, ptls_handshake.
    destruct (handshakes wc) as [|a rest]; [exists evs; auto|].
    set (eh := EvHandshake (off wb) (span pin plen) (hs_ret a) (hs_out a)
                 (hs_consumed a)).
    set (w1 := emit eh (set_handshakes rest wc)).
    assert (Hl1 : log w1 = log w ++ evs ++ [eh]).
    { unfold w1. simpl. now rewrite Hlog, app_assoc. }
    clearbody w1.
    assert (Hf1 : fed [] (evs ++ [eh])).
    { apply fed_app. split; auto. simpl. auto. }
    assert (Hq : forall tl, Forall (fun e => handshake_event fd e /\
                                     match e with EvHandshake _ _ _ _ _ => False
                                     | _ => True end) tl ->
                   fed [] ((evs ++ [eh]) ++ tl)).
    { intros tl Htl. apply fed_app. split; auto.
      generalize (latest [] (evs ++ [eh])). 
      induction Htl as [|e tl [_ He] _ IH]; intros cur; simpl; auto.
      destruct e; simpl in He; try tauto; auto. }
    destruct (hs_ret a =? PTLS_ERROR_HANDSHAKE_IN_PROGRESS).
    + unfold bind at 1.
      destruct (only_write_all fuel fd (base (buffer_push wb (hs_out a)))
                  (off (buffer_push wb (hs_out a))) w1) as (wevs & Hl2 & Hww).
      destruct (fed_writes fd (latest [] (evs ++ [eh])) wevs Hww) as [Hfw Hlw].
      assert (Hf2 : fed [] ((evs ++ [eh]) ++ wevs)).
      { apply fed_app. auto. }
      destruct (write_all fuel fd _ _ w1) as [wr w2|y w2]; simpl in Hl2.
      2:{ exists ((evs ++ [eh]) ++ wevs). split; [|exact Hf2]. simpl.
          rewrite Hl2, Hl1, <- !app_assoc. reflexivity. }
      destruct (wr =? 0); cbn [negb].
      2:{ exists ((evs ++ [eh]) ++ wevs). split; [|exact Hf2]. simpl.
          rewrite Hl2, Hl1, <- !app_assoc. reflexivity. }
      unfold bind.
      destruct (read_retry_spec (-1) fuel fd pin bufsz w2) as (pre & Hpr & Hm);
        [lia|].
      destruct (read_retry (-1) fuel fd pin bufsz w2) as [[r pin'] w3|y w3].
      2:{ exists (((evs ++ [eh]) ++ wevs) ++ pre). split.
          - simpl. rewrite Hm, Hl2, Hl1, <- !app_assoc. reflexivity.
          - apply fed_app. split; auto. now apply (fed_reads fd). }
      destruct Hm as (err & d & Hl3 & _ & Hrd).
      assert (Hf3 : fed [] ((((evs ++ [eh]) ++ wevs) ++ pre)
                            ++ [EvRead fd bufsz r err d])).
      { apply fed_app. split.
        - apply fed_app. split; auto. now apply (fed_reads fd).
        - simpl. auto. }
      assert (Hl3' : log w3 = log w ++ (((evs ++ [eh]) ++ wevs) ++ pre)
                                     ++ [EvRead fd bufsz r err d]).
      { rewrite Hl3, Hl2, Hl1, <- !app_assoc. reflexivity. }
      destruct (r <=? 0) eqn:Er; simpl.
      * eexists. split; [exact Hl3'|exact Hf3].
      * apply Z.leb_gt in Er.
        destruct Hrd as [?|(Hrc & Hrl & b & Hb)]; [lia|].
        eexists. split; [exact Hl3'|]. split; [exact Hf3|].
        rewrite size_t_small by lia.
        split; [reflexivity|]. split; [lia|].
        rewrite latest_app. simpl. rewrite Hb, Hrl. apply span_blit.
    + destruct (hs_ret a =? 0); cbn [negb].
      * destruct (negb (size_t rret =? hs_consumed a)).
        -- exists ((evs ++ [eh]) ++ [EvMemmove (hs_consumed a)
                                      (size_t (rret - hs_consumed a))]).
           split; [simpl; rewrite Hl1, <- !app_assoc; reflexivity|].
           apply Hq. constructor; auto. simpl. auto.
        -- exists (evs ++ [eh]). simpl. auto.
      * exists ((evs ++ [eh]) ++ [EvFprintf "ptls_handshake" (hs_ret a)]).
        split; [simpl; rewrite Hl1, <- !app_assoc; reflexivity|].
        apply Hq. constructor; auto. simpl. auto.
  - exists []. rewrite app_nil_r. simpl. repeat split; auto; try lia.
    apply span_zero.
Qed.

Lemma hs_output_app (l1 l2 : list event) :
  hs_output (l1 ++ l2) = hs_output l1 ++ hs_output l2.
Proof.
  induction l1 as [|e l1 IH]; simpl; auto.
  destruct e; auto. now rewrite IH, app_assoc.
Qed.

Lemma hs_output_writes (fd : Z) (l : list event) :
  Forall (is_write fd) l -> hs_output l = [].
Proof.
  induction 1 as [|e l He _ IH]; simpl; auto.
  destruct e; simpl in He; tauto.
Qed.

Lemma hs_output_reads (fd : Z) (l : list event) :
  Forall (is_read fd) l -> hs_output l = [].
Proof.
  induction 1 as [|e l He _ IH]; simpl; auto.
  destruct e; simpl in He; tauto.
Qed.

Lemma accepted_reads (fd fd' : Z) (l : list event) :
  Forall (is_read fd') l -> accepted fd l = [].
Proof.
  induction 1 as [|e l He _ IH]; simpl; auto.
  destruct e; simpl in He; tauto.
Qed.

Lemma reads_after_flush_quiet (fd : Z) (evs tl : list event) :
  at_each (reads_after_flush fd) evs ->
  Forall (fun e => ~ is_read fd e) tl ->
  at_each (reads_after_flush fd) (evs ++ tl).
Proof.
  intros H Htl. apply at_each_app; auto.
  intros pre e post -> He. apply Forall_app in Htl. destruct Htl as [_ Htl].
  apply Forall_inv in Htl. contradiction.
Qed.

Lemma write_not_read (fd : Z) (l : list event) :
  Forall (is_write fd) l -> Forall (fun e => ~ is_read fd e) l.
Proof. apply Forall_impl. intros [] H; simpl in *; tauto. Qed.

(** X10.  During the handshake the socket is read only once everything
    the engine has produced so far is on the wire: at every read of the
    socket, the socket has taken over, in order and in full, the output of
    all the handshake steps before it.  When [run_handshake] returns 0,
    the output of the steps is what the socket has taken over followed by
    what is pending in the buffer it hands back. *)
Theorem handshake_flushes_before_reading (fuel : nat) (fd : Z) (tls : ptls_t)
    (wbuf : ptls_buffer_t) (buf : list byte) (bufsz : Z) (w : World) :
  off wbuf = 0 ->
  steps_fit (handshakes w) ->
  exists evs,
    log (world_of (run_handshake fuel fd tls wbuf buf bufsz w))
    = log w ++ evs /\
    at_each (reads_after_flush fd) evs /\
    (forall wbuf' buf' len' w',
        run_handshake fuel fd tls wbuf buf bufsz w
        = Done (0, wbuf', buf', len') w' ->
        hs_output evs = accepted fd evs ++ pending wbuf').
Proof.
  intros Hoff Hfit. unfold run_handshake.
  set (Q := fun o : outcome hs_result =>
    exists evs,
      log (world_of o) = log w ++ evs /\
      at_each (reads_after_flush fd) evs /\
      (forall wbuf' buf' len' w',
          o = Done (0, wbuf', buf', len') w' ->
          hs_output evs = accepted fd evs ++ pending wbuf')).
  match goal with |- context [loop fuel ?b ?s w] =>
    change (Q (loop fuel b s w)) end.
  set (I := fun (st : hs_state) (wc : World) =>
    let '(wb, _, _, _) := st in
    exists evs,
      log wc = log w ++ evs /\ off wb = 0 /\
      at_each (reads_after_flush fd) evs /\
      accepted fd evs = hs_output evs /\
      steps_fit (handshakes wc)).
  apply (loop_inv _ I Q).
  - intros [[[wb pin] plen] rret] wc (evs & Hlog & _ & Hat & _).
    exists evs. repeat split; auto. intros; discriminate.
  - intros [[[wb pin] plen] rret] wc (evs & Hlog & Hwb & Hat & Hacc & Hf).
    unfold run_handshake_body, bind at 1, ptls_handshake.
    destruct (handshakes wc) as [|a rest] eqn:Eh.
    { exists evs. repeat split; auto. intros; discriminate. }
    set (eh := EvHandshake (off wb) (span pin plen) (hs_ret a) (hs_out a)
                 (hs_consumed a)).
    set (w1 := emit eh (set_handshakes rest wc)).
    assert (Hl1 : log w1 = log w ++ evs ++ [eh]).
    { unfold w1. simpl. now rewrite Hlog, app_assoc. }
    assert (Hh1 : handshakes w1 = rest) by reflexivity.
    clearbody w1.
    assert (Hfa : len_of (hs_out a) < 2 ^ 64) by (apply (Forall_inv Hf)).
    assert (Hfr : steps_fit rest) by (apply (Forall_inv_tail Hf)).
    assert (Hat1 : at_each (reads_after_flush fd) (evs ++ [eh])).
    { apply at_each_snoc; auto. intros []. }
    assert (Hacc1 : accepted fd (evs ++ [eh]) = accepted fd evs).
    { rewrite accepted_app. simpl. apply app_nil_r. }
    assert (Hout1 : hs_output (evs ++ [eh]) = hs_output evs ++ hs_out a).
    { rewrite hs_output_app. simpl. now rewrite app_nil_r. }
    assert (Hpd : pending (buffer_push wb (hs_out a)) = hs_out a)
      by now apply pending_push_empty.
    assert (Hq : forall tl, Forall (fun e => ~ is_read fd e) tl ->
                   at_each (reads_after_flush fd) ((evs ++ [eh]) ++ tl)).
    { intros tl Htl. now apply reads_after_flush_quiet. }
    destruct (hs_ret a =? PTLS_ERROR_HANDSHAKE_IN_PROGRESS).
    + unfold bind at 1.
      destruct (write_all_spec fuel fd (base (buffer_push wb (hs_out a)))
                  (off (buffer_push wb (hs_out a))) w1)
        as (wevs & Hl2 & Hww & _ & _ & Hm).
      { simpl. unfold len_of. lia. }
      pose proof (write_all_keeps_handshakes fuel fd
                    (base (buffer_push wb (hs_out a)))
                    (off (buffer_push wb (hs_out a))) w1) as Hk2.
      destruct (write_all fuel fd _ _ w1) as [wr w2|y w2]; simpl in Hl2, Hk2.
      2:{ exists ((evs ++ [eh]) ++ wevs). split; [|split].
          - simpl. rewrite Hl2, Hl1, <- !app_assoc. reflexivity.
          - apply Hq. now apply write_not_read.
          - intros; discriminate. }
      destruct (wr =? 0) eqn:Ewr; cbn [negb].
      2:{ exists ((evs ++ [eh]) ++ wevs). split; [|split].
          - simpl. rewrite Hl2, Hl1, <- !app_assoc. reflexivity.
          - apply Hq. now apply write_not_read.
          - intros; discriminate. }
      apply Z.eqb_eq in Ewr.
      destruct Hm as [(_ & _ & Hsent)|(Hbad & _)]; [|lia].
      assert (Hsent' : accepted fd wevs = hs_out a).
      { rewrite Hsent; [exact Hpd|]. simpl. lia. }
      assert (Hacc2 : accepted fd ((evs ++ [eh]) ++ wevs)
                      = hs_output ((evs ++ [eh]) ++ wevs)).
      { rewrite accepted_app, Hacc1, Hsent', hs_output_app, Hout1.
        rewrite (hs_output_writes fd wevs Hww), app_nil_r.
        now rewrite Hacc. }
      unfold bind.
      destruct (only_read_retry (-1) fuel fd pin bufsz w2) as (rds & Hl3 & Hrds).
      pose proof (read_retry_keeps_handshakes (-1) fuel fd pin bufsz w2) as Hk3.
      assert (Hat3 : at_each (reads_after_flush fd)
                       (((evs ++ [eh]) ++ wevs) ++ rds)).
      { apply at_each_app.
        - apply Hq. now apply write_not_read.
        - intros p e post Heq _. rewrite Heq in Hrds.
          apply Forall_app in Hrds. destruct Hrds as [Hp _].
          rewrite accepted_app, hs_output_app, Hacc2.
          now rewrite (accepted_reads fd fd p), (hs_output_reads fd p). }
      assert (Hl3' : log (world_of (read_retry (-1) fuel fd pin bufsz w2))
                     = log w ++ ((evs ++ [eh]) ++ wevs) ++ rds).
      { rewrite Hl3, Hl2, Hl1, <- !app_assoc. reflexivity. }
      destruct (read_retry (-1) fuel fd pin bufsz w2) as [[r pin'] w3|y w3];
        simpl in Hk3, Hl3'.
      2:{ eexists. split; [exact Hl3'|]. split; [exact Hat3|].
          intros; discriminate. }
      destruct (r <=? 0) eqn:Er; simpl.
      * eexists. split; [exact Hl3'|]. split; [exact Hat3|].
        intros; discriminate.
      * eexists. split; [exact Hl3'|]. split; [reflexivity|].
        split; [exact Hat3|]. split.
        -- rewrite accepted_app, hs_output_app, Hacc2.
           now rewrite (accepted_reads fd fd _ Hrds),
             (hs_output_reads fd _ Hrds).
        -- rewrite Hk3, Hk2, Hh1. exact Hfr.
    + destruct (hs_ret a =? 0) eqn:E0; cbn [negb].
      * destruct (negb (size_t rret =? hs_consumed a)).
        -- exists ((evs ++ [eh]) ++ [EvMemmove (hs_consumed a)
                                      (size_t (rret - hs_consumed a))]).
           split; [simpl; rewrite Hl1, <- !app_assoc; reflexivity|].
           split. { apply Hq. constructor; auto. }
           simpl. intros wb' b' l' w' Heq. injection Heq as <- _ _ _.
           rewrite accepted_app, hs_output_app, Hacc1, Hout1, Hpd, Hacc.
           simpl. now rewrite !app_nil_r.
        -- exists (evs ++ [eh]).
           split; [simpl; rewrite Hl1; reflexivity|].
           split; [exact Hat1|].
           simpl. intros wb' b' l' w' Heq. injection Heq as <- _ _ _.
           now rewrite Hacc1, Hout1, Hpd, Hacc.
      * exists ((evs ++ [eh]) ++ [EvFprintf "ptls_handshake" (hs_ret a)]).
        split; [simpl; rewrite Hl1, <- !app_assoc; reflexivity|].
        split. { apply Hq. constructor; auto. }
        simpl. intros; discriminate.
  - exists []. rewrite app_nil_r. repeat split; auto. apply at_each_nil.
Qed.

(** *** Why a session ends *)

Lemma extends_refl (w : World) : extends w w.
Proof. exists []. now rewrite app_nil_r. Qed.

Lemma extends_trans (w w1 w2 : World) :
  extends w w1 -> extends w1 w2 -> extends w w2.
Proof.
  intros (e1 & H1) (e2 & H2). exists (e1 ++ e2).
  now rewrite H2, H1, app_assoc.
Qed.

Lemma extends_cause (w w1 w2 : World) :
  extends w w1 -> ends_with_cause w1 w2 -> ends_with_cause w w2.
Proof.
  intros (e1 & H1) (pre & e & H2 & He). exists (e1 ++ pre), e.
  split; auto. now rewrite H2, H1, <- !app_assoc.
Qed.

Lemma cause_emit (w : World) (e : event) :
  exit_cause e -> ends_with_cause w (emit e w).
Proof. intros He. exists [], e. split; auto. Qed.

Lemma only_extends {A} (P : event -> Prop) (m : M A) (w : World) :
  only P m -> extends w (world_of (m w)).
Proof. intros H. destruct (H w) as (evs & Hl & _). now exists evs. Qed.

Lemma write_all_cause (fuel : nat) (fd : Z) (data : list byte) (len : Z)
    (w : World) (r : Z) (w' : World) :
  0 <= len ->
  write_all fuel fd data len w = Done r w' ->
  extends w w' /\ (r = 0 \/ (r <> 0 /\ ends_with_cause w w')).
Proof.
  intros Hlen Hrun.
  destruct (write_all_spec fuel fd data len w Hlen)
    as (evs & Hl & _ & _ & _ & Hm).
  rewrite Hrun in Hl, Hm. simpl in Hl. split; [now exists evs|].
  destruct Hm as [(-> & _)|(-> & pre & e & -> & _ & Hf & _)]; auto.
  right. split; [lia|]. exists pre, e. split; auto.
  destruct e; simpl in Hf; try tauto. exact Hf.
Qed.

Lemma read_retry_cause (sentinel : Z) (fuel : nat) (fd : Z) (buf : list byte)
    (cap : Z) (w : World) (r : Z) (buf' : list byte) (w' : World) :
  read_retry sentinel fuel fd buf cap w = Done (r, buf') w' ->
  extends w w' /\ (r <= 0 -> ends_with_cause w w').
Proof.
  unfold read_retry. revert buf w.
  induction fuel as [|fuel IH]; intros buf w; [discriminate|].
  rewrite loop_S. unfold read_retry_body at 1.
  unfold bind, sys_read, get_errno.
  destruct (reads w) as [|[d|e] rest]; [discriminate| |];
    cbn [errno emit set_reads set_errno].
  - destruct (_ && _); cbn [continue break ret].
    + intros H. apply IH in H. destruct H as [Hx Hc]. split.
      * eapply extends_trans; [|exact Hx]. now eexists [_].
      * intros Hr. eapply extends_cause; [|exact (Hc Hr)]. now eexists [_].
    + intros H. injection H as <- _ <-. split; [now eexists [_]|].
      intros Hr. eexists [], _. split; [reflexivity|exact Hr].
  - destruct (_ && _); cbn [continue break ret].
    + intros H. apply IH in H. destruct H as [Hx Hc]. split.
      * eapply extends_trans; [|exact Hx]. now eexists [_].
      * intros Hr. eapply extends_cause; [|exact (Hc Hr)]. now eexists [_].
    + intros H. injection H as <- _ <-. split; [now eexists [_]|].
      intros Hr. eexists [], _. split; [reflexivity|exact Hr].
Qed.

Lemma run_handshake_cause (fuel : nat) (fd : Z) (tls : ptls_t)
    (wbuf : ptls_buffer_t) (buf : list byte) (bufsz : Z) (w : World)
    (r : Z) (wbuf' : ptls_buffer_t) (buf' : list byte) (len' : Z)
    (w' : World) :
  0 <= off wbuf ->
  run_handshake fuel fd tls wbuf buf bufsz w = Done (r, wbuf', buf', len') w' ->
  extends w w' /\
  ((r = 0 /\ 0 <= off wbuf') \/ (r <> 0 /\ ends_with_cause w w')).
Proof.
  intros Hoff. unfold run_handshake.
  set (Q := fun o : outcome hs_result =>
    match o with
    | Done (r, wbuf', _, _) w' =>
        extends w w' /\
        ((r = 0 /\ 0 <= off wbuf') \/ (r <> 0 /\ ends_with_cause w w'))
    | Stuck _ _ => True
    end).
  intros Hrun.
  match type of Hrun with loop fuel ?b ?s w = _ =>
    assert (HQ : Q (loop fuel b s w)) end.
  2:{ rewrite Hrun in HQ. exact HQ. }
  clear Hrun.
  set (I := fun (st : hs_state) (wc : World) =>
    let '(wb, _, _, _) := st in extends w wc /\ 0 <= off wb).
  apply (loop_inv _ I Q).
  - intros; exact Logic.I.
  - intros [[[wb pin] plen] rret] wc (Hx & Hwb).
    unfold run_handshake_body, bind at 1, ptls_handshake.
    destruct (handshakes wc) as [|a rest]; [exact Logic.I|].
    set (w1 := emit _ (set_handshakes rest wc)).
    assert (Hx1 : extends w w1).
    { eapply extends_trans; [exact Hx|]. now eexists [_]. }
    clearbody w1.
    assert (Hpo : 0 <= off (buffer_push wb (hs_out a))).
    { simpl. unfold len_of. lia. }
    destruct (hs_ret a =? PTLS_ERROR_HANDSHAKE_IN_PROGRESS).
    + unfold bind at 1.
      destruct (write_all fuel fd _ _ w1) as [wr w2|y w2] eqn:Ew;
        [|exact Logic.I].
      apply write_all_cause in Ew; [|exact Hpo]. destruct Ew as [Hx2 Hc2].
      destruct (wr =? 0) eqn:Ewr; cbn [negb].
      2:{ apply Z.eqb_neq in Ewr. simpl. split.
          - eapply extends_trans; [|eassumption]; eassumption.
          - right. split; [lia|]. destruct Hc2 as [?|[_ Hc2]]; [lia|].
            eapply extends_cause; [|eassumption]; eassumption. }
      unfold bind.
      destruct (read_retry (-1) fuel fd pin bufsz w2) as [[rr pin'] w3|y w3]
        eqn:Er; [|exact Logic.I].
      apply read_retry_cause in Er. destruct Er as [Hx3 Hc3].
      assert (Hx3' : extends w w3).
      { eapply extends_trans; [|exact Hx3]. eapply extends_trans; [|eassumption]; eassumption. }
      destruct (rr <=? 0) eqn:Erl; simpl.
      * apply Z.leb_le in Erl. split; auto. right. split; [lia|].
        eapply extends_cause; [|exact (Hc3 Erl)].
        eapply extends_trans; [exact Hx1|exact Hx2].
      * split; auto. lia.
    + destruct (hs_ret a =? 0) eqn:E0; cbn [negb].
      * destruct (negb (size_t rret =? hs_consumed a)); simpl.
        -- split; [|left; split; auto].
           eapply extends_trans; [exact Hx1|]. now eexists [_].
        -- split; auto.
      * apply Z.eqb_neq in E0. simpl. split.
        -- eapply extends_trans; [exact Hx1|]. now eexists [_].
        -- right. split; [lia|]. eapply extends_cause; [exact Hx1|].
           apply cause_emit. exact E0.
  - split; [apply extends_refl|exact Hoff].
Qed.

Lemma decrypt_and_print_cause (fuel : nat) (tls : ptls_t) (input : list byte)
    (inlen : Z) (w : World) (r : Z) (w' : World) :
  decrypt_and_print fuel tls input inlen w = Done r w' ->
  extends w w' /\ (r = 0 \/ (r <> 0 /\ ends_with_cause w w')).
Proof.
  unfold decrypt_and_print.
  set (Q := fun o : outcome Z =>
    match o with
    | Done r w' =>
        extends w w' /\ (r = 0 \/ (r <> 0 /\ ends_with_cause w w'))
    | Stuck _ _ => True
    end).
  intros Hrun.
  match type of Hrun with loop fuel ?b ?s w = _ =>
    assert (HQ : Q (loop fuel b s w)) end.
  2:{ rewrite Hrun in HQ. exact HQ. }
  clear Hrun.
  set (I := fun (st : dp_state) (wc : World) =>
    let '(_, _, db) := st in extends w wc /\ 0 <= off db).
  apply (loop_inv _ I Q).
  - intros; exact Logic.I.
  - intros [[i n] db] wc (Hx & Hdb).
    unfold decrypt_and_print_body.
    destruct (n =? 0); [simpl; auto|].
    unfold bind at 1, ptls_receive.
    destruct (receives wc) as [|a rest]; [exact Logic.I|].
    set (w1 := emit _ (set_receives rest wc)).
    assert (Hx1 : extends w w1).
    { eapply extends_trans; [exact Hx|]. now eexists [_]. }
    clearbody w1.
    assert (Hpo : 0 <= off (buffer_push db (rc_out a))).
    { simpl. unfold len_of. lia. }
    destruct (rc_ret a =? 0) eqn:E0; cbn [negb].
    + destruct (off (buffer_push db (rc_out a)) =? 0); cbn [negb].
      * simpl. auto.
      * unfold bind.
        destruct (write_all fuel 1 _ _ w1) as [wr w2|y w2] eqn:Ew;
          [|exact Logic.I].
        apply write_all_cause in Ew; [|exact Hpo]. destruct Ew as [Hx2 Hc2].
        assert (Hx2' : extends w w2) by (eapply extends_trans; [|eassumption]; eassumption).
        destruct (wr =? 0) eqn:Ewr; cbn [negb]; simpl.
        -- split; auto. lia.
        -- apply Z.eqb_neq in Ewr. split; auto. right. split; [lia|].
           destruct Hc2 as [?|[_ Hc2]]; [lia|].
           eapply extends_cause; [|eassumption]; eassumption.
    + apply Z.eqb_neq in E0. simpl. split.
      * eapply extends_trans; [exact Hx1|]. now eexists [_].
      * right. split; [lia|]. eapply extends_cause; [exact Hx1|].
        apply cause_emit. exact E0.
  - split; [apply extends_refl|simpl; lia].
Qed.

Lemma input_ready_branch_cause (fuel : nat) (fd : Z) (tls : ptls_t)
    (wb : ptls_buffer_t) (rb : list byte) (w : World)
    (r : option hc_state) (w' : World) :
  0 <= off wb ->
  input_ready_branch fuel fd tls (wb, rb) w = Done r w' ->
  extends w w' /\
  match r with
  | Some (wb', _) => off wb' = 0
  | None => ends_with_cause w w'
  end.
Proof.
  intros Hwb. unfold input_ready_branch, bind at 1.
  destruct (read_retry 1 fuel 0 rb 1024 w) as [[rret rb'] w1|y w1] eqn:Er;
    [|discriminate].
  apply read_retry_cause in Er. destruct Er as [Hx1 _].
  unfold bind at 1, ptls_send.
  destruct (sends w1) as [|a rest]; [discriminate|].
  set (w2 := emit _ (set_sends rest w1)).
  assert (Hx2 : extends w w2).
  { eapply extends_trans; [exact Hx1|]. now eexists [_]. }
  clearbody w2.
  assert (Hpo : 0 <= off (buffer_push wb (sd_out a))).
  { simpl. unfold len_of. lia. }
  destruct (sd_ret a =? 0) eqn:E0; cbn [negb].
  - unfold bind.
    destruct (write_all fuel fd _ _ w2) as [wr w3|y w3] eqn:Ew;
      [|discriminate].
    apply write_all_cause in Ew; [|exact Hpo]. destruct Ew as [Hx3 Hc3].
    assert (Hx3' : extends w w3) by (eapply extends_trans; [|eassumption]; eassumption).
    destruct (wr =? 0) eqn:Ewr; cbn [negb]; unfold ret; intros H;
      injection H as <- <-; split; auto.
    apply Z.eqb_neq in Ewr. destruct Hc3 as [?|[_ Hc3]]; [lia|].
    eapply extends_cause; [|eassumption]; eassumption.
  - apply Z.eqb_neq in E0. unfold bind, fprintf, ret. intros H.
    injection H as <- <-. split.
    + eapply extends_trans; [exact Hx2|]. now eexists [_].
    + eapply extends_cause; [exact Hx2|]. apply cause_emit. exact E0.
Qed.

Lemma socket_ready_branch_cause (fuel : nat) (fd : Z) (tls : ptls_t)
    (wb : ptls_buffer_t) (rb : list byte) (w : World)
    (r : option hc_state) (w' : World) :
  socket_ready_branch fuel fd tls (wb, rb) w = Done r w' ->
  extends w w' /\
  match r with
  | Some (wb', _) => wb' = wb
  | None => ends_with_cause w w'
  end.
Proof.
  unfold socket_ready_branch, bind at 1.
  destruct (read_retry 1 fuel fd rb 1024 w) as [[rret rb'] w1|y w1] eqn:Er;
    [|discriminate].
  apply read_retry_cause in Er. destruct Er as [Hx1 Hc1].
  destruct (rret <=? 0) eqn:Erl.
  - apply Z.leb_le in Erl. unfold ret. intros H. injection H as <- <-.
    split; auto.
  - unfold bind.
    destruct (decrypt_and_print fuel tls rb' (size_t rret) w1)
      as [dr w2|y w2] eqn:Ed; [|discriminate].
    apply decrypt_and_print_cause in Ed. destruct Ed as [Hx2 Hc2].
    assert (Hx2' : extends w w2) by (eapply extends_trans; [|eassumption]; eassumption).
    destruct (dr =? 0) eqn:Edr; cbn [negb]; unfold ret; intros H;
      injection H as <- <-; split; auto.
    apply Z.eqb_neq in Edr. destruct Hc2 as [?|[_ Hc2]]; [lia|].
    eapply extends_cause; [|eassumption]; eassumption.
Qed.

Lemma streaming_cause (fuel n : nat) (fd : Z) (tls : ptls_t)
    (wb : ptls_buffer_t) (rb : list byte) (w w' : World) :
  off wb = 0 ->
  loop n (streaming_body fuel fd tls) (wb, rb) w = Done tt w' ->
  ends_with_cause w w'.
Proof.
  intros Hwb Hrun.
  set (Q := fun o : outcome unit =>
    match o with
    | Done _ w' => ends_with_cause w w'
    | Stuck _ _ => True
    end).
  match type of Hrun with loop n ?b ?s w = _ =>
    assert (HQ : Q (loop n b s w)) end.
  2:{ rewrite Hrun in HQ. exact HQ. }
  clear Hrun.
  set (I := fun (st : hc_state) (wc : World) =>
    extends w wc /\ off (fst st) = 0).
  apply (loop_inv _ I Q).
  - intros; exact Logic.I.
  - intros [wb1 rb1] wc (Hx & Hoff). simpl in Hoff.
    unfold streaming_body, bind at 1.
    destruct (sys_select (fd + 1) (FD_SET fd (FD_SET 0 FD_ZERO)) wc)
      as [[k ready] w1|y w1] eqn:Es; [|exact Logic.I].
    assert (Hx1 : extends w w1).
    { eapply extends_trans; [exact Hx|].
      pose proof (only_extends _ _ wc (only_sys_select (fd + 1)
                    (FD_SET fd (FD_SET 0 FD_ZERO)))) as H.
      now rewrite Es in H. }
    destruct (k <=? 0); [simpl; split; auto|].
    unfold serve_ready, bind at 1.
    destruct (FD_ISSET 0 ready).
    + destruct (input_ready_branch fuel fd tls (wb1, rb1) w1)
        as [[[wb2 rb2]|] w2|y w2] eqn:Ei; [| |exact Logic.I].
      * apply input_ready_branch_cause in Ei; [|lia].
        destruct Ei as [Hx2 Hoff2].
        assert (Hx2' : extends w w2) by (eapply extends_trans; [|eassumption]; eassumption).
        unfold bind.
        destruct (FD_ISSET fd ready).
        -- destruct (socket_ready_branch fuel fd tls (wb2, rb2) w2)
             as [[[wb3 rb3]|] w3|y w3] eqn:Eso; [| |exact Logic.I].
           ++ apply socket_ready_branch_cause in Eso.
              destruct Eso as [Hx3 ->]. simpl. split; auto.
              eapply extends_trans; [|eassumption]; eassumption.
           ++ apply socket_ready_branch_cause in Eso.
              destruct Eso as [_ Hc3]. simpl.
              eapply extends_cause; [|eassumption]; eassumption.
        -- simpl. split; auto.
      * apply input_ready_branch_cause in Ei; [|lia].
        destruct Ei as [_ Hc2]. simpl. eapply extends_cause; [|eassumption]; eassumption.
    + unfold ret at 1. unfold bind.
      destruct (FD_ISSET fd ready).
      * destruct (socket_ready_branch fuel fd tls (wb1, rb1) w1)
          as [[[wb3 rb3]|] w3|y w3] eqn:Eso; [| |exact Logic.I].
        -- apply socket_ready_branch_cause in Eso.
           destruct Eso as [Hx3 ->]. simpl. split; auto.
           eapply extends_trans; [|eassumption]; eassumption.
        -- apply socket_ready_branch_cause in Eso.
           destruct Eso as [_ Hc3]. simpl.
           eapply extends_cause; [|eassumption]; eassumption.
      * simpl. split; auto.
  - split; [apply extends_refl|exact Hwb].
Qed.

Lemma session_cause (fuel : nat) (fd : Z) (tls : ptls_t)
    (wbuf : ptls_buffer_t) (rbuf : list byte) (w w' : World) :
  0 <= off wbuf ->
  session fuel fd tls wbuf rbuf w = Done tt w' ->
  ends_with_cause w w'.
Proof.
  intros Hwb. unfold session, bind at 1.
  destruct (run_handshake fuel fd tls wbuf rbuf 1024 w)
    as [[[[r wb1] rb1] roff] w1|y w1] eqn:Eh; [|discriminate].
  apply run_handshake_cause in Eh; [|exact Hwb]. destruct Eh as [Hx1 Hc1].
  destruct (r =? 0) eqn:Er; cbn [negb].
  2:{ apply Z.eqb_neq in Er. unfold ret. intros H. injection H as <-.
      destruct Hc1 as [[? _]|[_ Hc1]]; [lia|exact Hc1]. }
  destruct Hc1 as [[_ Hoff1]|[Hr _]]; [|apply Z.eqb_eq in Er; lia].
  unfold bind at 1.
  destruct (write_all fuel fd (base wb1) (off wb1) w1) as [wr w2|y w2] eqn:Ew;
    [|discriminate].
  apply write_all_cause in Ew; [|exact Hoff1]. destruct Ew as [Hx2 Hc2].
  assert (Hx2' : extends w w2) by (eapply extends_trans; [|eassumption]; eassumption).
  destruct (wr =? 0) eqn:Ewr; cbn [negb].
  2:{ apply Z.eqb_neq in Ewr. unfold ret. intros H. injection H as <-.
      destruct Hc2 as [?|[_ Hc2]]; [lia|]. eapply extends_cause; [|eassumption]; eassumption. }
  unfold bind at 1.
  destruct (decrypt_and_print fuel tls rb1 roff w2) as [dr w3|y w3] eqn:Ed;
    [|discriminate].
  apply decrypt_and_print_cause in Ed. destruct Ed as [Hx3 Hc3].
  assert (Hx3' : extends w w3) by (eapply extends_trans; [|eassumption]; eassumption).
  destruct (dr =? 0) eqn:Edr; cbn [negb].
  2:{ apply Z.eqb_neq in Edr. unfold ret. intros H. injection H as <-.
      destruct Hc3 as [?|[_ Hc3]]; [lia|]. eapply extends_cause; [|eassumption]; eassumption. }
  intros H. apply streaming_cause in H; [|reflexivity].
  eapply extends_cause; [|eassumption]; eassumption.
Qed.

(** X11.  A connection is never given up without a cause.  Whenever
    [handle_connection] returns, what it did is: create the engine
    instance; then the session, whose last action is a write that failed
    for good, a read that returned a non-positive result, or the
    diagnostic for a status the engine refused with; then the two
    releases. *)
Theorem connection_ends_for_a_cause (fuel : nat) (fd : Z)
    (name : option string) (w : World) (r : Z) (w' : World) :
  handle_connection fuel fd name w = Done r w' ->
  exists pre e,
    log w' = log w ++ EvNew (Tls name) :: pre
                   ++ [e; EvDispose; EvFree (Tls name)] /\
    exit_cause e.
Proof.
  unfold handle_connection, bind at 1, ptls_new.
  unfold bind at 1.
  destruct (session fuel fd (Tls name) (ptls_buffer_init (uninit 1024))
              (uninit 1024) (emit (EvNew (Tls name)) w)) as [[] ws|y ws] eqn:Es;
    [|discriminate].
  apply session_cause in Es; [|simpl; lia].
  destruct Es as (pre & e & Hl & He).
  unfold bind, ptls_buffer_dispose, ptls_free, ret. intros H.
  injection H as _ <-. exists pre, e. split; auto.
  simpl. rewrite Hl. simpl. rewrite <- !app_assoc. reflexivity.
Qed.

(** *** The server *)

Lemma conns_app (l1 l2 : list event) : conns (l1 ++ l2) = conns l1 ++ conns l2.
Proof. apply flat_map_app. Qed.

Lemma closed_app (l1 l2 : list event) :
  closed (l1 ++ l2) = closed l1 ++ closed l2.
Proof. apply flat_map_app. Qed.

Lemma connection_quiet (fd : Z) (l : list event) :
  Forall (connection_event fd) l -> conns l = [] /\ closed l = [].
Proof.
  intros H. split; (eapply flat_map_none; [|exact H]);
    intros [] He; try reflexivity;
    unfold connection_event, session_event in He; simpl in He; tauto.
Qed.

Lemma handle_connection_named (fuel : nat) (fd : Z) (name : option string) :
  only (fun e => connection_event fd e /\
                 match e with EvNew t => t = Tls name | _ => True end)
    (handle_connection fuel fd name).
Proof.
  unfold handle_connection.
  apply only_bind.
  { intros w. eexists [_]. split; [reflexivity|]. constructor; simpl; auto. }
  intros tls. apply only_bind.
  { eapply only_weaken; [|apply only_session].
    intros e H. split; [destruct e; simpl; auto|].
    destruct e; auto. unfold session_event in H. simpl in H. tauto. }
  intros _. apply only_bind.
  { intros w. eexists [_]. split; [reflexivity|]. constructor; simpl; auto. }
  intros _. apply only_bind; [|intros; apply only_ret].
  intros w. eexists [_]. split; [reflexivity|]. constructor; simpl; auto.
Qed.

Lemma server_loop_never_returns (fuel n : nat) (listen_fd : Z) (w : World)
    (r : Z) (w' : World) :
  loop n (run_server_body fuel listen_fd) tt w <> Done r w'.
Proof.
  revert w. induction n as [|n IH]; intros w; [discriminate|].
  rewrite loop_S.
  destruct (run_server_body fuel listen_fd tt w) as [[[]|x] w1|y w1] eqn:Eb;
    [apply IH| |discriminate].
  exfalso. unfold run_server_body, bind at 1 in Eb.
  destruct (sys_accept listen_fd w) as [c w0|y w0]; [|discriminate].
  destruct (negb (c =? -1)); [|discriminate].
  unfold bind at 1 in Eb.
  destruct (handle_connection fuel c None w0) as [r0 w2|y w2]; [|discriminate].
  discriminate.
Qed.

(** X12.  The server returns only when its set-up fails.  Whenever
    [run_server] returns, it returns 1, and all it has done is the set-up
    calls up to the first that failed and the report of that call: no
    connection was accepted.  Once [listen] has succeeded the server never
    returns. *)
Theorem server_returns_only_on_setup_failure (fuel : nat) (w : World)
    (r : Z) (w' : World) :
  run_server fuel w = Done r w' ->
  r = 1 /\ exists evs, log w' = log w ++ evs /\ setup_failure evs.
Proof.
  unfold run_server, bind at 1, sys_socket.
  destruct (sockets w) as [|s ss]; [discriminate|].
  destruct (s =? -1) eqn:Es.
  { apply Z.eqb_eq in Es. subst s. unfold bind, perror, ret. intros H.
    injection H as <- <-. split; auto. eexists. split.
    - simpl. rewrite <- app_assoc. reflexivity.
    - left. reflexivity. }
  apply Z.eqb_neq in Es.
  unfold bind at 1, sys_setup. cbn [setups emit set_sockets].
  destruct (setups w) as [|r1 su1]; [discriminate|].
  destruct (r1 =? 0) eqn:E1; cbn [negb].
  2:{ apply Z.eqb_neq in E1. unfold bind, perror, ret. intros H.
      injection H as <- <-. split; auto. eexists. split.
      - simpl. rewrite <- !app_assoc. reflexivity.
      - right. left. exists s, r1. auto. }
  apply Z.eqb_eq in E1. subst r1.
  unfold bind at 1. cbn [setups emit set_setups set_sockets].
  destruct su1 as [|r2 su2]; [discriminate|].
  destruct (r2 =? 0) eqn:E2; cbn [negb].
  2:{ apply Z.eqb_neq in E2. unfold bind, perror, ret. intros H.
      injection H as <- <-. split; auto. eexists. split.
      - simpl. rewrite <- !app_assoc. reflexivity.
      - right. right. left. exists s, r2. auto. }
  apply Z.eqb_eq in E2. subst r2.
  unfold bind at 1. cbn [setups emit set_setups set_sockets].
  destruct su2 as [|r3 su3]; [discriminate|].
  destruct (r3 =? 0) eqn:E3; cbn [negb].
  2:{ apply Z.eqb_neq in E3. unfold bind, perror, ret. intros H.
      injection H as <- <-. split; auto. eexists. split.
      - simpl. rewrite <- !app_assoc. reflexivity.
      - right. right. right. exists s, r3. auto. }
  intros H. exfalso. revert H. apply server_loop_never_returns.
Qed.

(** X13.  The server handles one connection at a time and closes what it
    accepted.  At any point of a run of [run_server], the connections it
    has closed are those it has accepted, in the order it accepted them,
    but for at most one, the latest, which is still being handled; a
    failed [accept] gives nothing to close; and every engine instance is
    created without a peer name. *)
Theorem server_closes_what_it_accepts (fuel : nat) (w : World) :
  exists evs,
    log (world_of (run_server fuel w)) = log w ++ evs /\
    (conns evs = closed evs \/ exists c, conns evs = closed evs ++ [c]) /\
    Forall unnamed evs.
Proof.
  set (Q := fun (w0 : World) (o : outcome Z) =>
    exists evs,
      log (world_of o) = log w0 ++ evs /\
      (conns evs = closed evs \/ exists c, conns evs = closed evs ++ [c]) /\
      Forall unnamed evs).
  assert (Hloop : forall n listen_fd w0,
             Q w0 (loop n (run_server_body fuel listen_fd) tt w0)).
  { intros n listen_fd w0.
    set (I := fun (_ : unit) (wc : World) =>
      exists evs, log wc = log w0 ++ evs /\ conns evs = closed evs /\
                  Forall unnamed evs).
    apply (loop_inv _ I (Q w0)).
    - intros [] wc (evs & Hl & Hc & Hu). exists evs. auto.
    - intros [] wc (evs & Hl & Hc & Hu).
      unfold run_server_body, bind at 1, sys_accept.
      destruct (accepts wc) as [|c cs].
      { exists evs. auto. }
      set (w1 := emit (EvAccept listen_fd c) (set_accepts cs wc)).
      assert (Hl1 : log w1 = log w0 ++ evs ++ [EvAccept listen_fd c]).
      { unfold w1. simpl. now rewrite Hl, app_assoc. }
      clearbody w1.
      destruct (c =? -1) eqn:Ec; cbn [negb].
      + exists (evs ++ [EvAccept listen_fd c]). split; [exact Hl1|].
        split.
        * rewrite conns_app, closed_app. simpl. rewrite Ec, !app_nil_r.
          exact Hc.
        * apply Forall_app. split; auto. constructor; simpl; auto.
      + unfold bind at 1.
        destruct (handle_connection_named fuel c None w1) as (hevs & Hl2 & Hh).
        assert (Hun : Forall unnamed hevs).
        { eapply Forall_impl; [|exact Hh]. intros e [_ He].
          destruct e; simpl; auto. }
        assert (Hh' : Forall (connection_event c) hevs).
        { eapply Forall_impl; [|exact Hh]. intros e [He _]. exact He. }
        destruct (connection_quiet c hevs Hh') as [Hq1 Hq2].
        destruct (handle_connection fuel c None w1) as [r w2|y w2];
          simpl in Hl2.
        * exists ((evs ++ [EvAccept listen_fd c]) ++ hevs ++ [EvClose c]).
          split.
          { simpl. rewrite Hl2, Hl1, <- !app_assoc. reflexivity. }
          split.
          { rewrite !conns_app, !closed_app, Hq1, Hq2. simpl. rewrite Ec.
            simpl. now rewrite !app_nil_r, Hc. }
          { repeat (apply Forall_app; split); auto; constructor; simpl; auto. }
        * exists ((evs ++ [EvAccept listen_fd c]) ++ hevs).
          split.
          { simpl. rewrite Hl2, Hl1, <- !app_assoc. reflexivity. }
          split.
          { right. exists c.
            rewrite !conns_app, !closed_app, Hq1, Hq2. simpl. rewrite Ec.
            simpl. now rewrite !app_nil_r, Hc. }
          { repeat (apply Forall_app; split); auto; constructor; simpl; auto. }
    - exists []. rewrite app_nil_r. auto. }
  change (Q w (run_server fuel w)).
  unfold run_server, bind at 1, sys_socket.
  destruct (sockets w) as [|s ss].
  { exists []. simpl. rewrite app_nil_r. auto. }
  assert (Hpre : forall (pre : list event) (w1 : World) (o : outcome Z),
             Q w1 o ->
             log w1 = log w ++ pre -> conns pre = [] -> closed pre = [] ->
             Forall unnamed pre -> Q w o).
  { intros pre w1 o (evs & Hl & Hc & Hu) Hl1 Hc1 Hd1 Hu1.
    exists (pre ++ evs). split; [now rewrite Hl, Hl1, app_assoc|].
    split; [now rewrite conns_app, closed_app, Hc1, Hd1|].
    apply Forall_app. auto. }
  assert (Hfail : forall (w1 : World) (msg : string),
             Q w1 (bind (perror msg) (fun _ => ret 1) w1)).
  { intros w1 msg. exists [EvPerror msg]. simpl. repeat split; auto.
    constructor; simpl; auto. }
  destruct (s =? -1).
  { eapply (Hpre [EvSocket s]);
      [apply Hfail|reflexivity|reflexivity|reflexivity|].
    constructor; simpl; auto. }
  unfold bind at 1, sys_setup. cbn [setups emit set_sockets].
  destruct (setups w) as [|r1 su1].
  { exists [EvSocket s]. simpl. repeat split; auto. constructor; simpl; auto. }
  destruct (r1 =? 0); cbn [negb].
  2:{ eapply (Hpre [EvSocket s; EvSetsockopt s r1]);
        [apply Hfail|simpl; rewrite <- !app_assoc; reflexivity
        |reflexivity|reflexivity|].
      repeat constructor. }
  unfold bind at 1. cbn [setups emit set_setups set_sockets].
  destruct su1 as [|r2 su2].
  { exists [EvSocket s; EvSetsockopt s r1]. simpl.
    rewrite <- !app_assoc. repeat split; auto. repeat constructor. }
  destruct (r2 =? 0); cbn [negb].
  2:{ eapply (Hpre [EvSocket s; EvSetsockopt s r1; EvBind s r2]);
        [apply Hfail|simpl; rewrite <- !app_assoc; reflexivity
        |reflexivity|reflexivity|].
      repeat constructor. }
  unfold bind at 1. cbn [setups emit set_setups set_sockets].
  destruct su2 as [|r3 su3].
  { exists [EvSocket s; EvSetsockopt s r1; EvBind s r2]. simpl.
    rewrite <- !app_assoc. repeat split; auto. repeat constructor. }
  eapply (Hpre [EvSocket s; EvSetsockopt s r1; EvBind s r2; EvListen s r3]);
    [destruct (r3 =? 0); cbn [negb]; [apply Hloop|apply Hfail]
    |simpl; rewrite <- !app_assoc; reflexivity|reflexivity|reflexivity|].
  repeat constructor.
Qed.

(** *** The client *)

Lemma handle_connection_returns_zero (fuel : nat) (fd : Z)
    (name : option string) (w : World) (r : Z) (w' : World) :
  handle_connection fuel fd name w = Done r w' -> r = 0.
Proof.
  unfold handle_connection, bind at 1, ptls_new. unfold bind at 1.
  destruct (session _ _ _ _ _ _) as [[] ws|y ws]; [|discriminate].
  unfold bind, ptls_buffer_dispose, ptls_free, ret. congruence.
Qed.

Lemma run_client_status (fuel : nat) (w : World) (r : Z) (w' : World) :
  run_client fuel w = Done r w' -> r = 0 \/ r = 1.
Proof.
  unfold run_client, bind at 1, sys_socket.
  destruct (sockets w) as [|s ss]; [discriminate|].
  destruct (s =? 1); [unfold bind, perror, ret; intros H; right; congruence|].
  unfold bind at 1, sys_connect. cbn [connects emit set_sockets].
  destruct (connects w) as [|c cs]; [discriminate|].
  destruct (c =? 0); cbn [negb];
    [|unfold bind, perror, ret; intros H; right; congruence].
  intros H. left. eapply handle_connection_returns_zero; eauto.
Qed.

Lemma run_server_status (fuel : nat) (w : World) (r : Z) (w' : World) :
  run_server fuel w = Done r w' -> r = 1.
Proof.
  unfold run_server, bind at 1, sys_socket.
  destruct (sockets w) as [|s ss]; [discriminate|].
  destruct (s =? -1); [unfold bind, perror, ret; congruence|].
  unfold bind at 1, sys_setup. cbn [setups emit set_sockets].
  destruct (setups w) as [|r1 su1]; [discriminate|].
  destruct (r1 =? 0); cbn [negb];
    [|unfold bind, perror, ret; congruence].
  unfold bind at 1. cbn [setups emit set_setups set_sockets].
  destruct su1 as [|r2 su2]; [discriminate|].
  destruct (r2 =? 0); cbn [negb];
    [|unfold bind, perror, ret; congruence].
  unfold bind at 1. cbn [setups emit set_setups set_sockets].
  destruct su2 as [|r3 su3]; [discriminate|].
  destruct (r3 =? 0); cbn [negb];
    [|unfold bind, perror, ret; congruence].
  intros H. exfalso. revert H. apply server_loop_never_returns.
Qed.

(** X14.  The exit status of the client tells whether a connection was
    made.  Whenever [run_client] returns, either it returns 1, having
    reported the failure of [socket] or of [connect] and created no engine
    instance, or it returns 0, having connected and created an engine
    instance for the peer name example.com. *)
Theorem client_status_tells_connection (fuel : nat) (w : World) (r : Z)
    (w' : World) :
  run_client fuel w = Done r w' ->
  exists evs,
    log w' = log w ++ evs /\
    ((r = 1 /\
      (evs = [EvSocket 1; EvPerror "socket(2) failed"] \/
       exists s c, s <> 1 /\ c <> 0 /\
         evs = [EvSocket s; EvConnect s c; EvPerror "connect(2) failed"])) \/
     (r = 0 /\
      exists s tl, s <> 1 /\
        evs = EvSocket s :: EvConnect s 0
                :: EvNew (Tls (Some "example.com"%string)) :: tl)).
Proof.
  unfold run_client, bind at 1, sys_socket.
  destruct (sockets w) as [|s ss]; [discriminate|].
  destruct (s =? 1) eqn:Es.
  { apply Z.eqb_eq in Es. subst s. unfold bind, perror, ret. intros H.
    injection H as <- <-. eexists. split.
    - simpl. rewrite <- app_assoc. reflexivity.
    - left. auto. }
  apply Z.eqb_neq in Es.
  unfold bind at 1, sys_connect. cbn [connects emit set_sockets].
  destruct (connects w) as [|c cs]; [discriminate|].
  destruct (c =? 0) eqn:Ec; cbn [negb].
  2:{ apply Z.eqb_neq in Ec. unfold bind, perror, ret. intros H.
      injection H as <- <-. eexists. split.
      - simpl. rewrite <- !app_assoc. reflexivity.
      - left. split; auto. right. exists s, c. auto. }
  apply Z.eqb_eq in Ec. subst c.
  set (w2 := emit (EvConnect s 0) _).
  assert (Hl2 : log w2 = log w ++ [EvSocket s; EvConnect s 0]).
  { unfold w2. simpl. now rewrite <- app_assoc. }
  clearbody w2.
  unfold handle_connection, bind at 1, ptls_new.
  intros H. rewrite (handle_connection_returns_zero _ _ _ _ _ _ H).
  revert H. unfold handle_connection, bind at 1, ptls_new. cbv beta iota.
  set (w3 := emit (EvNew _) w2).
  intros H.
  pose proof (only_extends _ _ w3
                (only_session fuel s (Tls (Some "example.com"%string))
                   (ptls_buffer_init (uninit 1024)) (uninit 1024))) as Hx.
  destruct (session _ _ _ _ _ w3) as [[] ws|y ws]; [|discriminate].
  destruct Hx as (tl & Hl3). simpl in Hl3.
  unfold bind, ptls_buffer_dispose, ptls_free, ret in H.
  injection H as _ <-.
  exists ([EvSocket s; EvConnect s 0] ++
          EvNew (Tls (Some "example.com"%string))
            :: tl ++ [EvDispose; EvFree (Tls (Some "example.com"%string))]).
  split.
  - simpl. rewrite Hl3. unfold w3. simpl. rewrite Hl2, <- !app_assoc.
    reflexivity.
  - right. split; auto. eexists s, _. split; [exact Es|reflexivity].
Qed.

(** *** The command line *)

Lemma main_options_spec (fopen : string -> option pem_file) (opts : list option_t) (certs : option nat)
    (pkey : bool) (certs' : option nat) (pkey' : bool) :
  main_options fopen opts certs pkey = inr (certs', pkey') ->
  negb (is_null certs') = negb (is_null certs) || has_c opts /\
  pkey' = pkey || has_k opts /\
  Forall (fun o => o <> OptOther) opts.
Proof.
  revert certs pkey. induction opts as [|o opts IH]; intros certs pkey; simpl.
  - intros H. injection H as <- <-. now rewrite !orb_false_r.
  - destruct o as [path|path|]; [| |discriminate].
    + destruct (fopen path) as [fp|]; [|discriminate].
      destruct (pem_certs fp =? 0)%nat; [discriminate|].
      intros H. apply IH in H. destruct H as (H1 & H2 & H3).
      rewrite H1, H2. simpl. rewrite orb_true_r.
      repeat split; auto. constructor; auto. discriminate.
    + destruct (fopen path) as [fp|]; [|discriminate].
      destruct (pem_key fp) eqn:Ek; [|discriminate]. cbn [negb].
      intros H. apply IH in H. destruct H as (H1 & H2 & H3).
      rewrite H1, H2. simpl. rewrite orb_true_r.
      repeat split; auto. constructor; auto. discriminate.
Qed.

Lemma main_options_leaves (fopen : string -> option pem_file) (opts : list option_t) (certs : option nat)
    (pkey : bool) (p : plan) :
  main_options fopen opts certs pkey = inl p -> exists said, p = Exit 1 said.
Proof.
  revert certs pkey. induction opts as [|o opts IH]; intros certs pkey; simpl.
  - discriminate.
  - destruct o as [path|path|].
    + destruct (fopen path) as [fp|];
        [|intros H; injection H as <-; eauto].
      destruct (pem_certs fp =? 0)%nat;
        [intros H; injection H as <-; eauto|apply IH].
    + destruct (fopen path) as [fp|];
        [|intros H; injection H as <-; eauto].
      destruct (negb (pem_key fp));
        [intros H; injection H as <-; eauto|apply IH].
    + intros H; injection H as <-; eauto.
Qed.

Lemma main_plan_mode (fopen : string -> option pem_file)
    (getaddrinfo : string -> string -> Z * bool) (opts : list option_t) (argv : list string)
    (server : bool) (host port : string) :
  main_plan fopen getaddrinfo opts argv = Run server host port ->
  has_c opts = server /\ has_k opts = server.
Proof.
  unfold main_plan.
  destruct (main_options fopen opts None false) as [p|[certs pkey]] eqn:Eo.
  { intros ->. apply main_options_leaves in Eo. destruct Eo; discriminate. }
  apply main_options_spec in Eo. destruct Eo as (Hc & Hk & Hu).
  simpl in Hc, Hk. rewrite <- Hc, <- Hk.
  destruct certs as [n|], pkey; simpl; try discriminate;
    (destruct (match argv with [] => _ | _ => _ end) as [h argv'];
     destruct (resolve_address _ _) as [r d];
     destruct (negb (r =? 0)); [discriminate|];
     intros H; injection H as <- _ _; auto).
Qed.

(** X15.  What it means that [main] reaches the network.  When [main]
    goes on to run the server or the client, no option was unknown; it
    runs the server when both [-c] and [-k] were given and the client when
    neither was; the host is the first positional argument, 0.0.0.0 for
    the server and 127.0.0.1 for the client when there is none; the port
    is the second positional argument, 8443 when there is none; any
    further argument is ignored; and [getaddrinfo] has resolved that host
    and port. *)
Theorem main_reaches_the_network (fopen : string -> option pem_file)
    (getaddrinfo : string -> string -> Z * bool) (opts : list option_t) (argv : list string)
    (server : bool) (host port : string) :
  main_plan fopen getaddrinfo opts argv = Run server host port ->
  has_c opts = server /\ has_k opts = server /\
  Forall (fun o => o <> OptOther) opts /\
  host = hd (if server then "0.0.0.0" else "127.0.0.1")%string argv /\
  port = nth 1 argv "8443"%string /\
  getaddrinfo host port = (0, true).
Proof.
  unfold main_plan.
  destruct (main_options fopen opts None false) as [p|[certs pkey]] eqn:Eo.
  { intros ->. apply main_options_leaves in Eo. destruct Eo; discriminate. }
  apply main_options_spec in Eo. destruct Eo as (Hc & Hk & Hu).
  simpl in Hc, Hk. rewrite <- Hc, <- Hk.
  destruct certs as [n|], pkey; simpl; try discriminate.
  - destruct argv as [|h [|p rest]]; simpl;
      unfold resolve_address;
      match goal with |- context [getaddrinfo ?h ?p] =>
        destruct (getaddrinfo h p) as [err res] eqn:Eg end;
      destruct (err =? 0) eqn:Ee; simpl; try discriminate;
      destruct res; simpl; try discriminate;
      intros H; injection H as <- <- <-; apply Z.eqb_eq in Ee; subst err;
      repeat split; auto.
  - destruct argv as [|h [|p rest]]; simpl;
      unfold resolve_address;
      match goal with |- context [getaddrinfo ?h ?p] =>
        destruct (getaddrinfo h p) as [err res] eqn:Eg end;
      destruct (err =? 0) eqn:Ee; simpl; try discriminate;
      destruct res; simpl; try discriminate;
      intros H; injection H as <- <- <-; apply Z.eqb_eq in Ee; subst err;
      repeat split; auto.
Qed.

Lemma main_plan_exit (fopen : string -> option pem_file)
    (getaddrinfo : string -> string -> Z * bool) (opts : list option_t) (argv : list string) (s : Z)
    (said : option diagnostic) :
  main_plan fopen getaddrinfo opts argv = Exit s said -> s = 1.
Proof.
  unfold main_plan.
  destruct (main_options fopen opts None false) as [p|[certs pkey]] eqn:Eo.
  { intros ->. apply main_options_leaves in Eo.
    destruct Eo as (d & Hd). congruence. }
  destruct (if negb (is_null certs) || pkey then _ else _); [congruence|].
  destruct (match argv with [] => _ | _ => _ end) as [h argv'].
  destruct (resolve_address _ _) as [r d].
  destruct (negb (r =? 0)); congruence.
Qed.

(** X16.  [-c] and [-k] go together.  When one of them is given without
    the other, [main] leaves with status 1 before any address is resolved
    or socket opened, whatever the files hold and whatever else is on the
    command line. *)
Theorem lone_option_leaves (fopen : string -> option pem_file)
    (getaddrinfo : string -> string -> Z * bool) (fuel : nat) (opts : list option_t)
    (argv : list string) (w : World) :
  has_c opts <> has_k opts ->
  (exists said, main_plan fopen getaddrinfo opts argv = Exit 1 said /\
                forall h p, said <> Some (FailedToResolve h p)) /\
  main fopen getaddrinfo fuel opts argv w = Done 1 w.
Proof.
  intros Hne.
  assert (H : exists said, main_plan fopen getaddrinfo opts argv = Exit 1 said /\
                forall h p, said <> Some (FailedToResolve h p)).
  { unfold main_plan.
    destruct (main_options fopen opts None false) as [pl|[certs pkey]] eqn:Eo.
    - clear Hne. revert Eo. generalize (@None nat) false.
      induction opts as [|o opts IH]; intros certs pkey; simpl;
        [discriminate|].
      destruct o as [path|path|].
      + destruct (fopen path) as [fp|];
          [|intros H; injection H as <-; eexists; split; eauto; discriminate].
        destruct (pem_certs fp =? 0)%nat;
          [intros H; injection H as <-; eexists; split; eauto; discriminate
          |apply IH].
      + destruct (fopen path) as [fp|];
          [|intros H; injection H as <-; eexists; split; eauto; discriminate].
        destruct (negb (pem_key fp));
          [intros H; injection H as <-; eexists; split; eauto; discriminate
          |apply IH].
      + intros H; injection H as <-; eexists; split; eauto; discriminate.
    - apply main_options_spec in Eo. destruct Eo as (Hc & Hk & _).
      simpl in Hc, Hk. rewrite <- Hc, <- Hk in Hne.
      destruct certs as [n|], pkey; simpl in *; try congruence;
        (eexists; split; [reflexivity|discriminate]). }
  split; [exact H|].
  destruct H as (said & Hp & _). unfold main. now rewrite Hp.
Qed.

(** X17.  An exit status of 0 is the client's.  [main] returns 0 or 1,
    and when it returns 0 it was given neither [-c] nor [-k], resolved
    the address, and ran the client, which returned 0. *)
Theorem main_status (fopen : string -> option pem_file)
    (getaddrinfo : string -> string -> Z * bool) (fuel : nat) (opts : list option_t) (argv : list string)
    (w : World) (r : Z) (w' : World) :
  main fopen getaddrinfo fuel opts argv w = Done r w' ->
  (r = 0 \/ r = 1) /\
  (r = 0 ->
   has_c opts = false /\ has_k opts = false /\
   (exists host port, main_plan fopen getaddrinfo opts argv = Run false host port) /\
   run_client fuel w = Done 0 w').
Proof.
  unfold main.
  destruct (main_plan fopen getaddrinfo opts argv) as [s said|server host port] eqn:Ep.
  { apply main_plan_exit in Ep. subst s. unfold ret. intros H.
    injection H as <- _. split; auto. lia. }
  pose proof (main_plan_mode _ _ _ _ _ _ _ Ep) as (Hc & Hk).
  unfold main_dispatch. destruct server.
  - intros H. apply run_server_status in H. subst r. split; auto. lia.
  - intros H. split; [eapply run_client_status; eauto|].
    intros ->. repeat split; eauto.
Qed.


(** *** A wake-up with both descriptors ready *)

Lemma write_all_keeps_reads (fuel : nat) (fd : Z) (data : list byte)
    (len : Z) : keeps reads (write_all fuel fd data len).
Proof.
  apply keeps_loop. intros [d l]. unfold write_all_body.
  destruct (l =? 0); [apply keeps_ret|].
  apply keeps_bind.
  - apply keeps_loop. intros u. unfold write_retry_body.
    apply keeps_bind.
    + intros w. unfold sys_write. destruct (writes w) as [|[n|e] rest];
        reflexivity.
    + intros r. apply keeps_bind; [intros w; reflexivity|].
      intros e. destruct ((r =? -1) && (e =? EINTR)); apply keeps_ret.
  - intros r. destruct (r <=? 0); apply keeps_ret.
Qed.

Lemma write_all_benign_done (fuel : nat) (fd : Z) (data : list byte)
    (len : Z) (w : World) :
  0 <= len < 2 ^ 64 ->
  Forall benign (writes w) ->
  (length (writes w) + 1 < fuel)%nat ->
  exists w' evs,
    write_all fuel fd data len w = Done 0 w' /\
    log w' = log w ++ evs /\
    Forall (is_write fd) evs /\
    accepted fd evs = span data len /\
    reads w' = reads w /\
    receives w' = receives w.
Proof.
  intros Hlen Hb Hf.
  destruct (write_all_spec fuel fd data len w)
    as (evs & Hl & Hw & Hrc & _ & Hm); [lia|].
  pose proof (write_all_benign fuel fd data len w) as Hr.
  pose proof (write_all_keeps_reads fuel fd data len w) as Hrd.
  destruct (write_all fuel fd data len w) as [r w'|y w'].
  - rewrite Hr by (auto; lia).
    exists w', evs. simpl in Hl, Hrd, Hrc. repeat split; auto.
    destruct Hm as [(_ & _ & Hac)|(Hr' & _)].
    + apply Hac. lia.
    + rewrite Hr in Hr' by (auto; lia). discriminate.
  - destruct Hm as (_ & Hfu & _). lia.
Qed.

(** The input-ready branch, when the read of standard input is not
    repeated, the engine seals and the socket takes the output. *)
Lemma input_ready_branch_served (fuel : nat) (fd : Z) (tls : ptls_t)
    (wb : ptls_buffer_t) (rb : list byte) (w : World) (d0 : list byte)
    (rs : list read_answer) (a : send_answer) (sds : list send_answer) :
  (0 < fuel)%nat ->
  reads w = RData d0 :: rs ->
  len_of (span d0 1024) <> 1 ->
  sends w = a :: sds -> sd_ret a = 0 ->
  off wb = 0 -> len_of (sd_out a) < 2 ^ 64 ->
  Forall benign (writes w) -> (length (writes w) + 1 < fuel)%nat ->
  exists wevs w3,
    input_ready_branch fuel fd tls (wb, rb) w
    = Done (Some (set_off (buffer_push wb (sd_out a)) 0,
                  blit rb (span d0 1024))) w3 /\
    log w3 = log w
             ++ EvRead 0 1024 (len_of (span d0 1024)) (errno w) (span d0 1024)
             :: EvSend 0 (span d0 1024) (len_of (span d0 1024)) 0 (sd_out a)
             :: wevs /\
    Forall (is_write fd) wevs /\
    accepted fd wevs = sd_out a /\
    reads w3 = rs /\
    receives w3 = receives w.
Proof.
  intros Hf Hr Hne Hsd Hok Hoff Hfit Hb Hfw.
  destruct fuel as [|fuel]; [lia|].
  remember (input_ready_branch (S fuel) fd tls (wb, rb) w) as o eqn:Ho.
  unfold input_ready_branch, bind at 1, read_retry in Ho.
  rewrite loop_S in Ho.
  unfold read_retry_body, bind at 1, sys_read in Ho. rewrite Hr in Ho.
  set (d := span d0 1024) in *.
  unfold get_errno, bind at 1 in Ho.
  apply Z.eqb_neq in Hne. rewrite Hne in Ho.
  cbn [andb break ret] in Ho.
  pose proof (len_span d0 1024) as Hlen. fold d in Hlen.
  assert (Hsz : size_t (len_of d) = len_of d) by (apply size_t_small; lia).
  unfold bind at 1, ptls_send in Ho.
  cbn [sends emit set_reads] in Ho. rewrite Hsd, Hsz, Hok, Hoff in Ho.
  rewrite span_blit in Ho. change (0 =? 0) with true in Ho.
  cbn [negb] in Ho.
  set (w2 := emit (EvSend 0 d (len_of d) 0 (sd_out a)) _) in Ho.
  assert (Hl2 : log w2 = log w ++ [EvRead 0 1024 (len_of d) (errno w) d;
                                   EvSend 0 d (len_of d) 0 (sd_out a)]).
  { unfold w2. simpl. now rewrite <- app_assoc. }
  assert (Hw2 : writes w2 = writes w) by reflexivity.
  assert (Hr2 : reads w2 = rs) by reflexivity.
  assert (Hc2 : receives w2 = receives w) by reflexivity.
  clearbody w2.
  destruct (write_all_benign_done (S fuel) fd
              (base (buffer_push wb (sd_out a)))
              (off (buffer_push wb (sd_out a))) w2)
    as (w3 & wevs & Hrun & Hl3 & Hww & Hacc & Hr3 & Hc3).
  { simpl. unfold len_of in *. lia. }
  { now rewrite Hw2. }
  { now rewrite Hw2. }
  unfold bind in Ho. rewrite Hrun in Ho.
  change (0 =? 0) with true in Ho. cbn [negb ret] in Ho.
  exists wevs, w3. split; [exact Ho|].
  split. { rewrite Hl3, Hl2, <- app_assoc. reflexivity. }
  split; [exact Hww|].
  split. { rewrite Hacc. apply pending_push_empty. exact Hoff. }
  split; congruence.
Qed.

(** A pump run with input left and an engine that answers starts with the
    unsealing call on the whole span, answered by the first answer of the
    script. *)
Lemma decrypt_and_print_first_call (fuel : nat) (tls : ptls_t)
    (input : list byte) (inlen : Z) (w : World) (c : receive_answer)
    (cs : list receive_answer) :
  (0 < fuel)%nat -> inlen <> 0 -> receives w = c :: cs ->
  exists tl,
    log (world_of (decrypt_and_print fuel tls input inlen w))
    = log w ++ EvReceive 0 (span input inlen) (rc_ret c) (rc_out c)
                 (rc_consumed c) :: tl.
Proof.
  intros Hf Hne Hc. destruct fuel as [|fuel]; [lia|].
  unfold decrypt_and_print. rewrite loop_S.
  pose proof (decrypt_and_print_body_spec (S fuel) tls input inlen
                (ptls_buffer_init (uninit 1024)) w Hne) as Hb.
  rewrite Hc in Hb. destruct Hb as (tl & Hl & _); [simpl; lia|].
  cbn [off ptls_buffer_init] in Hl.
  destruct (decrypt_and_print_body (S fuel) tls _ w)
    as [[st'|r] w1|y w1]; simpl in Hl.
  - destruct (only_loop pump_event (decrypt_and_print_body (S fuel) tls)
                fuel st' (only_decrypt_and_print_body _ _) w1)
      as (more & Hl2 & _).
    exists (tl ++ more). rewrite Hl2, Hl, <- app_assoc. reflexivity.
  - exists tl. exact Hl.
  - exists tl. exact Hl.
Qed.

(** The socket-ready branch, when the read of the socket is not
    repeated. *)
Lemma socket_ready_branch_served (fuel : nat) (fd : Z) (tls : ptls_t)
    (st : hc_state) (w : World) (d1 : list byte) (rs : list read_answer) :
  (0 < fuel)%nat ->
  reads w = RData d1 :: rs ->
  len_of (span d1 1024) <> 1 ->
  exists rest,
    log (world_of (socket_ready_branch fuel fd tls st w))
    = log w
      ++ EvRead fd 1024 (len_of (span d1 1024)) (errno w) (span d1 1024)
      :: rest /\
    (span d1 1024 = [] ->
     rest = [] /\
     exists w', socket_ready_branch fuel fd tls st w = Done None w') /\
    (forall c cs,
        span d1 1024 <> [] -> receives w = c :: cs ->
        exists rest',
          rest = EvReceive 0 (span d1 1024) (rc_ret c) (rc_out c)
                   (rc_consumed c) :: rest').
Proof.
  intros Hf Hr Hne. destruct st as [wb rb].
  destruct fuel as [|fuel]; [lia|].
  remember (socket_ready_branch (S fuel) fd tls (wb, rb) w) as o eqn:Ho.
  unfold socket_ready_branch, bind at 1, read_retry in Ho.
  rewrite loop_S in Ho.
  unfold read_retry_body, bind at 1, sys_read in Ho. rewrite Hr in Ho.
  set (d := span d1 1024) in *.
  unfold get_errno, bind at 1 in Ho.
  apply Z.eqb_neq in Hne. rewrite Hne in Ho.
  cbn [andb break ret] in Ho.
  pose proof (len_span d1 1024) as Hlen. fold d in Hlen.
  set (w1 := emit (EvRead fd 1024 (len_of d) (errno w) d) _) in Ho.
  assert (Hl1 : log w1 = log w ++ [EvRead fd 1024 (len_of d) (errno w) d])
    by reflexivity.
  assert (Hc1 : receives w1 = receives w) by reflexivity.
  clearbody w1.
  destruct (len_of d <=? 0) eqn:El.
  - apply Z.leb_le in El.
    assert (Hd : d = []).
    { destruct d; [reflexivity|]. unfold len_of in El. simpl in El. lia. }
    subst o. exists []. simpl. split; [exact Hl1|].
    split; [eauto|]. intros c cs Hn. congruence.
  - apply Z.leb_gt in El.
    assert (Hsz : size_t (len_of d) = len_of d) by (apply size_t_small; lia).
    assert (Hd : d <> []).
    { intros E. rewrite E in El. unfold len_of in El. simpl in El. lia. }
    unfold bind in Ho. rewrite Hsz in Ho.
    assert (Hpl : exists pevs,
               log (world_of (decrypt_and_print (S fuel) tls (blit rb d)
                                (len_of d) w1)) = log w1 ++ pevs /\
               forall c cs, receives w = c :: cs ->
                 exists rest', pevs = EvReceive 0 d (rc_ret c) (rc_out c)
                                        (rc_consumed c) :: rest').
    { destruct (only_decrypt_and_print (S fuel) tls (blit rb d) (len_of d) w1)
        as (pevs & Hlp & _).
      exists pevs. split; [exact Hlp|]. intros c cs Hc.
      destruct (decrypt_and_print_first_call (S fuel) tls (blit rb d)
                  (len_of d) w1 c cs) as (tl & Hlt);
        [lia|lia|congruence|].
      rewrite span_blit in Hlt. exists tl.
      apply (app_inv_head (log w1)). now rewrite <- Hlp, <- Hlt. }
    destruct Hpl as (pevs & Hlp & Hhead).
    exists pevs.
    assert (Hlog : log (world_of o) = log w
                     ++ EvRead fd 1024 (len_of d) (errno w) d :: pevs).
    { subst o.
      destruct (decrypt_and_print (S fuel) tls (blit rb d) (len_of d) w1)
        as [r w2|y w2]; simpl in Hlp.
      - destruct (negb (r =? 0)); simpl;
          rewrite Hlp, Hl1, <- app_assoc; reflexivity.
      - simpl. rewrite Hlp, Hl1, <- app_assoc. reflexivity. }
    split; [exact Hlog|]. split; [intros E; contradiction|].
    intros c cs _ Hc. eapply Hhead; eauto.
Qed.

(** C7.  In a turn of the streaming loop in which [select] reports both
    standard input and the socket ready, what follows the wait is the
    input-ready branch and then, on the same wake-up, the socket-ready
    branch, which is skipped only when the input-ready branch has ended the
    session.  So everything the turn does after the wait is first input
    side, then socket side; the socket side is entered only after a
    sealing call that succeeded; and a turn that goes on to the next has
    both sealed and sent input and read data from the socket and unsealed
    it.  And the turn does perform both: when the two reads are answered
    with data and are not repeated, the engine seals and the socket takes
    the output, the input side is the read of standard input, the sealing
    call on what was read and the writes that put its output on the
    socket, in full; the socket side follows and starts with the read of
    the socket, followed, when it brought bytes and the engine answers,
    by the unsealing call on them. *)
Theorem both_ready_both_served (fuel : nat) (fd : Z) (tls : ptls_t)
    (st : hc_state) (w : World) (ready : list Z) (ss : list select_answer) :
  selects w = SelReady ready :: ss ->
  Zmem 0 ready = true -> Zmem fd ready = true ->
  exists sel w1 input_side socket_side,
    is_select sel /\
    log w1 = log w ++ [sel] /\
    streaming_body fuel fd tls st w
    = (r1 <- input_ready_branch fuel fd tls st ;;
       match r1 with
       | None => break tt
       | Some st1 =>
           r2 <- socket_ready_branch fuel fd tls st1 ;;
           match r2 with
           | None => break tt
           | Some st2 => continue st2
           end
       end) w1 /\
    log (world_of (streaming_body fuel fd tls st w))
    = log w ++ sel :: input_side ++ socket_side /\
    Forall (input_event fd) input_side /\
    Forall (socket_event fd) socket_side /\
    (socket_side <> [] -> Exists sealed input_side) /\
    (forall st' w',
        streaming_body fuel fd tls st w = Done (inl st') w' ->
        Exists sealed input_side /\
        exists pre rd tl,
          socket_side = pre ++ rd :: tl /\ got_data fd rd /\
          Exists is_receive tl) /\
    (forall d0 d1 rs a sds,
        (0 < fuel)%nat ->
        reads w = RData d0 :: RData d1 :: rs ->
        len_of (span d0 1024) <> 1 -> len_of (span d1 1024) <> 1 ->
        sends w = a :: sds -> sd_ret a = 0 ->
        off (fst st) = 0 -> len_of (sd_out a) < 2 ^ 64 ->
        Forall benign (writes w) -> (length (writes w) + 1 < fuel)%nat ->
        exists wevs err rest,
          input_side
          = EvRead 0 1024 (len_of (span d0 1024)) (errno w) (span d0 1024)
            :: EvSend 0 (span d0 1024) (len_of (span d0 1024)) 0 (sd_out a)
            :: wevs /\
          Forall (is_write fd) wevs /\
          accepted fd wevs = sd_out a /\
          socket_side
          = EvRead fd 1024 (len_of (span d1 1024)) err (span d1 1024)
            :: rest /\
          (span d1 1024 = [] ->
           rest = [] /\
           exists w', streaming_body fuel fd tls st w = Done (inr tt) w') /\
          (forall c cs,
              span d1 1024 <> [] -> receives w = c :: cs ->
              exists rest',
                rest = EvReceive 0 (span d1 1024) (rc_ret c) (rc_out c)
                         (rc_consumed c) :: rest')).
Proof.
  intros Hs H0 Hfd.
  remember (streaming_body fuel fd tls st w) as o eqn:Ho.
  unfold streaming_body, bind at 1, sys_select in Ho.
  rewrite Hs in Ho. cbn [FD_SET FD_ZERO filter] in Ho.
  rewrite Hfd, H0 in Ho.
  rewrite nodup_count_pos in Ho.
  match type of Ho with context [emit ?e (set_selects ss w)] =>
    set (sel := e) in *; set (w1 := emit sel (set_selects ss w)) in * end.
  assert (Hl1 : log w1 = log w ++ [sel]) by reflexivity.
  assert (Hsel : is_select sel) by exact Logic.I.
  assert (Hrd1 : reads w1 = reads w) by reflexivity.
  assert (Hsd1 : sends w1 = sends w) by reflexivity.
  assert (Hwr1 : writes w1 = writes w) by reflexivity.
  assert (Hrc1 : receives w1 = receives w) by reflexivity.
  assert (Her1 : errno w1 = errno w) by reflexivity.
  clearbody w1. clearbody sel.
  assert (Hi0 : FD_ISSET 0 [fd; 0] = true).
  { unfold FD_ISSET, Zmem. cbn [existsb]. rewrite Z.eqb_refl.
    now rewrite orb_true_r. }
  assert (Hif : FD_ISSET fd [fd; 0] = true).
  { unfold FD_ISSET, Zmem. cbn [existsb]. now rewrite Z.eqb_refl. }
  unfold serve_ready in Ho. rewrite Hi0, Hif in Ho.
  exists sel, w1.
  assert (Heq : o = (r1 <- input_ready_branch fuel fd tls st ;;
                     match r1 with
                     | None => break tt
                     | Some st1 =>
                         r2 <- socket_ready_branch fuel fd tls st1 ;;
                         match r2 with
                         | None => break tt
                         | Some st2 => continue st2
                         end
                     end) w1) by exact Ho.
  clear Heq. unfold continue, break, ret in Ho.
  unfold bind at 1 in Ho.
  (* what the two branches do when they are served *)
  assert (Hserved : forall d0 d1 rs a sds,
    (0 < fuel)%nat ->
    reads w = RData d0 :: RData d1 :: rs ->
    len_of (span d0 1024) <> 1 -> len_of (span d1 1024) <> 1 ->
    sends w = a :: sds -> sd_ret a = 0 ->
    off (fst st) = 0 -> len_of (sd_out a) < 2 ^ 64 ->
    Forall benign (writes w) -> (length (writes w) + 1 < fuel)%nat ->
    exists wevs st1 w3 err rest,
      input_ready_branch fuel fd tls st w1 = Done (Some st1) w3 /\
      log w3 = log w1
               ++ EvRead 0 1024 (len_of (span d0 1024)) (errno w)
                    (span d0 1024)
               :: EvSend 0 (span d0 1024) (len_of (span d0 1024)) 0
                    (sd_out a)
               :: wevs /\
      Forall (is_write fd) wevs /\
      accepted fd wevs = sd_out a /\
      log (world_of (socket_ready_branch fuel fd tls st1 w3))
      = log w3
        ++ EvRead fd 1024 (len_of (span d1 1024)) err (span d1 1024)
        :: rest /\
      (span d1 1024 = [] ->
       rest = [] /\
       exists w', socket_ready_branch fuel fd tls st1 w3 = Done None w') /\
      (forall c cs,
          span d1 1024 <> [] -> receives w = c :: cs ->
          exists rest',
            rest = EvReceive 0 (span d1 1024) (rc_ret c) (rc_out c)
                     (rc_consumed c) :: rest')).
  { intros d0 d1 rs a sds Hf Hr Hn0 Hn1 Hsd Hok Hoff Hfit Hb Hfw.
    destruct st as [wb rb]. simpl in Hoff.
    destruct (input_ready_branch_served fuel fd tls wb rb w1 d0
                (RData d1 :: rs) a sds)
      as (wevs & w3 & Hrun & Hl3 & Hww & Hacc & Hr3 & Hc3);
      try congruence.
    destruct (socket_ready_branch_served fuel fd tls
                (set_off (buffer_push wb (sd_out a)) 0,
                 blit rb (span d0 1024)) w3 d1 rs Hf Hr3 Hn1)
      as (rest & Hl4 & He & Hne).
    eexists wevs, _, w3, (errno w3), rest.
    split; [exact Hrun|]. split; [now rewrite Hl3, Her1|].
    split; [exact Hww|]. split; [exact Hacc|].
    split; [exact Hl4|]. split; [exact He|].
    intros c cs Hd Hc. apply (Hne c cs Hd). congruence. }
  destruct (input_ready_branch_spec fuel fd tls st w1)
    as (ievs & Hl2 & Hie & Hsealed).
  exists ievs.
  destruct (input_ready_branch fuel fd tls st w1) as [[st1|] w2|y w2] eqn:Ei;
    simpl in Hl2.
  - (* the input side went through *)
    unfold bind in Ho.
    destruct (socket_ready_branch_spec fuel fd tls st1 w2)
      as (sevs & Hl3 & Hse & Hrecv).
    exists sevs.
    assert (Hlog : log (world_of (socket_ready_branch fuel fd tls st1 w2))
                   = log w ++ sel :: ievs ++ sevs).
    { rewrite Hl3, Hl2, Hl1, <- !app_assoc. reflexivity. }
    pose proof (Hsealed st1 w2 eq_refl) as Hsl.
    split; [exact Hsel|]. split; [exact Hl1|].
    split. { rewrite Ho. unfold bind at 1. rewrite Ei. reflexivity. }
    assert (Hnew : forall d0 d1 rs a sds,
      (0 < fuel)%nat ->
      reads w = RData d0 :: RData d1 :: rs ->
      len_of (span d0 1024) <> 1 -> len_of (span d1 1024) <> 1 ->
      sends w = a :: sds -> sd_ret a = 0 ->
      off (fst st) = 0 -> len_of (sd_out a) < 2 ^ 64 ->
      Forall benign (writes w) -> (length (writes w) + 1 < fuel)%nat ->
      exists wevs err rest,
        ievs
        = EvRead 0 1024 (len_of (span d0 1024)) (errno w) (span d0 1024)
          :: EvSend 0 (span d0 1024) (len_of (span d0 1024)) 0 (sd_out a)
          :: wevs /\
        Forall (is_write fd) wevs /\
        accepted fd wevs = sd_out a /\
        sevs
        = EvRead fd 1024 (len_of (span d1 1024)) err (span d1 1024)
          :: rest /\
        (span d1 1024 = [] ->
         rest = [] /\
         exists w', o = Done (inr tt) w') /\
        (forall c cs,
            span d1 1024 <> [] -> receives w = c :: cs ->
            exists rest',
              rest = EvReceive 0 (span d1 1024) (rc_ret c) (rc_out c)
                       (rc_consumed c) :: rest')).
    { intros d0 d1 rs a sds Hf Hr Hn0 Hn1 Hsd Hok Hoff Hfit Hb Hfw.
      destruct (Hserved d0 d1 rs a sds Hf Hr Hn0 Hn1 Hsd Hok Hoff Hfit Hb Hfw)
        as (wevs & st1' & w3 & err & rest & Hrun & Hl3' & Hww & Hacc & Hl4
            & He & Hne).
      injection Hrun as Hst Hw. rewrite <- Hst, <- Hw in *.
      clear Hst Hw st1' w3.
      exists wevs, err, rest.
      split. { apply (app_inv_head (log w1)). now rewrite <- Hl2, <- Hl3'. }
      split; [exact Hww|]. split; [exact Hacc|].
      split. { apply (app_inv_head (log w2)). now rewrite <- Hl3, <- Hl4. }
      split; [|exact Hne].
      intros Hd. destruct (He Hd) as (Hrest & w' & Hso).
      split; [exact Hrest|]. exists w'. rewrite Ho, Hso. reflexivity. }
    destruct (socket_ready_branch fuel fd tls st1 w2) as [[st2|] w3|y w3];
      simpl in Hlog; subst o; simpl;
      (split; [exact Hlog|]);
      (split; [exact Hie|]); (split; [exact Hse|]); (split; [auto|]);
      (split; [|exact Hnew]);
      try (intros; discriminate).
    intros st' w' _. split; auto. eapply Hrecv; eauto.
  - exists []. split; [exact Hsel|]. split; [exact Hl1|].
    split. { rewrite Ho. unfold bind at 1. rewrite Ei. reflexivity. }
    subst o. simpl. rewrite app_nil_r, Hl2, Hl1, <- app_assoc.
    split; [reflexivity|]. split; [exact Hie|]. split; [constructor|].
    split; [congruence|]. split; [intros; discriminate|].
    intros d0 d1 rs a sds Hf Hr Hn0 Hn1 Hsd Hok Hoff Hfit Hb Hfw.
    destruct (Hserved d0 d1 rs a sds Hf Hr Hn0 Hn1 Hsd Hok Hoff Hfit Hb Hfw)
      as (wevs & st1' & w3 & err & rest & Hrun & _). discriminate.
  - exists []. split; [exact Hsel|]. split; [exact Hl1|].
    split. { rewrite Ho. unfold bind at 1. rewrite Ei. reflexivity. }
    subst o. simpl. rewrite app_nil_r, Hl2, Hl1, <- app_assoc.
    split; [reflexivity|]. split; [exact Hie|]. split; [constructor|].
    split; [congruence|]. split; [intros; discriminate|].
    intros d0 d1 rs a sds Hf Hr Hn0 Hn1 Hsd Hok Hoff Hfit Hb Hfw.
    destruct (Hserved d0 d1 rs a sds Hf Hr Hn0 Hn1 Hsd Hok Hoff Hfit Hb Hfw)
      as (wevs & st1' & w3 & err & rest & Hrun & _). discriminate.
Qed.

End Cli.

(** ** Concrete runs *)

(** C1 (the code does otherwise).  With EINTR = 4: in the streaming loop
    the socket is ready and its read is interrupted by a signal.  The read
    is not tried again: the session is closed, and the two bytes the next
    read would have delivered are never read.  When it is the read of
    standard input that is interrupted, it is not tried again either: the
    sealing call is made at once, with the length [(size_t)-1].  The read
    loop of the handshake, given the same answers, does try again and
    gets the two bytes. *)
Theorem streaming_read_interrupt_closes :
  (exists w',
      handle_connection 4 514 10 7 None w_eintr = Done 0 w' /\
      log w' = [EvNew (Tls None); EvHandshake 0 [] 0 [] 0;
                EvSelect 8 [7; 0] 1 0 [7]; EvRead 7 1024 (-1) 4 [];
                EvDispose; EvFree (Tls None)] /\
      reads w' = [RData hi]) /\
  (exists w',
      handle_connection 4 514 10 7 None w_eintr_stdin = Stuck Starved w' /\
      log w' = [EvNew (Tls None); EvHandshake 0 [] 0 [] 0;
                EvSelect 8 [7; 0] 1 0 [0]; EvRead 0 1024 (-1) 4 [];
                EvSend 0 (uninit 1024) 18446744073709551615 0 hi;
                EvWrite 7 hi 2 4] /\
      reads w' = [RData hi]) /\
  (exists buf' w',
      read_retry 4 (-1) 10 7 (uninit 4) 1024
        (set_reads [RFail 4; RData hi] quiet) = Done (2, buf') w' /\
      log w' = [EvRead 7 1024 (-1) 4 []; EvRead 7 1024 2 4 hi] /\
      reads w' = []).
Proof.
  split; [|split].
  - eexists. split; [vm_compute; reflexivity|]. split; reflexivity.
  - eexists. split; [vm_compute; reflexivity|]. split; reflexivity.
  - eexists _, _. split; [vm_compute; reflexivity|]. split; reflexivity.
Qed.

Lemma write_all_complete_witness :
  len_of hello < 2 ^ 64 /\
  (length (writes w_short) + 1 < 10)%nat /\
  exists r w' evs,
    write_all 4 10 7 hello (len_of hello) w_short = Done r w' /\
    log w' = log w_short ++ evs /\
    Forall (is_write 7) evs /\
    ((r = 0 /\ accepted 7 evs = hello /\ Forall (fun e => ~ fatal 4 e) evs) \/
     (r = -1 /\
      exists pre e rest,
        evs = pre ++ [e] /\ Forall (fun e => ~ fatal 4 e) pre /\ fatal 4 e /\
        hello = accepted 7 evs ++ rest)).
Proof.
  assert (H1 : len_of hello < 2 ^ 64) by (vm_compute; reflexivity).
  assert (H2 : (length (writes w_short) + 1 < 10)%nat) by (vm_compute; lia).
  split; [exact H1|]. split; [exact H2|].
  exact (write_all_complete 4 10 7 hello w_short H1 H2).
Defined.

Lemma run_handshake_leftover_witness :
  exists wbuf' buf' w' evs,
    0 <= 16 < 2 ^ 64 /\
    run_handshake 4 514 10 7 (Tls None) (ptls_buffer_init (uninit 8))
      (uninit 16) 16 w_hs = Done (0, wbuf', buf', 4) w' /\
    log w' = log w_hs ++ evs /\
    last_read evs = Some abcdefg /\
    last_consumed evs = Some 3 /\
    0 <= 3 <= len_of abcdefg /\
    4 = len_of abcdefg - 3 /\
    span buf' 4 = advance abcdefg 3 /\
    (3 = len_of abcdefg -> 4 = 0 /\ shifts evs = []) /\
    (3 < len_of abcdefg -> shifts evs = [(3, len_of abcdefg - 3)]).
Proof.
  eexists _, _, _, _.
  split; [lia|]. split; [vm_compute; reflexivity|].
  split; [vm_compute; reflexivity|].
  split; [reflexivity|]. split; [reflexivity|].
  split; [vm_compute; intuition discriminate|].
  eapply (run_handshake_leftover 4 514 10 7 (Tls None)
            (ptls_buffer_init (uninit 8)) (uninit 16) 16 w_hs).
  - lia.
  - vm_compute; reflexivity.
  - vm_compute; reflexivity.
  - reflexivity.
  - reflexivity.
  - vm_compute; intuition discriminate.
Defined.

Lemma decrypt_and_print_exhausts_witness :
  0 <= 7 < 2 ^ 64 /\
  well_behaved 7 (receives w_pump) /\
  (Z.to_nat 7 < 10)%nat /\
  (length (writes w_pump) + 1 < 10)%nat /\
  suffices 7 (receives w_pump) /\
  (exists w', decrypt_and_print 4 10 (Tls None) abcdefg 7 w_pump = Done 0 w') /\
  exists evs,
    log (world_of (decrypt_and_print 4 10 (Tls None) abcdefg 7 w_pump))
    = log w_pump ++ evs /\
    cursor_chain abcdefg 7 evs /\
    (forall pre e post,
        evs = pre ++ e :: post -> is_receive e -> consumed_total pre <> 7) /\
    (7 = 0 ->
     decrypt_and_print 4 10 (Tls None) abcdefg 7 w_pump = Done 0 w_pump /\
     evs = []) /\
    receives w_pump
    = answers evs
      ++ receives (world_of
                     (decrypt_and_print 4 10 (Tls None) abcdefg 7 w_pump)) /\
    (suffices 7 (receives w_pump) ->
     exists r w',
       decrypt_and_print 4 10 (Tls None) abcdefg 7 w_pump = Done r w') /\
    match decrypt_and_print 4 10 (Tls None) abcdefg 7 w_pump with
    | Done r w' =>
        (r = 0 /\ consumed_total evs = 7) \/
        (r = -1 /\ (Exists refused evs \/ Exists (fatal 4) evs))
    | Stuck y w' =>
        y = Starved /\ receives w' = [] /\ answers evs = receives w_pump /\
        consumed_total evs < 7
    end.
Proof.
  assert (H1 : 0 <= 7 < 2 ^ 64) by lia.
  assert (H2 : well_behaved 7 (receives w_pump)) by (simpl; lia).
  assert (H3 : (Z.to_nat 7 < 10)%nat) by lia.
  assert (H4 : (length (writes w_pump) + 1 < 10)%nat) by (simpl; lia).
  assert (H5 : suffices 7 (receives w_pump)) by (simpl; lia).
  split; [exact H1|]. split; [exact H2|]. split; [exact H3|].
  split; [exact H4|]. split; [exact H5|].
  split; [eexists; vm_compute; reflexivity|].
  exact (decrypt_and_print_exhausts 4 10 (Tls None) abcdefg 7 w_pump
           H1 H2 H3 H4).
Defined.


Lemma handshake_then_flush_then_pump_witness :
  exists wb rb roff w1,
    run_handshake 4 514 10 7 (Tls None) (ptls_buffer_init (uninit 1024))
      (uninit 1024) 1024 (emit (EvNew (Tls None)) w_session)
    = Done (0, wb, rb, roff) w1 /\
    0 <= off wb < 2 ^ 64 /\
    exists flush pump rest,
      log (world_of (handle_connection 4 514 10 7 None w_session))
      = log w1 ++ flush ++ pump ++ rest /\
      Forall (is_write 7) flush /\
      (exists rem, pending wb = accepted 7 flush ++ rem) /\
      Forall pump_event pump /\
      (roff = 0 -> pump = []) /\
      (forall e tl, pump = e :: tl ->
         exists r out c, e = EvReceive 0 (span rb roff) r out c) /\
      (rest = [] \/ rest = [EvDispose; EvFree (Tls None)] \/
       exists sel tl,
         rest = sel :: tl /\ is_select sel /\
         accepted 7 flush = pending wb /\ (roff <> 0 -> pump <> [])).
Proof.
  eexists _, _, _, _.
  split; [vm_compute; reflexivity|].
  split; [vm_compute; intuition discriminate|].
  apply (handshake_then_flush_then_pump 4 514 10 7 None w_session).
  - vm_compute; reflexivity.
  - vm_compute; intuition discriminate.
Defined.

Lemma both_ready_both_served_witness :
  selects w_both = SelReady [0; 7] :: [] /\
  Zmem 0 [0; 7] = true /\
  Zmem 7 [0; 7] = true /\
  ((0 < 10)%nat /\
   reads w_both = RData hi :: RData abcdefg :: [] /\
   len_of (span hi 1024) <> 1 /\ len_of (span abcdefg 1024) <> 1 /\
   sends w_both = {| sd_ret := 0; sd_out := hello |} :: [] /\
   off (fst (ptls_buffer_init (uninit 8), uninit 8)) = 0 /\
   len_of hello < 2 ^ 64 /\
   Forall (benign 4) (writes w_both) /\
   (length (writes w_both) + 1 < 10)%nat) /\
  log (world_of (streaming_body 4 10 7 (Tls None)
                   (ptls_buffer_init (uninit 8), uninit 8) w_both))
  = [EvSelect 8 [7; 0] 2 0 [7; 0];
     EvRead 0 1024 2 0 hi; EvSend 0 hi 2 0 hello; EvWrite 7 hello 5 0;
     EvRead 7 1024 7 0 abcdefg; EvReceive 0 abcdefg 0 hi 7;
     EvWrite 1 hi 2 0] /\
  exists sel w1 input_side socket_side,
    is_select sel /\
    log w1 = log w_both ++ [sel] /\
    streaming_body 4 10 7 (Tls None)
      (ptls_buffer_init (uninit 8), uninit 8) w_both
    = (r1 <- input_ready_branch 4 10 7 (Tls None)
               (ptls_buffer_init (uninit 8), uninit 8) ;;
       match r1 with
       | None => break tt
       | Some st1 =>
           r2 <- socket_ready_branch 4 10 7 (Tls None) st1 ;;
           match r2 with
           | None => break tt
           | Some st2 => continue st2
           end
       end)%io w1 /\
    log (world_of (streaming_body 4 10 7 (Tls None)
                     (ptls_buffer_init (uninit 8), uninit 8) w_both))
    = log w_both ++ sel :: input_side ++ socket_side /\
    Forall (input_event 7) input_side /\
    Forall (socket_event 7) socket_side /\
    (socket_side <> [] -> Exists sealed input_side) /\
    (forall st' w',
        streaming_body 4 10 7 (Tls None)
          (ptls_buffer_init (uninit 8), uninit 8) w_both
        = Done (inl st') w' ->
        Exists sealed input_side /\
        exists pre rd tl,
          socket_side = pre ++ rd :: tl /\ got_data 7 rd /\
          Exists is_receive tl) /\
    (forall d0 d1 rs a sds,
        (0 < 10)%nat ->
        reads w_both = RData d0 :: RData d1 :: rs ->
        len_of (span d0 1024) <> 1 -> len_of (span d1 1024) <> 1 ->
        sends w_both = a :: sds -> sd_ret a = 0 ->
        off (fst (ptls_buffer_init (uninit 8), uninit 8)) = 0 ->
        len_of (sd_out a) < 2 ^ 64 ->
        Forall (benign 4) (writes w_both) ->
        (length (writes w_both) + 1 < 10)%nat ->
        exists wevs err rest,
          input_side
          = EvRead 0 1024 (len_of (span d0 1024)) (errno w_both)
              (span d0 1024)
            :: EvSend 0 (span d0 1024) (len_of (span d0 1024)) 0 (sd_out a)
            :: wevs /\
          Forall (is_write 7) wevs /\
          accepted 7 wevs = sd_out a /\
          socket_side
          = EvRead 7 1024 (len_of (span d1 1024)) err (span d1 1024)
            :: rest /\
          (span d1 1024 = [] ->
           rest = [] /\
           exists w',
             streaming_body 4 10 7 (Tls None)
               (ptls_buffer_init (uninit 8), uninit 8) w_both
             = Done (inr tt) w') /\
          (forall c cs,
              span d1 1024 <> [] -> receives w_both = c :: cs ->
              exists rest',
                rest = EvReceive 0 (span d1 1024) (rc_ret c) (rc_out c)
                         (rc_consumed c) :: rest')).
Proof.
  split; [reflexivity|]. split; [reflexivity|]. split; [reflexivity|].
  split.
  { split; [lia|]. split; [reflexivity|].
    split; [vm_compute; discriminate|]. split; [vm_compute; discriminate|].
    split; [reflexivity|]. split; [reflexivity|].
    split; [vm_compute; reflexivity|]. split; [constructor|]. simpl; lia. }
  split; [vm_compute; reflexivity|].
  exact (both_ready_both_served 4 10 7 (Tls None)
           (ptls_buffer_init (uninit 8), uninit 8) w_both [0; 7] []
           eq_refl eq_refl eq_refl).
Defined.

Lemma release_exactly_once_witness :
  (0 < 10)%nat /\
  selects w_eof = SelReady [7] :: [] /\
  Zmem 0 [7] = false /\ Zmem 7 [7] = true /\
  reads w_eof = RData [] :: [] /\
  nonpositive (RData []) /\
  exists w' sel rd,
    loop 1 (streaming_body 4 10 7 (Tls None))
      (ptls_buffer_init (uninit 8), uninit 8) w_eof = Done tt w' /\
    log w' = log w_eof ++ [sel; rd] /\ is_select sel /\ is_read 7 rd.
Proof.
  assert (H1 : (0 < 10)%nat) by lia.
  split; [exact H1|]. split; [reflexivity|]. split; [reflexivity|].
  split; [reflexivity|]. split; [reflexivity|]. split; [reflexivity|].
  exact (proj1 (proj2 (release_exactly_once 4 514 10 7 None w_eof))
           0%nat (Tls None)
           (ptls_buffer_init (uninit 8), uninit 8) [7] [] (RData []) []
           H1 eq_refl eq_refl eq_refl eq_refl eq_refl).
Defined.

Lemma client_socket_check_witness :
  (sockets w_socket_m1 = -1 :: [] /\
   connects w_socket_m1 = -1 :: [] /\
   exists evs,
     log (world_of (run_client 4 514 10 w_socket_m1))
     = log w_socket_m1 ++ EvSocket (-1) :: EvConnect (-1) (-1) :: evs /\
     Forall (fun e => e <> EvPerror "socket(2) failed") evs) /\
  (sockets w_socket_1 = 1 :: [] /\
   run_client 4 514 10 w_socket_1
   = Done 1 (emit (EvPerror "socket(2) failed")
               (emit (EvSocket 1) (set_sockets [] w_socket_1)))).
Proof.
  split.
  - split; [reflexivity|]. split; [reflexivity|].
    exact (proj1 (client_socket_check 4 514 10 w_socket_m1 []) eq_refl
             (-1) [] eq_refl).
  - split; [reflexivity|].
    exact (proj2 (client_socket_check 4 514 10 w_socket_1 []) eq_refl).
Defined.

Lemma exit_status_zero_witness :
  exists r w',
    sockets w_rejected = 3 :: [] /\
    3 <> 1 /\
    connects w_rejected = 0 :: [] /\
    main_dispatch 4 514 false 10 w_rejected = Done r w' /\
    r = 0.
Proof.
  eexists _, _.
  split; [reflexivity|]. split; [discriminate|]. split; [reflexivity|].
  split; [vm_compute; reflexivity|].
  eapply (proj2 (proj2 (proj2 (exit_status_zero 4 514 10 3 None w_rejected)))
            3 [] [] _ _ eq_refl).
  - discriminate.
  - reflexivity.
  - vm_compute; reflexivity.
Defined.

Lemma write_all_survives_interrupts_witness :
  0 <= len_of hello < 2 ^ 64 /\
  Forall (benign 4) (writes w_short) /\
  (length (writes w_short) + 1 < 10)%nat /\
  exists w' evs,
    write_all 4 10 7 hello (len_of hello) w_short = Done 0 w' /\
    log w' = log w_short ++ evs /\
    Forall (is_write 7) evs /\
    accepted 7 evs = span hello (len_of hello).
Proof.
  assert (H1 : 0 <= len_of hello < 2 ^ 64) by (unfold len_of; simpl; lia).
  assert (H2 : Forall (benign 4) (writes w_short))
    by (repeat constructor; simpl; lia).
  assert (H3 : (length (writes w_short) + 1 < 10)%nat) by (simpl; lia).
  split; [exact H1|]. split; [exact H2|]. split; [exact H3|].
  exact (write_all_survives_interrupts 4 10 7 hello (len_of hello) w_short
           H1 H2 H3).
Defined.

Lemma handshake_read_retries_witness :
  reads w_interrupted_twice = repeat (RFail 4) 2 ++ RData hi :: [] /\
  RData hi <> RFail 4 /\
  (2 < 10)%nat /\
  exists wk,
    log wk = log w_interrupted_twice ++ repeat (EvRead 7 16 (-1) 4 []) 2 /\
    reads wk = RData hi :: [] /\
    read_retry 4 (-1) 10 7 (uninit 16) 16 w_interrupted_twice
    = sys_read 7 (uninit 16) 16 wk.
Proof.
  assert (H1 : reads w_interrupted_twice
               = repeat (RFail 4) 2 ++ RData hi :: []) by reflexivity.
  assert (H2 : RData hi <> RFail 4) by discriminate.
  assert (H3 : (2 < 10)%nat) by lia.
  split; [exact H1|]. split; [exact H2|]. split; [exact H3|].
  exact (handshake_read_retries 4 2 10 7 (uninit 16) 16 w_interrupted_twice
           (RData hi) [] H1 H2 H3).
Defined.

Lemma streaming_read_drops_single_bytes_witness :
  1 <= 1024 /\
  errno w_single_bytes = 4 /\
  reads w_single_bytes = map (fun b => RData [b]) ab ++ RData hi :: [] /\
  ~ one_byte 1024 (RData hi) /\
  (length ab < 10)%nat /\
  exists wk,
    log wk = log w_single_bytes ++ map (fun b => EvRead 7 1024 1 4 [b]) ab /\
    reads wk = RData hi :: [] /\
    read_retry 4 1 10 7 (uninit 1024) 1024 w_single_bytes
    = sys_read 7 (fold_left (fun acc b => blit acc [b]) ab (uninit 1024))
        1024 wk.
Proof.
  assert (H1 : 1 <= 1024) by lia.
  assert (H2 : errno w_single_bytes = 4) by reflexivity.
  assert (H3 : reads w_single_bytes
               = map (fun b => RData [b]) ab ++ RData hi :: []) by reflexivity.
  assert (H4 : ~ one_byte 1024 (RData hi)) by (vm_compute; discriminate).
  assert (H5 : (length ab < 10)%nat) by (simpl; lia).
  split; [exact H1|]. split; [exact H2|]. split; [exact H3|].
  split; [exact H4|]. split; [exact H5|].
  exact (streaming_read_drops_single_bytes 4 ab 10 7 (uninit 1024) 1024
           w_single_bytes (RData hi) [] H1 H2 H3 H4 H5).
Defined.

Lemma idle_waits_change_nothing_witness :
  selects w_idle = [SelFail 4; SelReady [9]] ++ [SelReady [7]] /\
  Forall (idle 7) [SelFail 4; SelReady [9]] /\
  exists wk evs,
    log wk = log w_idle ++ evs /\
    Forall is_select evs /\
    length evs = length [SelFail 4; SelReady [9]] /\
    selects wk = [SelReady [7]] /\
    reads wk = reads w_idle /\
    sends wk = sends w_idle /\
    receives wk = receives w_idle /\
    loop (length [SelFail 4; SelReady [9]] + 5)
      (streaming_body 4 10 7 (Tls None))
      (ptls_buffer_init (uninit 1024), uninit 1024) w_idle
    = loop 5 (streaming_body 4 10 7 (Tls None))
        (ptls_buffer_init (uninit 1024), uninit 1024) wk.
Proof.
  assert (H1 : selects w_idle = [SelFail 4; SelReady [9]] ++ [SelReady [7]])
    by reflexivity.
  assert (H2 : Forall (idle 7) [SelFail 4; SelReady [9]])
    by (repeat constructor).
  split; [exact H1|]. split; [exact H2|].
  exact (idle_waits_change_nothing 4 [SelFail 4; SelReady [9]] 5 10 7
           (Tls None) (ptls_buffer_init (uninit 1024), uninit 1024) w_idle
           [SelReady [7]] H1 H2).
Defined.

Lemma input_array_keeps_size_witness :
  0 <= 16 <= len_of (uninit 16) /\
  16 < 2 ^ 64 /\
  1024 <= len_of (snd (ptls_buffer_init (uninit 1024), uninit 1024)) /\
  log (world_of (run_handshake 4 514 10 7 (Tls None)
                   (ptls_buffer_init (uninit 8)) (uninit 16) 16 w_size))
  = log w_size
    ++ [EvHandshake 0 [] 514 hello 0; EvWrite 7 hello 5 0;
        EvRead 7 16 7 0 abcdefg; EvHandshake 0 abcdefg 0 [] 3;
        EvMemmove 3 4] /\
  Forall within
    [EvHandshake 0 [] 514 hello 0; EvWrite 7 hello 5 0;
     EvRead 7 16 7 0 abcdefg; EvHandshake 0 abcdefg 0 [] 3;
     EvMemmove 3 4] /\
  (Forall (read_fits (len_of (uninit 16)))
     [EvHandshake 0 [] 514 hello 0; EvWrite 7 hello 5 0;
      EvRead 7 16 7 0 abcdefg; EvHandshake 0 abcdefg 0 [] 3;
      EvMemmove 3 4] /\
   Forall (shift_fits (len_of (uninit 16)))
     [EvHandshake 0 [] 514 hello 0; EvWrite 7 hello 5 0;
      EvRead 7 16 7 0 abcdefg; EvHandshake 0 abcdefg 0 [] 3;
      EvMemmove 3 4] /\
   match
     run_handshake 4 514 10 7 (Tls None) (ptls_buffer_init (uninit 8))
       (uninit 16) 16 w_size
   with
   | Done (_, _, buf', _) _ => len_of buf' = len_of (uninit 16)
   | Stuck _ _ => True
   end) /\
  (exists tevs,
      log (world_of (streaming_body 4 10 7 (Tls None)
                       (ptls_buffer_init (uninit 1024), uninit 1024) w_size))
      = log w_size ++ tevs /\
      Forall (read_fits
                (len_of (snd (ptls_buffer_init (uninit 1024), uninit 1024))))
        tevs /\
      match
        streaming_body 4 10 7 (Tls None)
          (ptls_buffer_init (uninit 1024), uninit 1024) w_size
      with
      | Done (inl st') _ =>
          len_of (snd st')
          = len_of (snd (ptls_buffer_init (uninit 1024), uninit 1024))
      | _ => True
      end).
Proof.
  assert (H1 : 0 <= 16 <= len_of (uninit 16))
    by (unfold len_of, uninit; rewrite repeat_length; lia).
  assert (H2 : 16 < 2 ^ 64) by lia.
  assert (H3 : 1024
               <= len_of (snd (ptls_buffer_init (uninit 1024), uninit 1024)))
    by (unfold len_of, uninit, snd; rewrite repeat_length; lia).
  assert (H4 : log (world_of (run_handshake 4 514 10 7 (Tls None)
                                (ptls_buffer_init (uninit 8)) (uninit 16) 16
                                w_size))
               = log w_size
                 ++ [EvHandshake 0 [] 514 hello 0; EvWrite 7 hello 5 0;
                     EvRead 7 16 7 0 abcdefg; EvHandshake 0 abcdefg 0 [] 3;
                     EvMemmove 3 4])
    by (vm_compute; reflexivity).
  assert (H5 : Forall within
                 [EvHandshake 0 [] 514 hello 0; EvWrite 7 hello 5 0;
                  EvRead 7 16 7 0 abcdefg; EvHandshake 0 abcdefg 0 [] 3;
                  EvMemmove 3 4])
    by (repeat constructor; vm_compute; discriminate).
  split; [exact H1|]. split; [exact H2|]. split; [exact H3|].
  split; [exact H4|]. split; [exact H5|].
  exact (input_array_keeps_size 4 514 10 7 (Tls None)
           (ptls_buffer_init (uninit 8)) (uninit 16) 16
           (ptls_buffer_init (uninit 1024), uninit 1024) w_size _
           H1 H2 H3 H4 H5).
Defined.

Lemma one_ready_one_served_witness :
  selects w_input_only = SelReady [0] :: [] /\
  Zmem 0 [0] <> Zmem 7 [0] /\
  exists sel evs,
    log (world_of (streaming_body 4 10 7 (Tls None)
                     (ptls_buffer_init (uninit 1024), uninit 1024)
                     w_input_only))
    = log w_input_only ++ sel :: evs /\
    is_select sel /\
    (Zmem 0 [0] = true ->
     Forall (input_event 7) evs /\
     Forall (fun e => ~ is_read 7 e /\ ~ is_receive e) evs) /\
    (Zmem 7 [0] = true ->
     Forall (socket_event 7) evs /\
     Forall (fun e => ~ is_read 0 e /\ ~ is_seal e) evs).
Proof.
  assert (H1 : selects w_input_only = SelReady [0] :: []) by reflexivity.
  assert (H2 : Zmem 0 [0] <> Zmem 7 [0]) by (vm_compute; discriminate).
  split; [exact H1|]. split; [exact H2|].
  exact (one_ready_one_served 4 10 7 (Tls None)
           (ptls_buffer_init (uninit 1024), uninit 1024) w_input_only
           [0] [] H1 H2).
Defined.

Lemma stdin_eof_is_sealed_as_empty_witness :
  (0 < 10)%nat /\
  reads w_stdin_eof = RData [] :: [] /\
  sends w_stdin_eof = {| sd_ret := 0; sd_out := hello |} :: [] /\
  0 <= off (ptls_buffer_init (uninit 1024)) /\
  exists evs,
    log (world_of (input_ready_branch 4 10 7 (Tls None)
                     (ptls_buffer_init (uninit 1024), uninit 1024)
                     w_stdin_eof))
    = log w_stdin_eof
      ++ EvRead 0 1024 0 (errno w_stdin_eof) []
         :: EvSend (off (ptls_buffer_init (uninit 1024))) [] 0
              (sd_ret {| sd_ret := 0; sd_out := hello |})
              (sd_out {| sd_ret := 0; sd_out := hello |}) :: evs /\
    (forall w',
        input_ready_branch 4 10 7 (Tls None)
          (ptls_buffer_init (uninit 1024), uninit 1024) w_stdin_eof
        = Done None w' ->
        sd_ret {| sd_ret := 0; sd_out := hello |} <> 0 \/
        Exists (fatal 4) evs).
Proof.
  assert (H1 : (0 < 10)%nat) by lia.
  assert (H2 : reads w_stdin_eof = RData [] :: []) by reflexivity.
  assert (H3 : sends w_stdin_eof = {| sd_ret := 0; sd_out := hello |} :: [])
    by reflexivity.
  assert (H4 : 0 <= off (ptls_buffer_init (uninit 1024))) by (simpl; lia).
  split; [exact H1|]. split; [exact H2|]. split; [exact H3|].
  split; [exact H4|].
  exact (stdin_eof_is_sealed_as_empty 4 10 7 (Tls None)
           (ptls_buffer_init (uninit 1024)) (uninit 1024) w_stdin_eof
           [] {| sd_ret := 0; sd_out := hello |} [] H1 H2 H3 H4).
Defined.

Lemma handshake_steps_fed_by_reads_witness :
  0 <= 16 < 2 ^ 64 /\
  exists evs,
    log (world_of (run_handshake 4 514 10 7 (Tls None)
                     (ptls_buffer_init (uninit 8)) (uninit 16) 16 w_hs))
    = log w_hs ++ evs /\
    fed [] evs.
Proof.
  assert (H1 : 0 <= 16 < 2 ^ 64) by lia.
  split; [exact H1|].
  exact (handshake_steps_fed_by_reads 4 514 10 7 (Tls None)
           (ptls_buffer_init (uninit 8)) (uninit 16) 16 w_hs H1).
Defined.

Lemma handshake_flushes_before_reading_witness :
  off (ptls_buffer_init (uninit 8)) = 0 /\
  steps_fit (handshakes w_hs) /\
  exists evs,
    log (world_of (run_handshake 4 514 10 7 (Tls None)
                     (ptls_buffer_init (uninit 8)) (uninit 16) 16 w_hs))
    = log w_hs ++ evs /\
    at_each (reads_after_flush 7) evs /\
    (forall wbuf' buf' len' w',
        run_handshake 4 514 10 7 (Tls None) (ptls_buffer_init (uninit 8))
          (uninit 16) 16 w_hs
        = Done (0, wbuf', buf', len') w' ->
        hs_output evs = accepted 7 evs ++ pending wbuf').
Proof.
  assert (H1 : off (ptls_buffer_init (uninit 8)) = 0) by reflexivity.
  assert (H2 : steps_fit (handshakes w_hs))
    by (repeat constructor; vm_compute; reflexivity).
  split; [exact H1|]. split; [exact H2|].
  exact (handshake_flushes_before_reading 4 514 10 7 (Tls None)
           (ptls_buffer_init (uninit 8)) (uninit 16) 16 w_hs H1 H2).
Defined.

Lemma connection_ends_for_a_cause_witness :
  exists w',
    handle_connection 4 514 10 7 None w_eintr = Done 0 w' /\
    exists pre e,
      log w' = log w_eintr ++ EvNew (Tls None)
                 :: pre ++ [e; EvDispose; EvFree (Tls None)] /\
      exit_cause 4 e.
Proof.
  eexists. split; [vm_compute; reflexivity|].
  apply (connection_ends_for_a_cause 4 514 10 7 None w_eintr 0).
  vm_compute; reflexivity.
Defined.

Lemma server_returns_only_on_setup_failure_witness :
  exists w',
    run_server 4 514 10 w_no_socket = Done 1 w' /\
    1 = 1 /\
    exists evs, log w' = log w_no_socket ++ evs /\ setup_failure evs.
Proof.
  eexists. split; [vm_compute; reflexivity|].
  apply (server_returns_only_on_setup_failure 4 514 10 w_no_socket 1).
  vm_compute; reflexivity.
Defined.

Lemma client_status_tells_connection_witness :
  exists w',
    run_client 4 514 10 w_rejected = Done 0 w' /\
    exists evs,
      log w' = log w_rejected ++ evs /\
      ((0 = 1 /\
        (evs = [EvSocket 1; EvPerror "socket(2) failed"] \/
         exists s c, s <> 1 /\ c <> 0 /\
           evs = [EvSocket s; EvConnect s c;
                  EvPerror "connect(2) failed"])) \/
       (0 = 0 /\
        exists s tl, s <> 1 /\
          evs = EvSocket s :: EvConnect s 0
                  :: EvNew (Tls (Some "example.com"%string)) :: tl)).
Proof.
  eexists. split; [vm_compute; reflexivity|].
  apply (client_status_tells_connection 4 514 10 w_rejected 0).
  vm_compute; reflexivity.
Defined.

Lemma main_reaches_the_network_witness :
  main_plan fopen_any getaddrinfo_any
    [OptC "cert.pem"%string; OptK "key.pem"%string] ["example.org"%string]
  = Run true "example.org"%string "8443"%string /\
  has_c [OptC "cert.pem"%string; OptK "key.pem"%string] = true /\
  has_k [OptC "cert.pem"%string; OptK "key.pem"%string] = true /\
  Forall (fun o => o <> OptOther)
    [OptC "cert.pem"%string; OptK "key.pem"%string] /\
  "example.org"%string
  = hd (if true then "0.0.0.0"%string else "127.0.0.1"%string)
      ["example.org"%string] /\
  "8443"%string = nth 1 ["example.org"%string] "8443"%string /\
  getaddrinfo_any "example.org"%string "8443"%string = (0, true).
Proof.
  assert (H1 : main_plan fopen_any getaddrinfo_any
                 [OptC "cert.pem"%string; OptK "key.pem"%string]
                 ["example.org"%string]
               = Run true "example.org"%string "8443"%string)
    by reflexivity.
  split; [exact H1|].
  exact (main_reaches_the_network fopen_any getaddrinfo_any
           [OptC "cert.pem"%string; OptK "key.pem"%string]
           ["example.org"%string] true "example.org"%string "8443"%string
           H1).
Defined.

Lemma lone_option_leaves_witness :
  has_c [OptC "cert.pem"%string] <> has_k [OptC "cert.pem"%string] /\
  (exists said,
      main_plan fopen_any getaddrinfo_any [OptC "cert.pem"%string] []
      = Exit 1 said /\
      forall h p, said <> Some (FailedToResolve h p)) /\
  main 4 514 fopen_any getaddrinfo_any 10 [OptC "cert.pem"%string] [] quiet
  = Done 1 quiet.
Proof.
  assert (H1 : has_c [OptC "cert.pem"%string]
               <> has_k [OptC "cert.pem"%string])
    by (vm_compute; discriminate).
  split; [exact H1|].
  exact (lone_option_leaves 4 514 fopen_any getaddrinfo_any 10
           [OptC "cert.pem"%string] [] quiet H1).
Defined.

Lemma main_status_witness :
  exists w',
    main 4 514 fopen_any getaddrinfo_any 10 [] [] w_rejected = Done 0 w' /\
    (0 = 0 \/ 0 = 1) /\
    (0 = 0 ->
     has_c [] = false /\ has_k [] = false /\
     (exists host port,
         main_plan fopen_any getaddrinfo_any [] [] = Run false host port) /\
     run_client 4 514 10 w_rejected = Done 0 w').
Proof.
  eexists. split; [vm_compute; reflexivity|].
  apply (main_status 4 514 fopen_any getaddrinfo_any 10 [] [] w_rejected 0).
  vm_compute; reflexivity.
Defined.
